(** * replay_commits.py: a shallow embedding and its properties

    The script replays recent upstream commits onto per-commit branches of a
    fork, overlaying files kept on the fork's [main], and force-pushes each
    branch.  Everything the script does is an effect on one process-wide
    state: the file system, the git repository, the remote and the
    environment.  The embedding threads that state explicitly through a
    state-and-exception monad; an exception leaves the state as it was when
    it was raised, as in Python. *)

From Stdlib Require Import ZArith Lia Ascii String Strings.Byte List.
From stdpp Require Import base tactics option list strings gmap fin_maps pretty.

Local Open Scope string_scope.
Local Open Scope Z_scope.

(** ** Byte strings *)

(** [bytes] objects: blob contents and file contents. *)
Abbreviation bytes := (list Byte.byte).

Global Instance byte_eq_dec : EqDecision Byte.byte := Strings.Byte.byte_eq_dec.

(** [b"..."] literals. *)
Definition b (s : string) : bytes := list_byte_of_string s.

(** ** Path strings (posixpath)

    Paths are Python [str] values.  A location in the file system is the
    list of its components below the root.  There are no symbolic links in
    the model, and [..] is resolved lexically. *)

Definition slash : ascii := "/"%char.

Definition is_slash (c : ascii) : bool := bool_decide (c = slash).

Definition is_empty (s : string) : bool :=
  match s with EmptyString => true | _ => false end.

(** [p[:p.rfind('/') + 1]] *)
Fixpoint upto_last_slash (p : string) : string :=
  match p with
  | EmptyString => EmptyString
  | String c r =>
      let h := upto_last_slash r in
      if is_slash c || negb (is_empty h) then String c h else EmptyString
  end.

(** [s.rstrip('/')] *)
Fixpoint rstrip_slash (s : string) : string :=
  match s with
  | EmptyString => EmptyString
  | String c r =>
      let t := rstrip_slash r in
      if is_slash c && is_empty t then EmptyString else String c t
  end.

(** [os.path.dirname]: the head up to the last slash, with trailing slashes
    stripped unless the head consists of slashes only. *)
Definition dirname (p : string) : string :=
  let head := upto_last_slash p in
  let stripped := rstrip_slash head in
  if is_empty stripped then head else stripped.

(** [s.endswith('/')] *)
Fixpoint ends_with_slash (s : string) : bool :=
  match s with
  | EmptyString => false
  | String c EmptyString => is_slash c
  | String _ r => ends_with_slash r
  end.

(** [s.startswith('/')] *)
Definition starts_with_slash (s : string) : bool :=
  match s with String c _ => is_slash c | EmptyString => false end.

(** [os.path.join] of two parts; [join3] is the three-argument call. *)
Definition path_join (a c : string) : string :=
  if starts_with_slash c then c
  else if is_empty a || ends_with_slash a then a ++ c
  else a ++ "/" ++ c.

Definition path_join3 (a c d : string) : string := path_join (path_join a c) d.

(** [s.split('/')] *)
Fixpoint split_slash (s : string) : list string :=
  match s with
  | EmptyString => [EmptyString]
  | String c r =>
      if is_slash c then EmptyString :: split_slash r
      else match split_slash r with
           | h :: t => String c h :: t
           | [] => [String c EmptyString]
           end
  end.

(** Locations: absolute, normalised component lists. *)
Abbreviation loc := (list string).

Definition walk_component (acc : loc) (c : string) : loc :=
  if bool_decide (c = "") || bool_decide (c = ".") then acc
  else if bool_decide (c = "..") then removelast acc
  else acc ++ [c].

(** Where the kernel's path walk ends for path [p] of a process whose
    current directory is [cwd]. *)
Definition resolve (cwd : loc) (p : string) : loc :=
  fold_left walk_component (split_slash p)
            (if starts_with_slash p then [] else cwd).

(** A component list as a relative path string: ["a/b/c"]. *)
Fixpoint join_components (cs : list string) : string :=
  match cs with
  | [] => ""
  | [c] => c
  | c :: rest => c ++ "/" ++ join_components rest
  end.

(** A name git can store in a tree: not empty, no slash, not [.] or [..]. *)
Fixpoint has_slash (s : string) : bool :=
  match s with
  | EmptyString => false
  | String c r => is_slash c || has_slash r
  end.

Definition valid_name (c : string) : bool :=
  negb (is_empty c) && negb (has_slash c)
  && negb (bool_decide (c = ".")) && negb (bool_decide (c = "..")).

(** ** Dates (datetime)

    Instants are POSIX timestamps in seconds; calendar days are counted from
    1970-01-01.  [date] objects exist for the years 1 to 9999 only. *)

Definition seconds_per_day : Z := 86400.

(** [datetime.fromtimestamp(t, tz).date()], [east] seconds east of UTC. *)
Definition day_of (t east : Z) : Z := (t + east) / seconds_per_day.

Definition epoch_ordinal : Z := 719163.   (* date(1970,1,1).toordinal() *)
Definition max_ordinal : Z := 3652059.    (* date(9999,12,31).toordinal() *)
Definition max_delta_days : Z := 999999999.

Definition day_in_range (d : Z) : bool :=
  (1 <=? d + epoch_ordinal) && (d + epoch_ordinal <=? max_ordinal).

(** Year, month and day of a day count (the proleptic Gregorian calendar). *)
Definition civil_of_day (d : Z) : Z * Z * Z :=
  let z := d + 719468 in
  let era := z / 146097 in
  let doe := z - era * 146097 in
  let yoe := (doe - doe / 1460 + doe / 36524 - doe / 146096) / 365 in
  let doy := doe - (365 * yoe + yoe / 4 - yoe / 100) in
  let mp := (5 * doy + 2) / 153 in
  let dd := doy - (153 * mp + 2) / 5 + 1 in
  let mm := if mp <? 10 then mp + 3 else mp - 9 in
  let yy := yoe + era * 400 + (if mm <=? 2 then 1 else 0) in
  (yy, mm, dd).

Definition pad_left (width : nat) (s : string) : string :=
  String.concat "" (replicate (width - String.length s)%nat "0") ++ s.

Definition zero_padded (width : nat) (n : Z) : string :=
  pad_left width (pretty (Z.to_N n)).

(** [date.isoformat()]: [YYYY-MM-DD]. *)
Definition isoformat (d : Z) : string :=
  let '(yy, mm, dd) := civil_of_day d in
  zero_padded 4 yy ++ "-" ++ zero_padded 2 mm ++ "-" ++ zero_padded 2 dd.

(** ** URL quoting (urllib.parse.quote)

    [quote(s)] with the default [safe='/']: letters, digits and [_.-~/] are
    kept, every other byte becomes [%XX] with upper-case hexadecimal. *)

Definition in_range (lo hi c : ascii) : bool :=
  (N_of_ascii lo <=? N_of_ascii c)%N && (N_of_ascii c <=? N_of_ascii hi)%N.

Definition always_safe (c : ascii) : bool :=
  in_range "A" "Z" c || in_range "a" "z" c || in_range "0" "9" c
  || bool_decide (c = "_"%char) || bool_decide (c = "."%char)
  || bool_decide (c = "-"%char) || bool_decide (c = "~"%char)
  || bool_decide (c = "/"%char).

Definition hex_digit (n : N) : ascii :=
  if (n <? 10)%N then ascii_of_N (n + 48) else ascii_of_N (n + 55).

Definition percent_encode (c : ascii) : string :=
  let n := N_of_ascii c in
  String "%" (String (hex_digit (n / 16)) (String (hex_digit (n mod 16)) "")).

Fixpoint quote (s : string) : string :=
  match s with
  | EmptyString => EmptyString
  | String c r =>
      if always_safe c then String c (quote r) else percent_encode c ++ quote r
  end.

(** ** Git objects *)

Inductive item_type := Blob | Tree.

(** One item of [tree.traverse()]: blobs and trees alike have a path and an
    object whose raw bytes [data_stream.read()] returns. *)
Record tree_item := TreeItem {
  path : string;
  type : item_type;
  data : bytes
}.

(** A commit with what the script reads of it; [tree] is the listing that
    traversing the commit's tree yields, in traversal order. *)
Record commit := Commit {
  hexsha : string;
  committed_date : Z;          (* seconds since the epoch *)
  committer_tz_offset : Z;     (* seconds west of UTC *)
  message : string;
  parents : list string;
  tree : list tree_item
}.

Global Instance item_type_eq_dec : EqDecision item_type.
Proof. solve_decision. Defined.
Global Instance tree_item_eq_dec : EqDecision tree_item.
Proof. solve_decision. Defined.
Global Instance commit_eq_dec : EqDecision commit.
Proof. solve_decision. Defined.

(** [commit.committed_datetime.date()]: the calendar day of the commit time
    in the committer's own time zone. *)
Definition committed_day (c : commit) : Z :=
  day_of (committed_date c) (- committer_tz_offset c).

Inductive head_ref :=
  | OnBranch (name : string)
  | Detached (c : commit).

(** ** The file system *)

Inductive node :=
  | File (content : bytes)
  | Dir.

Global Instance node_eq_dec : EqDecision node.
Proof. solve_decision. Defined.

Abbreviation filesystem := (gmap loc node).

(** The root directory always exists. *)
Definition stat (fs : filesystem) (l : loc) : option node :=
  match l with [] => Some Dir | _ => fs !! l end.

(** Every entry lies in a directory. *)
Definition fs_ok (fs : filesystem) : Prop :=
  map_Forall (λ l _, stat fs (removelast l) = Some Dir) fs.

Global Instance fs_ok_dec fs : Decision (fs_ok fs).
Proof. unfold fs_ok. apply _. Defined.

(** ** Exceptions, command-line arguments, observable events *)

Inductive exn :=
  | TypeError
  | ValueError
  | OverflowError
  | AttributeError
  | FileNotFoundError
  | FileExistsError
  | IsADirectoryError
  | NotADirectoryError
  | GitCommandError
  | InvalidGitRepositoryError.

Global Instance exn_eq_dec : EqDecision exn.
Proof. solve_decision. Defined.

(** [vars(args)] of [get_args]; [None] is Python's [None]. *)
Record args := Args {
  github_repo_slug : option string;
  upstream_repo_url : option string;
  working_repo_dir : string;
  branch : option string;
  github_token : option string;
  config_path : option string;
  commit_delay : Z;
  replay_days : Z
}.

(** [folders_from_main]: a [dict], kept as its items in insertion order. *)
Abbreviation overlay := (list (string * bytes)).

(** The calls whose order the properties speak about, logged as they
    happen.  [EvCapture] marks the point where [folders_from_main] has been
    filled from the tree of [main]. *)
Inductive event :=
  | EvPrint (s : string)
  | EvCreateRemote (name url : string)
  | EvFetch (refspec : string)
  | EvCheckout (name start : string)
  | EvConfig (key value : string)
  | EvCapture (m : overlay)
  | EvReset (sha : string)
  | EvAdd
  | EvCommit (msg : string)
  | EvSetUrl (url : string)
  | EvPush (name : string)
  | EvSleep (seconds : Z).

(** ** The state of the world *)

Record world := World {
  (* the operating system *)
  fs : filesystem;
  cwd : loc;
  env : gmap string string;
  clock : nat → Z;               (* successive readings of the system clock *)
  ticks : nat;                   (* readings taken so far *)
  utcoffset : Z;                 (* local time zone, seconds east of UTC *)
  (* the fork's repository *)
  root : loc;                    (* its working tree *)
  heads : gmap string commit;
  HEAD : head_ref;
  index : gmap loc bytes;        (* tracked paths below [root] *)
  origin_url : string;
  upstream_url : option string;
  user_name : string;
  user_email : string;
  object_ids : nat → string;     (* the ids git gives to new commits *)
  objects_made : nat;
  (* the remotes *)
  origin_heads : gmap string commit;
  origin_accepts : string → bool;    (* does a push through this URL succeed *)
  upstream_main : list commit;   (* upstream's main, newest first as walked *)
  upstream_reachable : bool;
  (* git's ignore rules: whether a path below [root] is ignored, with these
     files in place (the .gitignore files of the working tree, info/exclude
     and the user's excludes file) *)
  ignored : filesystem → loc → bool;
  (* the log *)
  trace : list event
}.

Definition set_fs (f : filesystem) (w : world) : world :=
  World f (cwd w) (env w) (clock w) (ticks w) (utcoffset w) (root w) (heads w)
        (HEAD w) (index w) (origin_url w) (upstream_url w) (user_name w)
        (user_email w) (object_ids w) (objects_made w) (origin_heads w)
        (origin_accepts w) (upstream_main w) (upstream_reachable w) (ignored w)
        (trace w).

Definition set_ticks (n : nat) (w : world) : world :=
  World (fs w) (cwd w) (env w) (clock w) n (utcoffset w) (root w) (heads w)
        (HEAD w) (index w) (origin_url w) (upstream_url w) (user_name w)
        (user_email w) (object_ids w) (objects_made w) (origin_heads w)
        (origin_accepts w) (upstream_main w) (upstream_reachable w) (ignored w)
        (trace w).

Definition set_heads (h : gmap string commit) (w : world) : world :=
  World (fs w) (cwd w) (env w) (clock w) (ticks w) (utcoffset w) (root w) h
        (HEAD w) (index w) (origin_url w) (upstream_url w) (user_name w)
        (user_email w) (object_ids w) (objects_made w) (origin_heads w)
        (origin_accepts w) (upstream_main w) (upstream_reachable w) (ignored w)
        (trace w).

Definition set_HEAD (h : head_ref) (w : world) : world :=
  World (fs w) (cwd w) (env w) (clock w) (ticks w) (utcoffset w) (root w)
        (heads w) h (index w) (origin_url w) (upstream_url w) (user_name w)
        (user_email w) (object_ids w) (objects_made w) (origin_heads w)
        (origin_accepts w) (upstream_main w) (upstream_reachable w) (ignored w)
        (trace w).

Definition set_index (i : gmap loc bytes) (w : world) : world :=
  World (fs w) (cwd w) (env w) (clock w) (ticks w) (utcoffset w) (root w)
        (heads w) (HEAD w) i (origin_url w) (upstream_url w) (user_name w)
        (user_email w) (object_ids w) (objects_made w) (origin_heads w)
        (origin_accepts w) (upstream_main w) (upstream_reachable w) (ignored w)
        (trace w).

Definition set_origin_url (u : string) (w : world) : world :=
  World (fs w) (cwd w) (env w) (clock w) (ticks w) (utcoffset w) (root w)
        (heads w) (HEAD w) (index w) u (upstream_url w) (user_name w)
        (user_email w) (object_ids w) (objects_made w) (origin_heads w)
        (origin_accepts w) (upstream_main w) (upstream_reachable w) (ignored w)
        (trace w).

Definition set_upstream_url (u : option string) (w : world) : world :=
  World (fs w) (cwd w) (env w) (clock w) (ticks w) (utcoffset w) (root w)
        (heads w) (HEAD w) (index w) (origin_url w) u (user_name w)
        (user_email w) (object_ids w) (objects_made w) (origin_heads w)
        (origin_accepts w) (upstream_main w) (upstream_reachable w) (ignored w)
        (trace w).

Definition set_user_name (s : string) (w : world) : world :=
  World (fs w) (cwd w) (env w) (clock w) (ticks w) (utcoffset w) (root w)
        (heads w) (HEAD w) (index w) (origin_url w) (upstream_url w) s
        (user_email w) (object_ids w) (objects_made w) (origin_heads w)
        (origin_accepts w) (upstream_main w) (upstream_reachable w) (ignored w)
        (trace w).

Definition set_user_email (s : string) (w : world) : world :=
  World (fs w) (cwd w) (env w) (clock w) (ticks w) (utcoffset w) (root w)
        (heads w) (HEAD w) (index w) (origin_url w) (upstream_url w)
        (user_name w) s (object_ids w) (objects_made w) (origin_heads w)
        (origin_accepts w) (upstream_main w) (upstream_reachable w) (ignored w)
        (trace w).

Definition set_objects_made (n : nat) (w : world) : world :=
  World (fs w) (cwd w) (env w) (clock w) (ticks w) (utcoffset w) (root w)
        (heads w) (HEAD w) (index w) (origin_url w) (upstream_url w)
        (user_name w) (user_email w) (object_ids w) n (origin_heads w)
        (origin_accepts w) (upstream_main w) (upstream_reachable w) (ignored w)
        (trace w).

Definition set_origin_heads (h : gmap string commit) (w : world) : world :=
  World (fs w) (cwd w) (env w) (clock w) (ticks w) (utcoffset w) (root w)
        (heads w) (HEAD w) (index w) (origin_url w) (upstream_url w)
        (user_name w) (user_email w) (object_ids w) (objects_made w) h
        (origin_accepts w) (upstream_main w) (upstream_reachable w) (ignored w)
        (trace w).

Definition set_trace (t : list event) (w : world) : world :=
  World (fs w) (cwd w) (env w) (clock w) (ticks w) (utcoffset w) (root w)
        (heads w) (HEAD w) (index w) (origin_url w) (upstream_url w)
        (user_name w) (user_email w) (object_ids w) (objects_made w)
        (origin_heads w) (origin_accepts w) (upstream_main w)
        (upstream_reachable w) (ignored w) t.

(** ** The monad of the script: state, and exceptions that keep the state *)

Inductive result (A : Type) :=
  | Ok (a : A)
  | Raise (e : exn).
Arguments Ok {A} a.
Arguments Raise {A} e.

Definition io (A : Type) : Type := world → result A * world.

Definition ret {A} (a : A) : io A := λ w, (Ok a, w).

Definition bind {A B} (m : io A) (k : A → io B) : io B :=
  λ w, match m w with
       | (Ok a, w') => k a w'
       | (Raise e, w') => (Raise e, w')
       end.

Definition raise {A} (e : exn) : io A := λ w, (Raise e, w).

Definition get {A} (f : world → A) : io A := λ w, (Ok (f w), w).

Definition modify (f : world → world) : io unit := λ w, (Ok tt, f w).

(** [try: m except E: handler] for the exceptions [E] that [catches] picks. *)
Definition try_except {A} (m : io A) (catches : exn → bool) (handler : io A)
  : io A :=
  λ w, match m w with
       | (Raise e, w') => if catches e then handler w' else (Raise e, w')
       | r => r
       end.

Notation "'let*' x ':=' m 'in' k" := (bind m (λ x, k))
  (at level 10, x name, m at level 100, k at level 200,
   format "'[v' 'let*'  x  :=  m  'in'  '/' k ']'").
Notation "'do' m 'in' k" := (bind m (λ _, k))
  (at level 10, m at level 100, k at level 200,
   format "'[v' 'do'  m  'in'  '/' k ']'").

(** [for x in xs: body x] *)
Fixpoint for_each {A} (xs : list A) (body : A → io unit) : io unit :=
  match xs with
  | [] => ret tt
  | x :: rest => do body x in for_each rest body
  end.

Definition log (e : event) : io unit :=
  modify (λ w, set_trace (trace w ++ [e]) w).

Definition print (s : string) : io unit := log (EvPrint s).

Definition newline : string := String (ascii_of_nat 10) "".

(** [f"{x}"] of a value that may be [None]. *)
Definition fmt (o : option string) : string := default "None" o.

(** Truthiness of [str | None]. *)
Definition truthy (o : option string) : bool :=
  match o with Some s => negb (is_empty s) | None => false end.

(** ** Operating-system calls (os, os.path, shutil, time) *)

(** A path whose last component is empty, [.] or [..] can only name a
    directory. *)
Definition wants_dir (p : string) : bool :=
  let c := List.last (split_slash p) "" in
  bool_decide (c = "") || bool_decide (c = ".") || bool_decide (c = "..").

(** What [os.stat(p)] finds for a process in directory [d]; [None] when it
    fails. *)
Definition lookup_path (f : filesystem) (d : loc) (p : string) : option node :=
  if is_empty p then None
  else match stat f (resolve d p) with
       | Some (File c) => if wants_dir p then None else Some (File c)
       | r => r
       end.

Definition os_path_exists (p : string) : io bool :=
  get (λ w, bool_decide (is_Some (lookup_path (fs w) (cwd w) p))).

Definition os_path_isfile (p : string) : io bool :=
  get (λ w, match lookup_path (fs w) (cwd w) p with
            | Some (File _) => true
            | _ => false
            end).

Definition os_path_isdir (p : string) : io bool :=
  get (λ w, match lookup_path (fs w) (cwd w) p with
            | Some Dir => true
            | _ => false
            end).

(** [os.remove(p)]: unlinks a file, refuses a directory. *)
Definition os_remove (p : string) : io unit :=
  λ w, match lookup_path (fs w) (cwd w) p with
       | Some (File _) => (Ok tt, set_fs (delete (resolve (cwd w) p) (fs w)) w)
       | Some Dir => (Raise IsADirectoryError, w)
       | None =>
           match stat (fs w) (resolve (cwd w) p) with
           | Some (File _) => (Raise NotADirectoryError, w)
           | _ => (Raise FileNotFoundError, w)
           end
       end.

(** [os.mkdir] at a location. *)
Definition mkdir_at (l : loc) (f : filesystem) : result unit * filesystem :=
  match stat f l with
  | Some _ => (Raise FileExistsError, f)
  | None =>
      match stat f (removelast l) with
      | Some Dir => (Ok tt, <[l := Dir]> f)
      | Some (File _) => (Raise NotADirectoryError, f)
      | None => (Raise FileNotFoundError, f)
      end
  end.

(** [os.makedirs] at a location given by its components in reverse: create
    the missing parent first, passing over a [FileExistsError] from it,
    then [mkdir] the leaf; with [exist_ok] an error of [mkdir] is dropped
    when the leaf is a directory. *)
Fixpoint makedirs_rev (rl : list string) (exist_ok : bool) (f : filesystem)
  : result unit * filesystem :=
  match rl with
  | [] => if exist_ok then (Ok tt, f) else (Raise FileExistsError, f)
  | _ :: rparent =>
      let l := rev rl in
      let '(r, f1) :=
        match stat f (rev rparent) with
        | None => makedirs_rev rparent exist_ok f
        | Some _ => (Ok tt, f)
        end in
      let go :=
        match mkdir_at l f1 with
        | (Raise e, f2) =>
            match stat f2 l with
            | Some Dir => if exist_ok then (Ok tt, f2) else (Raise e, f2)
            | _ => (Raise e, f2)
            end
        | ok => ok
        end in
      match r with
      | Ok _ => go
      | Raise e => if bool_decide (e = FileExistsError) then go
                   else (Raise e, f1)
      end
  end.

Definition os_makedirs (p : string) (exist_ok : bool) : io unit :=
  λ w, if is_empty p then (Raise FileNotFoundError, w)
       else let '(r, f) := makedirs_rev (rev (resolve (cwd w) p)) exist_ok (fs w)
            in (r, set_fs f w).

(** [with open(p, 'wb') as file: file.write(data)] *)
Definition write_file (p : string) (d : bytes) : io unit :=
  λ w, if is_empty p then (Raise FileNotFoundError, w) else
       let l := resolve (cwd w) p in
       match stat (fs w) l with
       | Some Dir => (Raise IsADirectoryError, w)
       | Some (File _) =>
           if wants_dir p then (Raise NotADirectoryError, w)
           else (Ok tt, set_fs (<[l := File d]> (fs w)) w)
       | None =>
           if wants_dir p then (Raise IsADirectoryError, w) else
           match stat (fs w) (removelast l) with
           | Some Dir => (Ok tt, set_fs (<[l := File d]> (fs w)) w)
           | Some (File _) => (Raise NotADirectoryError, w)
           | None => (Raise FileNotFoundError, w)
           end
       end.

(** The entries outside the subtree at [l]. *)
Definition without_subtree (l : loc) (f : filesystem) : filesystem :=
  filter (λ kv, ¬ l `prefix_of` kv.1) f.

(** The entries strictly below [l]. *)
Definition below (l : loc) (f : filesystem) : filesystem :=
  filter (λ kv, l `prefix_of` kv.1 ∧ kv.1 ≠ l) f.

(** [shutil.rmtree(p)] *)
Definition shutil_rmtree (p : string) : io unit :=
  λ w, match lookup_path (fs w) (cwd w) p with
       | Some Dir =>
           (Ok tt, set_fs (without_subtree (resolve (cwd w) p) (fs w)) w)
       | Some (File _) => (Raise NotADirectoryError, w)
       | None => (Raise FileNotFoundError, w)
       end.

(** The entries below [src] moved below [dst]. *)
Definition transplant (src dst : loc) (f : filesystem) : filesystem :=
  list_to_map
    ((λ kv : loc * node, ((dst ++ drop (length src) kv.1)%list, kv.2))
       <$> map_to_list (below src f)).

(** [shutil.copytree(src, dst)]: the source is listed, the destination is
    created (it must not exist), then everything is copied. *)
Definition shutil_copytree (src dst : string) : io unit :=
  λ w, match lookup_path (fs w) (cwd w) src with
       | Some Dir =>
           let ls := resolve (cwd w) src in
           let ld := resolve (cwd w) dst in
           if is_empty dst then (Raise FileNotFoundError, w) else
           match makedirs_rev (rev ld) false (fs w) with
           | (Ok _, f1) => (Ok tt, set_fs (transplant ls ld (fs w) ∪ f1) w)
           | (Raise e, f1) => (Raise e, set_fs f1 w)
           end
       | Some (File _) => (Raise NotADirectoryError, w)
       | None => (Raise FileNotFoundError, w)
       end.

(** [time.sleep]: a negative length is refused. *)
Definition time_sleep (seconds : Z) : io unit :=
  if seconds <? 0 then raise ValueError else log (EvSleep seconds).

(** One reading of the system clock. *)
Definition read_clock : io Z :=
  λ w, (Ok (clock w (ticks w)), set_ticks (S (ticks w)) w).

(** [os.getenv] / [os.environ.get] *)
Definition os_getenv (name : string) : io (option string) :=
  get (λ w, env w !! name).

(** ** Git commands

    The commands act on the repository whose working tree is [root]; the
    working tree is assumed clean whenever git rewrites it, which is how the
    script leaves it after each commit. *)

(** Path of a tree item as components below the working tree. *)
Definition item_key (i : tree_item) : loc := resolve [] (path i).

Definition blobs (t : list tree_item) : list (loc * bytes) :=
  omap (λ i, match type i with
             | Blob => Some (item_key i, data i)
             | Tree => None
             end) t.

Definition has_entries_below (f : filesystem) (d : loc) : bool :=
  negb (bool_decide (below d f = ∅)).

(** After a tracked file below [base] went away, git removes the
    directories this leaves empty; [rel_rev] is the file's path below
    [base], reversed. *)
Fixpoint prune_empty (base : loc) (rel_rev : list string) (f : filesystem)
  : filesystem :=
  match rel_rev with
  | [] => f
  | _ :: up =>
      match up with
      | [] => f
      | _ =>
          let d := (base ++ rev up)%list in
          if has_entries_below f d then f else prune_empty base up (delete d f)
      end
  end.

Definition remove_tracked (base : loc) (f : filesystem) (k : loc)
  : filesystem :=
  match f !! (base ++ k)%list with
  | Some (File _) => prune_empty base (rev k) (delete (base ++ k)%list f)
  | _ => f
  end.

(** Directories for every component of [rel] but the last, below [base];
    a file in the way is replaced. *)
Fixpoint clear_way (base : loc) (rel : list string) (f : filesystem)
  : filesystem :=
  match rel with
  | [] => f
  | c :: rest =>
      match rest with
      | [] => f
      | _ =>
          let d := (base ++ [c])%list in
          clear_way d rest
            (match stat f d with Some Dir => f | _ => <[d := Dir]> f end)
      end
  end.

Definition place_file (base : loc) (f : filesystem) (kd : loc * bytes)
  : filesystem :=
  let l := (base ++ kd.1)%list in
  let f1 := clear_way base kd.1 f in
  let f2 := match stat f1 l with
            | Some Dir => without_subtree l f1
            | _ => f1
            end in
  <[l := File kd.2]> f2.

(** The working tree and the index are made to hold exactly the files of
    tree [t]: tracked files go away, the files of [t] are written, and what
    was in their way is removed. *)
Definition switch_worktree (t : list tree_item) : io unit :=
  modify (λ w,
    let f1 := foldl (remove_tracked (root w)) (fs w)
                    ((map_to_list (index w)).*1) in
    let f2 := foldl (place_file (root w)) f1 (blobs t) in
    set_index (list_to_map (blobs t)) (set_fs f2 w)).

Definition head_commit (w : world) : option commit :=
  match HEAD w with
  | OnBranch n => heads w !! n
  | Detached c => Some c
  end.

(** Moves what [HEAD] stands for to commit [c]. *)
Definition move_head (c : commit) (w : world) : world :=
  match HEAD w with
  | OnBranch n => set_heads (<[n := c]> (heads w)) w
  | Detached _ => set_HEAD (Detached c) w
  end.

(** [branch in repo.heads] *)
Definition in_heads (name : string) : io bool :=
  get (λ w, bool_decide (is_Some (heads w !! name))).

(** [repo.git.checkout('-B', name, start)]: create or reset branch [name]
    at [start] and switch to it. *)
Definition git_checkout_B (name start : string) : io unit :=
  let* target := get (λ w, heads w !! start) in
  match target with
  | None => raise GitCommandError
  | Some c =>
      do log (EvCheckout name start) in
      do switch_worktree (tree c) in
      modify (λ w, set_HEAD (OnBranch name) (set_heads (<[name := c]> (heads w)) w))
  end.

(** [Git(dir).config(key, value)] *)
Definition git_config (dir key value : string) : io unit :=
  let* inside := get (λ w, bool_decide (root w `prefix_of` resolve (cwd w) dir)) in
  if inside : bool then
    do log (EvConfig key value) in
    if bool_decide (key = "user.email") then modify (set_user_email value)
    else if bool_decide (key = "user.name") then modify (set_user_name value)
    else ret tt
  else raise GitCommandError.

(** [repo.heads.main.commit.tree] *)
Definition main_tree_of_repo : io (list tree_item) :=
  let* m := get (λ w, heads w !! "main") in
  match m with
  | Some c => ret (tree c)
  | None => raise AttributeError
  end.

(** [repo.head.reset(commit=c, index=True, working_tree=True)] *)
Definition git_reset_hard (c : commit) : io unit :=
  do log (EvReset (hexsha c)) in
  do switch_worktree (tree c) in
  modify (move_head c).

(** The files below [base], keyed by their path below it. *)
Definition files_below (base : loc) (f : filesystem) : gmap loc bytes :=
  list_to_map
    (omap (λ kv : loc * node,
             match kv.2 with
             | File d => Some (drop (length base) kv.1, d)
             | Dir => None
             end)
          (map_to_list (below base f))).

(** What [git add .] stages at the top of the working tree: the files there
    that are tracked already or that git does not ignore.  Tracked paths
    without a file leave the index. *)
Definition staged (w : world) : gmap loc bytes :=
  filter (λ kd, is_Some (index w !! kd.1) ∨ ignored w (fs w) kd.1 = false)
         (files_below (root w) (fs w)).

(** [repo.git.add('.')] *)
Definition git_add_all : io unit :=
  do log EvAdd in
  modify (λ w, set_index (staged w) w).

(** The proper, non-empty prefixes of a path, shortest first. *)
Fixpoint proper_prefixes (k : loc) : list loc :=
  match k with
  | [] => []
  | c :: rest =>
      match rest with
      | [] => []
      | _ => [c] :: ((λ p, c :: p) <$> proper_prefixes rest)
      end
  end.

(** The listing of the tree written from an index: every directory before
    its entries.  Object ids are not modelled, so a tree object's raw bytes
    are left empty here. *)
Definition listing_of_index (i : gmap loc bytes) : list tree_item :=
  let entries := map_to_list i in
  let dirs := remove_dups (concat (proper_prefixes <$> entries.*1)) in
  ((λ d, TreeItem (join_components d) Tree []) <$> dirs)
  ++ ((λ kd : loc * bytes, TreeItem (join_components kd.1) Blob kd.2) <$> entries).

(** [repo.index.commit(msg)]: a new commit of the index on top of [HEAD]. *)
Definition index_commit (msg : string) : io unit :=
  do log (EvCommit msg) in
  let* now := read_clock in
  modify (λ w,
    let c := Commit (object_ids w (objects_made w)) now (- utcoffset w) msg
                    (match head_commit w with
                     | Some p => [hexsha p]
                     | None => []
                     end)
                    (listing_of_index (index w)) in
    set_objects_made (S (objects_made w)) (move_head c w)).

(** [repo.remotes.origin.set_url(u)] *)
Definition set_url (u : string) : io unit :=
  do log (EvSetUrl u) in
  modify (set_origin_url u).

(** [repo.git.push("--force", "origin", name)] *)
Definition git_push_force (name : string) : io unit :=
  do log (EvPush name) in
  let* w := get id in
  if origin_accepts w (origin_url w) then
    match heads w !! name with
    | Some c => modify (set_origin_heads (<[name := c]> (origin_heads w)))
    | None => raise GitCommandError
    end
  else raise GitCommandError.

(** [repo.create_remote('upstream', url=u)] *)
Definition create_remote_upstream (u : option string) : io unit :=
  let* present := get upstream_url in
  match present with
  | Some _ => raise GitCommandError
  | None =>
      do log (EvCreateRemote "upstream" (fmt u)) in
      modify (set_upstream_url (Some (fmt u)))
  end.

(** [repo.remotes.upstream.fetch("main")] *)
Definition fetch_upstream_main : io unit :=
  do log (EvFetch "main") in
  let* up := get upstream_reachable in
  if up : bool then ret tt else raise GitCommandError.

(** [Repo(dir)] *)
Definition open_repo (dir : string) : io unit :=
  let* here := get (λ w, bool_decide (resolve (cwd w) dir = root w)) in
  if here : bool then ret tt else raise InvalidGitRepositoryError.

(** ** The script *)

(** *** [get_args]

    The options as given on the command line; an option that was not given
    is [None].  The logging options are left out. *)
Record command_line := CommandLine {
  opt_github_repo_slug : option string;
  opt_upstream_repo_url : option string;
  opt_working_repo_dir : option string;
  opt_branch : option string;
  opt_github_token : option string;
  opt_config_path : option string;
  opt_commit_delay : option Z;
  opt_replay_days : option Z
}.

Definition get_args (cl : command_line) : io args :=
  let* token_default := os_getenv "GITHUB_TOKEN" in
  ret (Args (opt_github_repo_slug cl)
            (opt_upstream_repo_url cl)
            (default "./" (opt_working_repo_dir cl))
            (opt_branch cl)
            (match opt_github_token cl with
             | Some t => Some t
             | None => token_default
             end)
            (opt_config_path cl)
            (default 10 (opt_commit_delay cl))
            (default 1 (opt_replay_days cl))).

(** *** [export_blob] *)

Definition export_blob (data : bytes) (dst_path : string) : io unit :=
  let directory := dirname dst_path in
  let* present := os_path_exists dst_path in
  do (if present : bool then
        let* plain := os_path_isfile dst_path in
        if plain : bool then
          (* Remove file if it has the same name *)
          os_remove dst_path
        else
          print ("A directory with the name " ++ dst_path ++ " already exists.")
      else
        try_except (os_makedirs directory true)
                   (λ e, bool_decide (e = FileExistsError))
                   (* Remove directory if it has the same name *)
                   (do os_remove directory in
                    os_makedirs directory true)) in
  let* isdir := os_path_isdir dst_path in
  if negb isdir then write_file dst_path data else ret tt.

(** *** [replay_commits]: choosing the commits *)

(** [(datetime.now(timezone.utc) - timedelta(days=days)).date()] *)
Definition cutoff_day (days : Z) : io Z :=
  let* now := read_clock in
  if max_delta_days <? Z.abs days then raise OverflowError
  else
    let d := day_of now 0 - days in
    if day_in_range d then ret d else raise OverflowError.

(** The loop over [repo.iter_commits("upstream/main")]; [commits] is the
    list built so far. *)
Fixpoint collect_commits (days : Z) (walk : list commit)
    (commits : list commit) : io (list commit) :=
  match walk with
  | [] => ret commits
  | commit :: rest =>
      let* cutoff := cutoff_day days in
      if committed_day commit <? cutoff then ret commits   (* break *)
      else collect_commits days rest (commits ++ [commit])
  end.

(** [commits = []], the loop, [commits.reverse()]. *)
Definition select_commits (days : Z) (walk : list commit)
  : io (list commit) :=
  let* commits := collect_commits days walk [] in
  ret (rev commits).

(** *** [push_commits_one_by_one] *)

(** [d[k] = v] on a [dict]: a present key keeps its place. *)
Fixpoint dict_set (m : overlay) (k : string) (v : bytes) : overlay :=
  match m with
  | [] => [(k, v)]
  | (k', v') :: rest =>
      if bool_decide (k' = k) then (k, v) :: rest
      else (k', v') :: dict_set rest k v
  end.

(** The loop over [main_tree.traverse()] for one [folder]. *)
Fixpoint capture_folder (folder : option string) (items : list tree_item)
    (m : overlay) : result overlay :=
  match items with
  | [] => Ok m
  | item :: rest =>
      match folder with
      | None => Raise TypeError        (* startswith(None) *)
      | Some prefix =>
          if String.prefix prefix (path item)
          then capture_folder folder rest (dict_set m (path item) (data item))
          else capture_folder folder rest m
      end
  end.

Definition capture_overlay (folder : option string) : io overlay :=
  let* main_tree := main_tree_of_repo in
  match capture_folder folder main_tree [] with
  | Ok m => do log (EvCapture m) in ret m
  | Raise e => raise e
  end.

Definition branch_name (a : args) (c : commit) : io string :=
  if truthy (branch a) then ret (fmt (branch a) ++ "-" ++ hexsha c)
  else
    let* now := read_clock in
    let* east := get utcoffset in
    let current_date := isoformat (day_of now east) in
    ret ("replay-" ++ current_date ++ "-" ++ hexsha c).

(** The body of the loop over [folders_from_main.items()], for the item
    [(path, data)]. *)
Definition restore_entry (item : string * bytes) : io unit :=
  let path := item.1 in
  let data := item.2 in
  let* present := os_path_exists path in
  do (if present : bool then os_remove path else ret tt) in
  export_blob data path.

Definition restore_overlay (folders_from_main : overlay) : io unit :=
  for_each folders_from_main restore_entry.

(** The loop over [[".circleci"]]. *)
Definition restore_ci_folder (a : args) (folder : string) : io unit :=
  match config_path a with
  | None => raise TypeError            (* os.path.join(..., None, ...) *)
  | Some cfg =>
      let source_dir := path_join3 (working_repo_dir a) cfg folder in
      let destination_dir := path_join (working_repo_dir a) folder in
      let* have_source := os_path_isdir source_dir in
      if have_source : bool then
        let* have_destination := os_path_isdir destination_dir in
        do (if have_destination : bool then shutil_rmtree destination_dir
            else ret tt) in
        shutil_copytree source_dir destination_dir
      else ret tt
  end.

Definition token_url (token : string) (github_repo : option string) : string :=
  "https://" ++ quote token ++ ":x-oauth-basic@github.com/" ++ fmt github_repo.

(** The push with the URL of [origin] rewritten around it. *)
Definition push_branch (a : args) (c : commit) (name : string) : io unit :=
  let* url := get origin_url in
  let* token := os_getenv "GITHUB_TOKEN" in
  let github_repo := github_repo_slug a in
  do (match token with
      | Some t => set_url (token_url t github_repo)
      | None => raise TypeError        (* quote(None) *)
      end) in
  do print ("Pushing commit " ++ hexsha c ++ " to branch " ++ name) in
  do git_push_force name in
  set_url url.

(** One pass of the loop body: the replay of one commit.  It yields the
    name of the branch. *)
Definition replay_cycle (a : args) (c : commit) : io string :=
  let* name := branch_name a c in
  let* known := in_heads name in
  do (if negb known then git_checkout_B name "main" else ret tt) in
  (* configure local repo settings *)
  do git_config (working_repo_dir a) "user.email" "" in
  do git_config (working_repo_dir a) "user.name" "replay-bot" in
  let* folders_from_main := capture_overlay (config_path a) in
  do git_reset_hard c in
  do restore_overlay folders_from_main in
  do for_each [".circleci"] (restore_ci_folder a) in
  do git_add_all in
  do index_commit ("Committing " ++ hexsha c) in
  do push_branch a c name in
  do time_sleep (commit_delay a) in
  ret name.

Fixpoint push_loop (a : args) (commits : list commit) (branches : list string)
  : io (list string) :=
  match commits with
  | [] => ret branches
  | c :: rest =>
      let* name := replay_cycle a c in
      push_loop a rest (branches ++ [name])
  end.

Definition push_commits_one_by_one (a : args) (commits : list commit)
  : io (list string) :=
  push_loop a commits [].

Definition replay_commits (a : args) : io (list string) :=
  do open_repo (working_repo_dir a) in
  do try_except (create_remote_upstream (upstream_repo_url a))
                (λ _, true)
                (* the text of the exception is not part of the model *)
                (print "Upstream remote already exists") in
  do fetch_upstream_main in
  let* walk := get upstream_main in
  let* commits := select_commits (replay_days a) walk in
  do print ("The following commits will be processed:" ++ newline) in
  do print (String.concat newline (hexsha <$> commits)) in
  push_commits_one_by_one a commits.

(** [run]; what goes to the logger is left out. *)
Definition run (parsed_args : args) : io (list string) :=
  replay_commits parsed_args.

(** [main], without the logging set-up; it is given the command line. *)
Definition main (cl : command_line) : io (list string) :=
  let* parsed_args := get_args cl in
  run parsed_args.

(** ** Vocabulary of the properties *)

(** Every reading of the clock from now on falls on UTC day [today]. *)
Definition clock_on_day (today : Z) (w : world) : Prop :=
  ∀ k, (ticks w ≤ k)%nat → day_of (clock w k) 0 = today.

(** The cut-off day exists as a [date] and the window as a [timedelta]. *)
Definition cutoff_representable (today days : Z) : Prop :=
  Z.abs days ≤ max_delta_days ∧ day_in_range (today - days) = true.

(** Commit times never decrease along the list. *)
Definition oldest_first (cs : list commit) : Prop :=
  ∀ i j x y, (i < j)%nat → cs !! i = Some x → cs !! j = Some y →
             committed_date x ≤ committed_date y.

(** Commit times never increase along the list. *)
Definition newest_first (cs : list commit) : Prop :=
  ∀ i j x y, (i < j)%nat → cs !! i = Some x → cs !! j = Some y →
             committed_date y ≤ committed_date x.

(** The commits of a walk up to the first one older than [cutoff]. *)
Fixpoint window_prefix (cutoff : Z) (walk : list commit) : list commit :=
  match walk with
  | [] => []
  | c :: rest =>
      if committed_day c <? cutoff then [] else c :: window_prefix cutoff rest
  end.

(** The steps of a run that matter for when the overlay is captured. *)
Inductive phase := PCheckout | PCapture | PReset.

Global Instance phase_eq_dec : EqDecision phase.
Proof. solve_decision. Defined.

Definition phase_of (e : event) : option phase :=
  match e with
  | EvCheckout _ _ => Some PCheckout
  | EvCapture _ => Some PCapture
  | EvReset _ => Some PReset
  | _ => None
  end.

Definition phases (t : list event) : list phase := omap phase_of t.

(** One capture, ahead of every checkout and reset of the run. *)
Definition captured_once_up_front (ps : list phase) : Prop :=
  ∃ rest, ps = PCapture :: rest ∧ PCapture ∉ rest.

(** The same steps with what they act on: the branch checked out and its
    start point, the overlay captured, the commit reset to. *)
Inductive overlay_step :=
  | DidCheckout (name start : string)
  | DidCapture (m : overlay)
  | DidReset (sha : string).

Definition overlay_step_of (e : event) : option overlay_step :=
  match e with
  | EvCheckout name start => Some (DidCheckout name start)
  | EvCapture m => Some (DidCapture m)
  | EvReset sha => Some (DidReset sha)
  | _ => None
  end.

Definition overlay_steps (t : list event) : list overlay_step :=
  omap overlay_step_of t.

(** The overlay steps of the cycle for commit [c] on branch [name] that
    starts in world [w] and captures [m]: a checkout from [main] when the
    branch is not a local head yet, then the capture, then the reset. *)
Definition cycle_steps (w : world) (c : commit) (name : string) (m : overlay)
  : list overlay_step :=
  ((if bool_decide (heads w !! name = None)
    then [DidCheckout name "main"] else [])
   ++ [DidCapture m; DidReset (hexsha c)])%list.

(** [cycles a w commits names steps w']: from world [w], the cycles for
    [commits] return one after the other, with the branch names [names],
    and end in world [w'].  Each cycle starts in the world the one before
    it ended in; [steps] lists the overlay steps of the cycles in turn,
    where the overlay of each cycle is what the capture yields for the tree
    of the commit that [main] is at when that cycle starts. *)
Inductive cycles (a : args)
  : world → list commit → list string → list overlay_step → world → Prop :=
  | cycles_done w : cycles a w [] [] [] w
  | cycles_more w c name w1 main m commits names steps w' :
      replay_cycle a c w = (Ok name, w1) →
      heads w !! "main" = Some main →
      capture_folder (config_path a) (tree main) [] = Ok m →
      cycles a w1 commits names steps w' →
      cycles a w (c :: commits) (name :: names)
             (cycle_steps w c name m ++ steps)%list w'.

(** Events that are no checkout, capture or reset. *)
Definition silent (e : event) : Prop := phase_of e = None.

(** Events that touch neither the URL of [origin] nor the remote. *)
Definition local_event (e : event) : Prop :=
  match e with
  | EvSetUrl _ | EvPush _ => False
  | _ => True
  end.

Definition not_checkout (e : event) : Prop :=
  match e with EvCheckout _ _ => False | _ => True end.

(** What a step did to the world, as a relation that every outcome of the
    step satisfies. *)
Definition steps {A} (R : world → world → Prop) (m : io A) : Prop :=
  ∀ w, R w (m w).2.

(** When step [m] starts in a world with [P] and returns [x], the world
    then has [Q x]. *)
Definition hoare {A} (P : world → Prop) (m : io A) (Q : A → world → Prop)
  : Prop :=
  ∀ w x w', P w → m w = (Ok x, w') → Q x w'.

(** The events a step logged. *)
Definition logged (w w' : world) (t : list event) : Prop :=
  trace w' = (trace w ++ t)%list.

(** A step leaves an observation of the world as it was. *)
Definition keeps {A} (f : world → A) (w w' : world) : Prop := f w' = f w.

(** A step only logs events with property [P]. *)
Definition appends (P : event → Prop) (w w' : world) : Prop :=
  ∃ t, logged w w' t ∧ Forall P t.

(** A step leaves the URL of [origin] and the environment alone and talks
    to no remote. *)
Definition local_only (w w' : world) : Prop :=
  keeps origin_url w w' ∧ keeps env w w' ∧ appends local_event w w'.

(** A step leaves [HEAD] and the local heads alone. *)
Definition same_refs (w w' : world) : Prop :=
  keeps HEAD w w' ∧ keeps heads w w'.

(** Since world [w0], the overlay steps [xs] have been logged. *)
Definition tracked (w0 : world) (xs : list overlay_step) (w : world) : Prop :=
  ∃ t, logged w0 w t ∧ overlay_steps t = xs.

(** The branch [HEAD] is on, if any. *)
Definition head_branch (w : world) : option string :=
  match HEAD w with
  | OnBranch n => Some n
  | Detached _ => None
  end.

(** While [HEAD] is on branch [name], it stays there and [main] stays where
    it is. *)
Definition works_on (name : string) (w w' : world) : Prop :=
  HEAD w = OnBranch name →
  HEAD w' = OnBranch name ∧ heads w' !! "main" = heads w !! "main".

(** For a process in directory [cw]: location [l] stays the regular file
    with content [d]. *)
Definition keeps_file (cw l : loc) (d : bytes) (w w' : world) : Prop :=
  cwd w = cw →
  cwd w' = cw ∧ (fs w !! l = Some (File d) → fs w' !! l = Some (File d)).

(** For a process in directory [cw]: nothing appears at location [l]. *)
Definition keeps_absent (cw l : loc) (w w' : world) : Prop :=
  cwd w = cw → cwd w' = cw ∧ (fs w !! l = None → fs w' !! l = None).

(** A relative path in normal form, as git stores paths: every component is
    a valid name. *)
Definition plain_path (p : string) : bool :=
  forallb valid_name (split_slash p).

(** The cycle for commit [c] up to the end of the overlay loop, before the
    CI step. *)
Definition cycle_to_overlay (a : args) (c : commit) : io string :=
  let* name := branch_name a c in
  let* known := in_heads name in
  do (if negb known then git_checkout_B name "main" else ret tt) in
  do git_config (working_repo_dir a) "user.email" "" in
  do git_config (working_repo_dir a) "user.name" "replay-bot" in
  let* folders_from_main := capture_overlay (config_path a) in
  do git_reset_hard c in
  do restore_overlay folders_from_main in
  ret name.

(** Whether the CI step, started in world [w], finds the directory it
    copies from: [os.path.isdir(source_dir)] for the folder [.circleci]. *)
Definition ci_source_found (a : args) (w : world) : bool :=
  match config_path a with
  | Some cfg =>
      match lookup_path (fs w) (cwd w)
                        (path_join3 (working_repo_dir a) cfg ".circleci") with
      | Some Dir => true
      | _ => false
      end
  | None => false
  end.

(** The arguments with another value for [--github-token]. *)
Definition with_github_token (t : option string) (a : args) : args :=
  Args (github_repo_slug a) (upstream_repo_url a) (working_repo_dir a)
       (branch a) t (config_path a) (commit_delay a) (replay_days a).

(** ** A small fork and upstream, for the examples

    The fork's [main] keeps its CI definitions under [cfg/]; upstream has
    its own [.circleci/config.yml]. *)

Definition noon (day : Z) : Z := day * seconds_per_day + 43200.

Definition day_2026_11_03 : Z := 20760.

Definition main_commit : commit :=
  Commit "f0f0" (noon 20750) 0 "fork configuration" []
    [ TreeItem "README.md" Blob (b "fork");
      TreeItem "cfg" Tree (b "40000 .circleci");
      TreeItem "cfg/.circleci" Tree (b "100644 config.yml");
      TreeItem "cfg/.circleci/config.yml" Blob (b "A") ].

Definition upstream_tree (readme : string) : list tree_item :=
  [ TreeItem ".circleci" Tree (b "100644 config.yml");
    TreeItem "README.md" Blob (b readme);
    TreeItem ".circleci/config.yml" Blob (b "B") ].

(** Three upstream commits: three days ago, yesterday and today. *)
Definition commit_old : commit :=
  Commit "a1" (noon 20757) 0 "first" [] (upstream_tree "one").
Definition commit_yesterday : commit :=
  Commit "b2" (noon 20759) 0 "second" ["a1"] (upstream_tree "two").
Definition commit_today : commit :=
  Commit "c3" (noon 20760) 0 "third" ["b2"] (upstream_tree "three").

Definition fork_files : filesystem :=
  list_to_map
    [ (["fork"], Dir);
      (["fork"; "README.md"], File (b "fork"));
      (["fork"; "cfg"], Dir);
      (["fork"; "cfg"; ".circleci"], Dir);
      (["fork"; "cfg"; ".circleci"; "config.yml"], File (b "A")) ].

Definition fork_url : string := "https://github.com/me/fork.git".

(** The fork checked out at [main] in [/fork], the process started there
    at noon on 2026-11-03; [e] is the environment and [accepts] tells
    whether the remote takes a push. *)
Definition fork_world_with (e : gmap string string) (accepts : string → bool)
  : world :=
  World fork_files ["fork"] e
        (λ _, noon day_2026_11_03) 0 0
        ["fork"] {[ "main" := main_commit ]} (OnBranch "main")
        (list_to_map (blobs (tree main_commit)))
        fork_url None "" "" (λ n, "new" ++ pretty n) 0
        ∅ accepts [commit_today; commit_yesterday; commit_old] true
        (λ _ _, false) [].

(** With a token in the environment and a remote that takes the pushes. *)
Definition fork_world : world :=
  fork_world_with {[ "GITHUB_TOKEN" := "s3cr3t+/" ]} (λ _, true).

(** The same, with a remote that refuses the pushes. *)
Definition offline_world : world :=
  fork_world_with {[ "GITHUB_TOKEN" := "s3cr3t+/" ]} (λ _, false).

(** The same, without a token in the environment. *)
Definition tokenless_world : world := fork_world_with ∅ (λ _, true).

Definition fork_args : args :=
  Args (Some "me/fork") (Some "https://github.com/up/stream.git") "./"
       (Some "replay") (Some "s3cr3t+/") (Some "cfg/") 0 1.

(** A walk that meets yesterday's commit before today's, as happens when
    commit times do not follow the history (skewed committer clocks). *)
Definition skewed_walk : list commit := [commit_yesterday; commit_today].

(** A command line that gives the token with [--github-token] only. *)
Definition token_by_flag : command_line :=
  CommandLine (Some "me/fork") (Some "https://github.com/up/stream.git") None
              (Some "replay") (Some "s3cr3t+/") (Some "cfg/") (Some 0) None.

(** The fork as a first complete run leaves it. *)
Definition world_after_first_run : world :=
  (replay_commits fork_args fork_world).2.

(** What a cycle on the fork captures with [--config-path cfg/]: the
    directory [cfg/.circleci], which the traversal yields with the raw
    bytes of its tree object, and the file below it. *)
Definition fork_overlay : overlay :=
  [ ("cfg/.circleci", b "100644 config.yml");
    ("cfg/.circleci/config.yml", b "A") ].

(** A fork that keeps its CI definition in the top-level [.circleci] of
    [main], replayed with [--config-path .circleci/]. *)
Definition ci_main_commit : commit :=
  Commit "e0e0" (noon 20750) 0 "fork configuration" []
    [ TreeItem "README.md" Blob (b "fork");
      TreeItem ".circleci" Tree (b "100644 config.yml");
      TreeItem ".circleci/config.yml" Blob (b "A") ].

Definition ci_fork_files : filesystem :=
  list_to_map
    [ (["fork"], Dir);
      (["fork"; "README.md"], File (b "fork"));
      (["fork"; ".circleci"], Dir);
      (["fork"; ".circleci"; "config.yml"], File (b "A")) ].

Definition ci_fork_world : world :=
  World ci_fork_files ["fork"] {[ "GITHUB_TOKEN" := "s3cr3t+/" ]}
        (λ _, noon day_2026_11_03) 0 0
        ["fork"] {[ "main" := ci_main_commit ]} (OnBranch "main")
        (list_to_map (blobs (tree ci_main_commit)))
        fork_url None "" "" (λ n, "new" ++ pretty n) 0
        ∅ (λ _, true) [commit_today; commit_yesterday; commit_old] true
        (λ _ _, false) [].

Definition ci_fork_args : args :=
  Args (Some "me/fork") (Some "https://github.com/up/stream.git") "./"
       (Some "replay") (Some "s3cr3t+/") (Some ".circleci/") 0 1.
(** ** More vocabulary: the run as a whole *)

(** A step leaves every branch of [origin] in place (it may move it). *)
Definition origin_keeps_branches (w w' : world) : Prop :=
  ∀ n, is_Some (origin_heads w !! n) → is_Some (origin_heads w' !! n).

(** A step changes [origin] at branch [name] at most. *)
Definition origin_changes_only (name : string) (w w' : world) : Prop :=
  ∀ n, n ≠ name → origin_heads w' !! n = origin_heads w !! n.

(** A remote named [upstream] that is there stays as it is. *)
Definition upstream_kept (w w' : world) : Prop :=
  ∀ u, upstream_url w = Some u → upstream_url w' = Some u.

(** The commits and pushes of a run, in the order they happen. *)
Inductive milestone :=
  | Committed (msg : string)
  | Pushed (name : string).

Definition milestone_of (e : event) : option milestone :=
  match e with
  | EvCommit msg => Some (Committed msg)
  | EvPush name => Some (Pushed name)
  | _ => None
  end.

Definition milestones (t : list event) : list milestone := omap milestone_of t.

(** Since world [w0], the milestones [ms] have been logged. *)
Definition reached (w0 : world) (ms : list milestone) (w : world) : Prop :=
  ∃ t, logged w0 w t ∧ milestones t = ms.

(** The milestones of the cycle for commit [c] on branch [name]. *)
Definition cycle_milestones (c : commit) (name : string) : list milestone :=
  [Committed ("Committing " ++ hexsha c); Pushed name].

(** Events that are neither a commit nor a push. *)
Definition no_milestone (e : event) : Prop := milestone_of e = None.

(** The items of a tree listing that [startswith] keeps, as the entries of
    the overlay. *)
Definition items_under (cfg : string) (items : list tree_item) : overlay :=
  (λ i, (path i, data i)) <$> filter (λ i, String.prefix cfg (path i) = true) items.

(** The value of a hexadecimal digit. *)
Definition hex_value (c : ascii) : option N :=
  let n := N_of_ascii c in
  if in_range "0" "9" c then Some (n - 48)%N
  else if in_range "A" "F" c then Some (n - 55)%N
  else if in_range "a" "f" c then Some (n - 87)%N
  else None.

(** [urllib.parse.unquote_to_bytes]: every [%XX] with two hexadecimal
    digits stands for one byte, everything else for itself. *)
Fixpoint unquote (s : string) : string :=
  match s with
  | EmptyString => EmptyString
  | String c r =>
      match r with
      | String h (String l r') =>
          match hex_value h, hex_value l with
          | Some x, Some y =>
              if bool_decide (c = "%"%char)
              then String (ascii_of_N (16 * x + y)) (unquote r')
              else String c (unquote r)
          | _, _ => String c (unquote r)
          end
      | _ => String c (unquote r)
      end
  end.

(** Every character is one that [quote] leaves alone, or a percent sign. *)
Definition url_safe (s : string) : Prop :=
  ∀ c, In c (list_ascii_of_string s) →
       always_safe c = true ∨ c = "%"%char.

(** The files a cycle for commit [c] commits from the working tree: those
    there that [c] has as well, and those there that git does not ignore. *)
Definition committable (c : commit) (w : world) : gmap loc bytes :=
  filter (λ kd, is_Some ((list_to_map (blobs (tree c)) : gmap loc bytes)
                           !! kd.1)
                ∨ ignored w (fs w) kd.1 = false)
         (files_below (root w) (fs w)).

(** What the steps after the commit leave alone. *)
Definition committed_state (w : world)
  : option commit * gmap loc bytes * loc * filesystem * gmap string commit
    * (filesystem → loc → bool) :=
  (head_commit w, index w, root w, fs w, heads w, ignored w).

(** What the steps between the reset and [git add] leave alone. *)
Definition reset_state (w : world) : option commit * gmap loc bytes :=
  (head_commit w, index w).

(** The author set for the commits. *)
Definition identity (w : world) : string * string :=
  (user_name w, user_email w).

(** A regular file is at location [l]. *)
Definition is_file (f : filesystem) (l : loc) : bool :=
  match f !! l with Some (File _) => true | _ => false end.

(** No regular file is at [l] or at a location above it. *)
Definition no_file_above (f : filesystem) (l : loc) : bool :=
  forallb (λ k, negb (is_file f (take k l))) (seq 0 (S (length l))).

(** While [HEAD] is on branch [name], it stays there and every other local
    branch stays where it is. *)
Definition stays_on (name : string) (w w' : world) : Prop :=
  HEAD w = OnBranch name →
  HEAD w' = OnBranch name ∧ ∀ n, n ≠ name → heads w' !! n = heads w !! n.

(** The branch of commit [c] under [--branch]. *)
Definition branch_of (a : args) (c : commit) : string :=
  fmt (branch a) ++ "-" ++ hexsha c.

(** ** More examples *)


(** The fork when upstream cannot be reached. *)
Definition unreachable_world : world :=
  World fork_files ["fork"] {[ "GITHUB_TOKEN" := "s3cr3t+/" ]}
        (λ _, noon day_2026_11_03) 0 0
        ["fork"] {[ "main" := main_commit ]} (OnBranch "main")
        (list_to_map (blobs (tree main_commit)))
        fork_url None "" "" (λ n, "new" ++ pretty n) 0
        ∅ (λ _, true) [commit_today; commit_yesterday; commit_old] false
        (λ _ _, false) [].

(** The arguments of the example with [--config-path cfg], without the
    slash at the end. *)
Definition fork_args_bare : args :=
  Args (Some "me/fork") (Some "https://github.com/up/stream.git") "./"
       (Some "replay") (Some "s3cr3t+/") (Some "cfg") 0 1.

(** What a cycle on the fork captures with [--config-path cfg]: the
    directory [cfg] as well. *)
Definition fork_overlay_bare : overlay :=
  [ ("cfg", b "40000 .circleci");
    ("cfg/.circleci", b "100644 config.yml");
    ("cfg/.circleci/config.yml", b "A") ].

(** The fork with a regular file where the directory [cfg/.circleci]
    should be. *)
Definition blocked_files : filesystem :=
  list_to_map
    [ (["fork"], Dir);
      (["fork"; "README.md"], File (b "fork"));
      (["fork"; "cfg"], Dir);
      (["fork"; "cfg"; ".circleci"], File (b "100644 config.yml")) ].

Definition blocked_world : world := set_fs blocked_files fork_world.

(** A command line without [--config-path]. *)
Definition no_config_path : command_line :=
  CommandLine (Some "me/fork") (Some "https://github.com/up/stream.git") None
              (Some "replay") None None (Some 0) None.

(** The fork with the script's log file in the working tree, which git
    ignores. *)
Definition logging_world : world :=
  World (<[["fork"; "replay.log"] := File (b "log")]> fork_files) ["fork"]
        {[ "GITHUB_TOKEN" := "s3cr3t+/" ]}
        (λ _, noon day_2026_11_03) 0 0
        ["fork"] {[ "main" := main_commit ]} (OnBranch "main")
        (list_to_map (blobs (tree main_commit)))
        fork_url None "" "" (λ n, "new" ++ pretty n) 0
        ∅ (λ _, true) [commit_today; commit_yesterday; commit_old] true
        (λ _ k, bool_decide (k = ["replay.log"])) [].

(** * Properties *)

(** ** Reasoning about the monad *)

(** Projections of updated worlds. *)
Ltac world_simpl :=
  cbn [fs cwd env clock ticks utcoffset root heads HEAD index origin_url
       upstream_url user_name user_email object_ids objects_made
       origin_heads origin_accepts upstream_main upstream_reachable ignored
       trace
       set_fs set_ticks set_heads set_HEAD set_index set_origin_url
       set_upstream_url set_user_name set_user_email set_objects_made
       set_origin_heads set_trace fst snd] in *.

Lemma bind_ok {A B} (m : io A) (k : A → io B) w y w' :
  bind m k w = (Ok y, w') →
  ∃ x w1, m w = (Ok x, w1) ∧ k x w1 = (Ok y, w').
Proof.
  unfold bind. destruct (m w) as [[x|e] w1] eqn:E; [eauto | discriminate].
Qed.

Lemma bind_run {A B} (m : io A) (k : A → io B) w x w1 :
  m w = (Ok x, w1) → bind m k w = k x w1.
Proof. unfold bind. by intros ->. Qed.

Lemma bind_raise {A B} (m : io A) (k : A → io B) w e w1 :
  m w = (Raise e, w1) → bind m k w = (Raise e, w1).
Proof. unfold bind. by intros ->. Qed.

Section steps.
Context (R : world → world → Prop).
Hypothesis R_refl : ∀ w, R w w.
Hypothesis R_trans : ∀ w1 w2 w3, R w1 w2 → R w2 w3 → R w1 w3.

Lemma steps_ret {A} (x : A) : steps R (ret x).
Proof using R_refl. intros w. apply R_refl. Qed.

Lemma steps_raise {A} e : steps R (raise (A := A) e).
Proof using R_refl. intros w. apply R_refl. Qed.

Lemma steps_get {A} (f : world → A) : steps R (get f).
Proof using R_refl. intros w. apply R_refl. Qed.

Lemma steps_bind {A B} (m : io A) (k : A → io B) :
  steps R m → (∀ x, steps R (k x)) → steps R (bind m k).
Proof using R_trans.
  intros Hm Hk w. unfold bind. specialize (Hm w).
  destruct (m w) as [[x|e] w1]; simpl in *; [|done].
  eapply R_trans; [exact Hm | apply Hk].
Qed.

Lemma steps_try {A} (m h : io A) catches :
  steps R m → steps R h → steps R (try_except m catches h).
Proof using R_trans.
  intros Hm Hh w. unfold try_except. specialize (Hm w).
  destruct (m w) as [[x|e] w1]; simpl in *; [done|].
  destruct (catches e); simpl; [|done].
  eapply R_trans; [exact Hm | apply Hh].
Qed.

Lemma steps_for_each {A} (xs : list A) (body : A → io unit) :
  (∀ x, x ∈ xs → steps R (body x)) → steps R (for_each xs body).
Proof using R_refl R_trans.
  induction xs as [|x xs IH]; intros Hb; simpl.
  - apply steps_ret.
  - apply steps_bind; [apply Hb; left | intros _; apply IH].
    intros y Hy. apply Hb. by right.
Qed.

End steps.

Lemma steps_modify (R : world → world → Prop) (f : world → world) :
  (∀ w, R w (f w)) → steps R (modify f).
Proof. intros H w. apply H. Qed.

Lemma steps_run {A} (R : world → world → Prop) (m : io A) w r w' :
  steps R m → m w = (r, w') → R w w'.
Proof. intros H E. specialize (H w). by rewrite E in H. Qed.

Lemma steps_apply {A} (R : world → world → Prop) (m : io A) w :
  steps R m → R w (m w).2.
Proof. intros H. apply H. Qed.

(** ** The commit selector *)

Lemma clock_on_day_tick today w :
  clock_on_day today w → clock_on_day today (set_ticks (S (ticks w)) w).
Proof. intros H k Hk. simpl in Hk. apply H. lia. Qed.

Lemma cutoff_day_ok today days w d w' :
  clock_on_day today w →
  cutoff_day days w = (Ok d, w') →
  d = today - days ∧ w' = set_ticks (S (ticks w)) w.
Proof.
  intros Hc. unfold cutoff_day, bind, read_clock.
  rewrite (Hc (ticks w)) by lia.
  destruct (max_delta_days <? Z.abs days); [discriminate|].
  destruct (day_in_range (today - days)); [|discriminate].
  unfold ret. by intros [= <- <-].
Qed.

Lemma cutoff_day_run today days w :
  clock_on_day today w → cutoff_representable today days →
  cutoff_day days w = (Ok (today - days), set_ticks (S (ticks w)) w).
Proof.
  intros Hc [Hd Hr]. unfold cutoff_day, bind, read_clock.
  rewrite (Hc (ticks w)) by lia.
  destruct (Z.ltb_spec max_delta_days (Z.abs days)); [lia|].
  by rewrite Hr.
Qed.

Lemma window_prefix_split cutoff walk :
  ∃ rest, walk = (window_prefix cutoff walk ++ rest)%list
          ∧ ∀ c, head rest = Some c → committed_day c < cutoff.
Proof.
  induction walk as [|c walk [rest [IH1 IH2]]]; simpl.
  - exists []. split; [done|]. intros c [=].
  - destruct (Z.ltb_spec (committed_day c) cutoff).
    + exists (c :: walk). split; [done|]. by intros ? [= <-].
    + exists rest. split; [simpl; congruence | done].
Qed.

Lemma window_prefix_within cutoff walk :
  Forall (λ c, cutoff ≤ committed_day c) (window_prefix cutoff walk).
Proof.
  induction walk as [|c walk IH]; simpl; [constructor|].
  destruct (Z.ltb_spec (committed_day c) cutoff); constructor; [lia | done].
Qed.

(** An unbroken run of commits inside the window is visited whole. *)
Lemma window_prefix_reaches cutoff pre c post :
  Forall (λ x, cutoff ≤ committed_day x) pre →
  cutoff ≤ committed_day c →
  c ∈ window_prefix cutoff (pre ++ c :: post).
Proof.
  induction 1 as [|x pre Hx _ IH]; intros Hc; simpl.
  - destruct (Z.ltb_spec (committed_day c) cutoff); [lia | left].
  - destruct (Z.ltb_spec (committed_day x) cutoff); [lia|]. right. by apply IH.
Qed.

Lemma collect_commits_ok today days walk : ∀ commits w sel w',
  clock_on_day today w →
  collect_commits days walk commits w = (Ok sel, w') →
  sel = (commits ++ window_prefix (today - days) walk)%list.
Proof.
  induction walk as [|c walk IH]; intros commits w sel w' Hc; simpl.
  - unfold ret. intros [= <- <-]. by rewrite app_nil_r.
  - intros H. apply bind_ok in H as (d & w1 & Hd & H).
    apply (cutoff_day_ok today) in Hd as [-> ->]; [|done].
    destruct (committed_day c <? today - days).
    + injection H as <- <-. by rewrite app_nil_r.
    + apply IH in H; [|by apply clock_on_day_tick].
      by rewrite <- app_assoc in H.
Qed.

Lemma collect_commits_run today days walk : ∀ commits w,
  clock_on_day today w → cutoff_representable today days →
  (collect_commits days walk commits w).1
  = Ok (commits ++ window_prefix (today - days) walk)%list.
Proof.
  induction walk as [|c walk IH]; intros commits w Hc Hr; simpl.
  - by rewrite app_nil_r.
  - erewrite bind_run by (by apply cutoff_day_run).
    destruct (committed_day c <? today - days); simpl.
    + by rewrite app_nil_r.
    + rewrite IH; [|by apply clock_on_day_tick|done].
      by rewrite <- app_assoc.
Qed.

(** C5. For a window of [days >= 0] days and a clock that stays on UTC day
    [today], the walk splits into the commits visited and the rest: every
    visited commit has a committed day of [today - days] or later, the rest
    starts with the first commit strictly older than that, a commit on the
    cut-off day itself that the walk reaches is visited, what the selector
    returns is exactly the visited commits (reversed), and it does return
    them whenever the cut-off day is a representable date. *)
Theorem selection_within_window (days today : Z) (walk : list commit)
    (w : world) :
  0 ≤ days →
  clock_on_day today w →
  ∃ visited rest,
    walk = (visited ++ rest)%list
    ∧ Forall (λ c, today - days ≤ committed_day c) visited
    ∧ (∀ c, head rest = Some c → committed_day c < today - days)
    ∧ (∀ pre c post,
         walk = (pre ++ c :: post)%list →
         Forall (λ x, today - days ≤ committed_day x) pre →
         committed_day c = today - days → c ∈ visited)
    ∧ (∀ sel, (select_commits days walk w).1 = Ok sel → sel = rev visited)
    ∧ (cutoff_representable today days →
       (select_commits days walk w).1 = Ok (rev visited)).
Proof.
  intros _ Hc.
  destruct (window_prefix_split (today - days) walk) as (rest & Hsplit & Hrest).
  exists (window_prefix (today - days) walk), rest.
  split_and!; [done | apply window_prefix_within | done | | |].
  - intros pre c post -> Hpre Hday. apply window_prefix_reaches; [done | lia].
  - intros sel. unfold select_commits, bind.
    destruct (collect_commits days walk [] w) as [[cs|e] w1] eqn:E;
      simpl; [|discriminate].
    intros [= <-]. by rewrite (collect_commits_ok _ _ _ _ _ _ _ Hc E).
  - intros Hr. unfold select_commits, bind.
    pose proof (collect_commits_run today days walk [] w Hc Hr) as E.
    destruct (collect_commits days walk [] w) as [[cs|e] w1];
      simpl in *; [|discriminate].
    by injection E as ->.
Qed.

Lemma selection_within_window_witness :
  ∃ visited rest,
    [commit_today; commit_yesterday; commit_old] = (visited ++ rest)%list
    ∧ Forall (λ c, day_2026_11_03 - 1 ≤ committed_day c) visited
    ∧ (∀ c, head rest = Some c → committed_day c < day_2026_11_03 - 1)
    ∧ (∀ pre c post,
         [commit_today; commit_yesterday; commit_old]
         = (pre ++ c :: post)%list →
         Forall (λ x, day_2026_11_03 - 1 ≤ committed_day x) pre →
         committed_day c = day_2026_11_03 - 1 → c ∈ visited)
    ∧ (∀ sel,
         (select_commits 1 [commit_today; commit_yesterday; commit_old]
                         fork_world).1 = Ok sel → sel = rev visited)
    ∧ (cutoff_representable day_2026_11_03 1 →
       (select_commits 1 [commit_today; commit_yesterday; commit_old]
                       fork_world).1 = Ok (rev visited)).
Proof.
  apply (selection_within_window 1 day_2026_11_03
           [commit_today; commit_yesterday; commit_old] fork_world).
  - lia.
  - intros k _. reflexivity.
Defined.

Example selection_end_to_end :
  (select_commits 1 [commit_today; commit_yesterday; commit_old] fork_world).1
  = Ok [commit_yesterday; commit_today].
Proof. vm_compute. reflexivity. Qed.

Lemma rev_lookup_Some {A} (l : list A) i x :
  rev l !! i = Some x ↔ l !! (length l - S i)%nat = Some x ∧ (i < length l)%nat.
Proof. rewrite rev_alt. apply reverse_lookup_Some. Qed.

Lemma newest_first_rev cs : newest_first cs → oldest_first (rev cs).
Proof.
  intros H i j x y Hij Hx Hy.
  apply rev_lookup_Some in Hx as [Hx Hi]. apply rev_lookup_Some in Hy as [Hy Hj].
  apply (H (length cs - S j)%nat (length cs - S i)%nat y x); [lia | done | done].
Qed.

Lemma newest_first_prefix cs rest :
  newest_first (cs ++ rest) → newest_first cs.
Proof.
  intros H i j x y Hij Hx Hy.
  apply (H i j x y Hij); by apply lookup_app_l_Some.
Qed.

(** C6, as the code has it.  The selector returns the visited commits in
    the reverse of the order of the walk: the walk is what it returned,
    reversed, followed by the commits it left out.  So the result is oldest
    first (commit times never decreasing) whenever the walk met the commits
    newest first; the selector itself never sorts. *)
Theorem selection_reverses_walk (days today : Z) (walk : list commit)
    (w : world) :
  clock_on_day today w →
  cutoff_representable today days →
  ∃ sel rest,
    (select_commits days walk w).1 = Ok sel
    ∧ walk = (rev sel ++ rest)%list
    ∧ (newest_first walk → oldest_first sel).
Proof.
  intros Hc Hr.
  destruct (window_prefix_split (today - days) walk) as (rest & Hsplit & _).
  exists (rev (window_prefix (today - days) walk)), rest.
  split_and!.
  - unfold select_commits, bind.
    pose proof (collect_commits_run today days walk [] w Hc Hr) as E.
    destruct (collect_commits days walk [] w) as [[cs|e] w1];
      simpl in *; [|discriminate].
    by injection E as ->.
  - by rewrite rev_involutive.
  - intros Hn. apply newest_first_rev.
    rewrite Hsplit in Hn. by apply newest_first_prefix in Hn.
Qed.

Lemma selection_reverses_walk_witness :
  ∃ sel rest,
    (select_commits 1 [commit_today; commit_yesterday; commit_old]
                    fork_world).1 = Ok sel
    ∧ [commit_today; commit_yesterday; commit_old] = (rev sel ++ rest)%list
    ∧ (newest_first [commit_today; commit_yesterday; commit_old] →
       oldest_first sel).
Proof.
  apply (selection_reverses_walk 1 day_2026_11_03
           [commit_today; commit_yesterday; commit_old] fork_world).
  - intros k _. reflexivity.
  - split; vm_compute; [discriminate | reflexivity].
Defined.

(** C6 as stated fails: a walk that meets an older commit before a newer
    one is returned newest first. *)
Lemma selection_not_chronological :
  ∃ sel, (select_commits 1 skewed_walk fork_world).1 = Ok sel
         ∧ ¬ oldest_first sel.
Proof.
  exists [commit_today; commit_yesterday]. split; [vm_compute; reflexivity|].
  intros H.
  specialize (H 0%nat 1%nat commit_today commit_yesterday).
  simpl in H. unfold noon, seconds_per_day in H.
  specialize (H ltac:(lia) eq_refl eq_refl). lia.
Qed.

(** ** [export_blob] *)

Lemma lookup_path_file f d p c :
  lookup_path f d p = Some (File c) →
  is_empty p = false ∧ wants_dir p = false ∧ resolve d p ≠ []
  ∧ f !! resolve d p = Some (File c).
Proof.
  unfold lookup_path. destruct (is_empty p); [discriminate|].
  destruct (resolve d p) as [|x l] eqn:El; simpl; [discriminate|].
  destruct (f !! (x :: l)) as [[c'|]|] eqn:E; [|discriminate..].
  destruct (wants_dir p); [discriminate|]. by intros [= ->].
Qed.

Lemma lookup_path_at f d p :
  is_empty p = false → resolve d p ≠ [] →
  lookup_path f d p
  = match f !! resolve d p with
    | Some (File c) => if wants_dir p then None else Some (File c)
    | r => r
    end.
Proof.
  intros Hp Hl. unfold lookup_path. rewrite Hp.
  by destruct (resolve d p).
Qed.

Lemma removelast_ne (l : loc) : l ≠ [] → removelast l ≠ l.
Proof.
  intros Hl E. apply (f_equal length) in E.
  destruct (exists_last Hl) as (l' & x & ->).
  rewrite removelast_last, length_app in E. simpl in E. lia.
Qed.

Lemma os_remove_file p w c :
  lookup_path (fs w) (cwd w) p = Some (File c) →
  os_remove p w = (Ok tt, set_fs (delete (resolve (cwd w) p) (fs w)) w).
Proof. unfold os_remove. by intros ->. Qed.

Lemma write_file_fresh p data w :
  is_empty p = false → wants_dir p = false →
  resolve (cwd w) p ≠ [] →
  fs w !! resolve (cwd w) p = None →
  stat (fs w) (removelast (resolve (cwd w) p)) = Some Dir →
  write_file p data w
  = (Ok tt, set_fs (<[resolve (cwd w) p := File data]> (fs w)) w).
Proof.
  intros Hp Hwd Hl Hnone Hparent. unfold write_file. rewrite Hp.
  destruct (resolve (cwd w) p) as [|x l] eqn:El; [done|].
  unfold stat at 1. rewrite Hnone, Hwd, Hparent. done.
Qed.

(** C8. When the destination is a regular file (of a file system in which
    every entry lies in a directory), [export_blob] returns normally and
    the destination is then a regular file holding exactly the new bytes;
    nothing else in the file system changes and nothing is printed. *)
Theorem export_blob_overwrites_file (data old : bytes) (dst_path : string)
    (w : world) :
  fs_ok (fs w) →
  lookup_path (fs w) (cwd w) dst_path = Some (File old) →
  ∃ w', export_blob data dst_path w = (Ok tt, w')
        ∧ lookup_path (fs w') (cwd w') dst_path = Some (File data)
        ∧ fs w' = <[resolve (cwd w) dst_path := File data]> (fs w)
        ∧ trace w' = trace w.
Proof.
  intros Hok Hfile.
  destruct (lookup_path_file _ _ _ _ Hfile) as (Hne & Hwd & Hnil & Hl).
  set (l := resolve (cwd w) dst_path) in *.
  set (w1 := set_fs (delete l (fs w)) w).
  assert (Hparent : stat (fs w1) (removelast l) = Some Dir).
  { pose proof (Hok l _ Hl) as Hp. cbv beta in Hp. simpl.
    destruct (removelast l) as [|x r] eqn:Er; [done|]. simpl in *.
    rewrite lookup_delete_ne; [done|]. rewrite <- Er.
    intros E. by apply (removelast_ne l). }
  assert (Hgone : lookup_path (fs w1) (cwd w1) dst_path = None).
  { rewrite lookup_path_at by done. simpl. fold l.
    by rewrite lookup_delete_eq. }
  exists (set_fs (<[l := File data]> (fs w1)) w1). split_and!.
  - unfold export_blob.
    erewrite bind_run by reflexivity. rewrite Hfile.
    rewrite bool_decide_true by eauto.
    erewrite (bind_run _ _ w tt w1); cycle 1.
    { erewrite bind_run by reflexivity. rewrite Hfile.
      by apply os_remove_file with old. }
    erewrite bind_run by reflexivity. rewrite Hgone. simpl negb.
    apply write_file_fresh; try done. simpl. fold l.
    by rewrite lookup_delete_eq.
  - rewrite lookup_path_at by done. simpl. fold l.
    by rewrite lookup_insert_eq, Hwd.
  - simpl. by rewrite insert_delete_eq.
  - reflexivity.
Qed.

Lemma export_blob_overwrites_file_witness :
  ∃ w', export_blob (b "B") "cfg/.circleci/config.yml" fork_world = (Ok tt, w')
        ∧ lookup_path (fs w') (cwd w') "cfg/.circleci/config.yml"
          = Some (File (b "B"))
        ∧ fs w' = <[resolve (cwd fork_world) "cfg/.circleci/config.yml"
                    := File (b "B")]> (fs fork_world)
        ∧ trace w' = trace fork_world.
Proof.
  apply (export_blob_overwrites_file (b "B") (b "A")
           "cfg/.circleci/config.yml" fork_world).
  - apply (bool_decide_unpack _). vm_compute. exact I.
  - vm_compute. reflexivity.
Defined.

(** C9. When the destination is a directory, [export_blob] returns
    normally, prints the conflict and writes nothing: the file system,
    hence the directory and all it holds, is as before. *)
Theorem export_blob_skips_directory (data : bytes) (dst_path : string)
    (w : world) :
  lookup_path (fs w) (cwd w) dst_path = Some Dir →
  ∃ w', export_blob data dst_path w = (Ok tt, w')
        ∧ fs w' = fs w
        ∧ logged w w' [EvPrint ("A directory with the name " ++ dst_path
                                ++ " already exists.")].
Proof.
  intros Hdir.
  set (msg := "A directory with the name " ++ dst_path ++ " already exists.").
  exists (set_trace (trace w ++ [EvPrint msg]) w). split_and!.
  - unfold export_blob.
    erewrite bind_run by reflexivity. rewrite Hdir.
    rewrite bool_decide_true by eauto.
    erewrite (bind_run _ _ w tt (set_trace (trace w ++ [EvPrint msg]) w));
      cycle 1.
    { erewrite bind_run by reflexivity. rewrite Hdir. reflexivity. }
    erewrite bind_run by reflexivity. world_simpl. rewrite Hdir.
    reflexivity.
  - reflexivity.
  - reflexivity.
Qed.

Lemma export_blob_skips_directory_witness :
  ∃ w', export_blob (b "B") "cfg/.circleci" fork_world = (Ok tt, w')
        ∧ fs w' = fs fork_world
        ∧ logged fork_world w'
            [EvPrint ("A directory with the name " ++ "cfg/.circleci"
                      ++ " already exists.")].
Proof.
  apply (export_blob_skips_directory (b "B") "cfg/.circleci" fork_world).
  vm_compute. reflexivity.
Defined.

(** ** What the steps of a cycle leave alone *)

Lemma keeps_refl {A} (f : world → A) w : keeps f w w.
Proof. reflexivity. Qed.

Lemma keeps_trans {A} (f : world → A) w1 w2 w3 :
  keeps f w1 w2 → keeps f w2 w3 → keeps f w1 w3.
Proof. unfold keeps. congruence. Qed.

Lemma appends_refl P w : appends P w w.
Proof. exists []. split; [unfold logged; by rewrite app_nil_r | constructor]. Qed.

Lemma appends_trans P w1 w2 w3 :
  appends P w1 w2 → appends P w2 w3 → appends P w1 w3.
Proof.
  intros (t1 & E1 & H1) (t2 & E2 & H2). exists (t1 ++ t2)%list. split.
  - unfold logged in *. by rewrite E2, E1, app_assoc.
  - by apply Forall_app.
Qed.

Lemma appends_same P w w' : trace w' = trace w → appends P w w'.
Proof.
  intros E. exists []. split; [unfold logged; by rewrite app_nil_r | constructor].
Qed.

Lemma appends_log (P : event → Prop) e : P e → steps (appends P) (log e).
Proof. intros He w. exists [e]. split; [reflexivity | by constructor]. Qed.

(** Unfolds the compound steps of the script down to the calls. *)
Ltac unfold_steps :=
  unfold replay_cycle, branch_name, in_heads, git_checkout_B, git_config,
    capture_overlay, main_tree_of_repo, git_reset_hard, switch_worktree,
    restore_overlay, restore_entry, export_blob, restore_ci_folder,
    git_add_all,
    index_commit, push_branch, set_url, git_push_force, time_sleep, print,
    os_path_exists, os_path_isfile, os_path_isdir, os_getenv;
  cbv zeta.

(** Walks the structure of a step; [leaf] settles the calls. *)
Ltac steps_walk Hrefl Htrans leaf :=
  repeat first
    [ apply (steps_ret _ Hrefl)
    | apply (steps_raise _ Hrefl)
    | apply (steps_get _ Hrefl)
    | apply (steps_bind _ Htrans); [|intros ?]
    | apply (steps_try _ Htrans)
    | apply (steps_for_each _ Hrefl Htrans); intros ? _
    | match goal with
      | |- steps _ (if ?c then _ else _) => destruct c
      | |- steps _ (match ?x with _ => _ end) => destruct x
      end
    | progress unfold_steps
    | leaf ].

(** The calls, for the observations that only look at fields of the
    world. *)
Ltac split_matches :=
  repeat first
    [ match goal with
      | |- context [match HEAD ?w with _ => _ end] =>
          is_var w; let E := fresh "EH" in destruct (HEAD w) eqn:E; world_simpl
      end
    | match goal with
      | |- context [match ?x with _ => _ end] =>
          lazymatch x with
          | context [HEAD] => fail
          | _ => destruct x eqn:?
          end; world_simpl
      end ].

Ltac call_keeps :=
  intros ?; unfold keeps, head_branch, log, modify, read_clock, os_remove,
    os_makedirs, write_file, shutil_rmtree, shutil_copytree, move_head;
  world_simpl; split_matches; simplify_eq; reflexivity.

Ltac call_appends :=
  first
    [ apply appends_log; done
    | intros ?; unfold modify, read_clock, os_remove, os_makedirs,
        write_file, shutil_rmtree, shutil_copytree, move_head;
      repeat case_match; apply appends_same; reflexivity ].

(** ** Steps that return *)

Lemma hoare_bind {A B} P (m : io A) (k : A → io B) Q M :
  hoare P m M → (∀ x, hoare (M x) (k x) Q) → hoare P (bind m k) Q.
Proof.
  intros Hm Hk w y w' HP H. apply bind_ok in H as (x & w1 & H1 & H2).
  eapply Hk; [|exact H2]. eapply Hm; [exact HP | exact H1].
Qed.

(** A step that respects [R] carries on from any world reached under [R]. *)
Lemma hoare_frame {A B} (R : world → world → Prop) w0
    (m : io A) (k : A → io B) Q :
  (∀ w1 w2 w3, R w1 w2 → R w2 w3 → R w1 w3) →
  steps R m →
  (∀ x, hoare (R w0) (k x) Q) →
  hoare (R w0) (bind m k) Q.
Proof.
  intros Htrans Hm Hk. apply hoare_bind with (M := λ _, R w0); [|done].
  intros w x w' HR H. eapply Htrans; [exact HR|].
  by eapply steps_run.
Qed.

Lemma hoare_run {A} P (m : io A) Q w x w' :
  hoare P m Q → P w → m w = (Ok x, w') → Q x w'.
Proof. intros H. apply H. Qed.

Lemma hoare_any {A B} (m : io A) (k : A → io B) Q :
  (∀ x, hoare (λ _, True) (k x) Q) → hoare (λ _, True) (bind m k) Q.
Proof. intros Hk. by apply hoare_bind with (M := λ _ _, True). Qed.

(** A cycle that returns yields the name it computed at its start. *)
Lemma replay_cycle_name a c w n w' :
  replay_cycle a c w = (Ok n, w') →
  ∃ w1, branch_name a c w = (Ok n, w1).
Proof.
  unfold replay_cycle. intros H.
  apply bind_ok in H as (name & w1 & Hname & H).
  exists w1. rewrite Hname. do 2 f_equal.
  revert H. generalize w1. intros w2 H.
  refine (hoare_run (λ _, True) _ (λ n _, name = n) w2 n w' _ I H).
  do 12 (apply hoare_any; intros ?).
  intros ? ? ? _. unfold ret. by intros [= <- _].
Qed.

(** ** Walking a whole run *)

Lemma steps_collect_commits (R : world → world → Prop) days walk :
  (∀ w, R w w) → (∀ w1 w2 w3, R w1 w2 → R w2 w3 → R w1 w3) →
  steps R read_clock →
  ∀ commits, steps R (collect_commits days walk commits).
Proof.
  intros Hrefl Htrans Hclock.
  induction walk as [|c walk IH]; intros commits; simpl.
  - by apply steps_ret.
  - apply steps_bind; [done| |].
    + unfold cutoff_day. apply steps_bind; [done | done |].
      intros now. repeat case_match;
        first [by apply steps_raise | by apply steps_ret].
    + intros cutoff. case_match; [by apply steps_ret | apply IH].
Qed.

Lemma steps_push_loop (R : world → world → Prop) a commits :
  (∀ w, R w w) → (∀ w1 w2 w3, R w1 w2 → R w2 w3 → R w1 w3) →
  (∀ c, steps R (replay_cycle a c)) →
  ∀ branches, steps R (push_loop a commits branches).
Proof.
  intros Hrefl Htrans Hcycle.
  induction commits as [|c commits IH]; intros branches; simpl.
  - by apply steps_ret.
  - apply steps_bind; [done | apply Hcycle | intros name; apply IH].
Qed.

(** Unfolds the steps of [replay_commits] around the two loops. *)
Ltac unfold_run :=
  unfold replay_commits, run, open_repo, create_remote_upstream,
    fetch_upstream_main, select_commits, push_commits_one_by_one.

(** As [steps_walk], with [pre] tried on every step before it is taken
    apart. *)
Ltac steps_walk_pre pre Hrefl Htrans leaf :=
  repeat first
    [ pre
    | apply (steps_ret _ Hrefl)
    | apply (steps_raise _ Hrefl)
    | apply (steps_get _ Hrefl)
    | apply (steps_bind _ Htrans); [|intros ?]
    | apply (steps_try _ Htrans)
    | apply (steps_for_each _ Hrefl Htrans); intros ? _
    | match goal with
      | |- steps _ (if ?c then _ else _) => destruct c
      | |- steps _ (match ?x with _ => _ end) => destruct x
      end
    | progress unfold_steps
    | leaf ].

(** The two loops of a run, for a relation that the calls respect. *)
Ltac run_loops Hrefl Htrans :=
  first
    [ apply (steps_collect_commits _ _ _ Hrefl Htrans)
    | apply (steps_push_loop _ _ _ Hrefl Htrans); intros ? ].

(** ** The push and the URL of [origin] *)

Lemma time_sleep_ok seconds w w' :
  time_sleep seconds w = (Ok tt, w') →
  w' = set_trace (trace w ++ [EvSleep seconds]) w.
Proof.
  unfold time_sleep, raise, log, modify.
  destruct (seconds <? 0); [discriminate | by intros [= <-]].
Qed.

(** What a push that returns has done. *)
Lemma push_branch_ok a c name w w' :
  push_branch a c name w = (Ok tt, w') →
  ∃ token tip,
    env w !! "GITHUB_TOKEN" = Some token
    ∧ heads w !! name = Some tip
    ∧ logged w w'
        [ EvSetUrl (token_url token (github_repo_slug a));
          EvPrint ("Pushing commit " ++ hexsha c ++ " to branch " ++ name);
          EvPush name;
          EvSetUrl (origin_url w) ]
    ∧ origin_url w' = origin_url w
    ∧ origin_heads w' = <[name := tip]> (origin_heads w)
    ∧ heads w' = heads w ∧ HEAD w' = HEAD w ∧ fs w' = fs w ∧ cwd w' = cwd w.
Proof.
  unfold push_branch, set_url, print, git_push_force, os_getenv, log, modify,
    get, raise, bind, id.
  destruct (env w !! "GITHUB_TOKEN") as [token|] eqn:Et;
    cbv beta iota; world_simpl; [|discriminate].
  destruct (origin_accepts w _); cbv beta iota; world_simpl; [|discriminate].
  destruct (heads w !! name) as [tip|] eqn:Eh;
    cbv beta iota; world_simpl; [|discriminate].
  intros [= <-]. exists token, tip.
  split_and!; try done.
  unfold logged. world_simpl. by rewrite <- !app_assoc.
Qed.

Lemma local_only_refl w : local_only w w.
Proof. split_and!; [done | done | apply appends_refl]. Qed.

Lemma local_only_trans w1 w2 w3 :
  local_only w1 w2 → local_only w2 w3 → local_only w1 w3.
Proof.
  intros (? & ? & ?) (? & ? & ?). split_and!.
  - by eapply keeps_trans.
  - by eapply keeps_trans.
  - by eapply appends_trans.
Qed.

Lemma steps_local_only {A} (m : io A) :
  steps (keeps origin_url) m → steps (keeps env) m →
  steps (appends local_event) m → steps local_only m.
Proof. intros H1 H2 H3 w. split_and!; [apply H1 | apply H2 | apply H3]. Qed.

Ltac call_local_only :=
  apply steps_local_only; [call_keeps | call_keeps | call_appends].

(** C3, as the code has it.  In a cycle that returns, the URL of [origin]
    is set to the URL with the token right before the cycle's one push and
    set back to what it was right after it: the cycle logs only local
    events, then these two [set_url] calls around the push, then the sleep,
    and [origin] has its old URL at the end. *)
Theorem origin_url_restored_after_push (a : args) (c : commit) (w w' : world)
    (name : string) :
  replay_cycle a c w = (Ok name, w') →
  origin_url w' = origin_url w
  ∧ ∃ before token,
      env w !! "GITHUB_TOKEN" = Some token
      ∧ Forall local_event before
      ∧ logged w w'
          (before
           ++ [ EvSetUrl (token_url token (github_repo_slug a));
                EvPrint ("Pushing commit " ++ hexsha c ++ " to branch " ++ name);
                EvPush name;
                EvSetUrl (origin_url w);
                EvSleep (commit_delay a) ]).
Proof.
  revert w' name.
  cut (hoare (local_only w) (replay_cycle a c)
         (λ name w', origin_url w' = origin_url w
            ∧ ∃ before token,
                env w !! "GITHUB_TOKEN" = Some token
                ∧ Forall local_event before
                ∧ logged w w'
                    (before
                     ++ [ EvSetUrl (token_url token (github_repo_slug a));
                          EvPrint ("Pushing commit " ++ hexsha c
                                   ++ " to branch " ++ name);
                          EvPush name;
                          EvSetUrl (origin_url w);
                          EvSleep (commit_delay a) ]))).
  { intros H w' name. apply H, local_only_refl. }
  unfold replay_cycle.
  apply hoare_bind with (M := λ _, local_only w).
  { intros w1 x w2 HR H. eapply local_only_trans; [exact HR|].
    eapply steps_run; [|exact H].
    steps_walk local_only_refl local_only_trans call_local_only. }
  intros name.
  do 10 (apply hoare_frame;
         [ exact local_only_trans
         | solve [steps_walk local_only_refl local_only_trans call_local_only]
         | intros ? ]).
  intros w1 n w' (Hurl & Henv & before & Hlog & Hloc) H.
  apply bind_ok in H as ([] & w2 & Hpush & H).
  apply push_branch_ok in Hpush
    as (token & tip & Et & _ & Hlog2 & Hurl2 & _).
  apply bind_ok in H as ([] & w3 & Hs & H). apply time_sleep_ok in Hs as ->.
  unfold ret in H. injection H as <- <-.
  unfold keeps in *. world_simpl. split; [congruence|].
  exists before, token. split_and!; [congruence | done |].
  unfold logged in *. world_simpl.
  rewrite Hlog2, Hlog, Hurl. by rewrite <- !app_assoc.
Qed.

Lemma origin_url_restored_after_push_witness :
  origin_url (replay_cycle fork_args commit_today fork_world).2
  = origin_url fork_world
  ∧ ∃ before token,
      env fork_world !! "GITHUB_TOKEN" = Some token
      ∧ Forall local_event before
      ∧ logged fork_world (replay_cycle fork_args commit_today fork_world).2
          (before
           ++ [ EvSetUrl (token_url token (github_repo_slug fork_args));
                EvPrint ("Pushing commit " ++ hexsha commit_today
                         ++ " to branch " ++ "replay-c3");
                EvPush "replay-c3";
                EvSetUrl (origin_url fork_world);
                EvSleep (commit_delay fork_args) ]).
Proof.
  apply (origin_url_restored_after_push fork_args commit_today fork_world
           (replay_cycle fork_args commit_today fork_world).2 "replay-c3").
  vm_compute. reflexivity.
Defined.

(** C3 as stated fails: when the push raises, the exception leaves the
    cycle before the URL is set back, and [origin] keeps the URL with the
    token. *)
Lemma origin_url_kept_when_push_raises :
  (replay_cycle fork_args commit_today offline_world).1 = Raise GitCommandError
  ∧ origin_url (replay_cycle fork_args commit_today offline_world).2
    = "https://s3cr3t%2B/:x-oauth-basic@github.com/me/fork"
  ∧ origin_url (replay_cycle fork_args commit_today offline_world).2
    ≠ origin_url offline_world.
Proof. vm_compute. split_and!; [reflexivity | reflexivity | discriminate]. Qed.

(** ** The token *)

(** The cycle never reads the token that [get_args] put in the arguments. *)
Lemma replay_cycle_ignores_token_argument t a c :
  replay_cycle (with_github_token t a) c = replay_cycle a c.
Proof. reflexivity. Qed.

(** Without [GITHUB_TOKEN] in the environment the push step raises before
    it touches the remote. *)
Lemma push_branch_needs_environment a c name w :
  env w !! "GITHUB_TOKEN" = None →
  push_branch a c name w = (Raise TypeError, w).
Proof.
  intros E. unfold push_branch, os_getenv, get, raise, bind. by rewrite E.
Qed.

(** C4 fails on the code.  A run that is given the token with
    [--github-token] only, in an environment without [GITHUB_TOKEN]:
    [get_args] does put the token in the arguments, but the first cycle
    raises [TypeError] when it builds the URL, nothing is pushed and the URL
    of [origin] is never set. *)
Theorem token_given_by_flag_is_not_used :
  (∃ a w1, get_args token_by_flag tokenless_world = (Ok a, w1)
           ∧ github_token a = Some "s3cr3t+/")
  ∧ (main token_by_flag tokenless_world).1 = Raise TypeError
  ∧ Forall local_event (trace (main token_by_flag tokenless_world).2)
  ∧ origin_heads (main token_by_flag tokenless_world).2 = ∅.
Proof.
  split_and!.
  - eexists _, _. split; reflexivity.
  - vm_compute. reflexivity.
  - vm_compute. repeat constructor.
  - vm_compute. reflexivity.
Qed.

(** ** A branch that is already there *)

(** When the branch of a cycle exists, the cycle logs no checkout and
    [HEAD] stays on the branch it was on. *)
Lemma known_branch_not_checked_out a c w name w1 :
  branch_name a c w = (Ok name, w1) →
  is_Some (heads w !! name) →
  head_branch (replay_cycle a c w).2 = head_branch w
  ∧ appends not_checkout w (replay_cycle a c w).2.
Proof.
  intros Hname Hknown.
  assert (Hw1 : heads w1 = heads w ∧ head_branch w1 = head_branch w
                ∧ trace w1 = trace w).
  { revert Hname. unfold branch_name, bind, read_clock, get, ret.
    destruct (truthy (branch a)); by intros [= <- <-]. }
  destruct Hw1 as (Hh & Hb & Ht).
  unfold replay_cycle. rewrite (bind_run _ _ _ _ _ Hname).
  erewrite bind_run by reflexivity.
  rewrite Hh, bool_decide_true by done. simpl negb. cbv iota.
  erewrite bind_run by reflexivity.
  cbv beta. split.
  - rewrite <- Hb. refine (_ : keeps head_branch w1 _).
    apply steps_apply.
    steps_walk (@keeps_refl _ head_branch) (@keeps_trans _ head_branch)
               call_keeps.
  - refine (appends_trans _ w w1 _ (appends_same _ _ _ Ht) _).
    apply steps_apply.
    steps_walk (appends_refl not_checkout)
               (appends_trans not_checkout)
               call_appends.
Qed.

(** C1 fails on the code.  The fork after a first complete run has the
    branches [replay-b2] and [replay-c3] and is on [replay-c3].  The cycle
    for commit [b2] then finds [replay-b2], does not check it out and stays
    on [replay-c3]: the reset and the new commit land on [replay-c3], while
    [replay-b2] keeps its old commit, which is what the push sends. *)
Theorem existing_branch_is_not_checked_out :
  is_Some (heads world_after_first_run !! "replay-b2")
  ∧ HEAD world_after_first_run = OnBranch "replay-c3"
  ∧ (replay_cycle fork_args commit_yesterday world_after_first_run).1
    = Ok "replay-b2"
  ∧ HEAD (replay_cycle fork_args commit_yesterday world_after_first_run).2
    = OnBranch "replay-c3"
  ∧ message <$> heads (replay_cycle fork_args commit_yesterday
                         world_after_first_run).2 !! "replay-c3"
    = Some "Committing b2"
  ∧ heads (replay_cycle fork_args commit_yesterday
             world_after_first_run).2 !! "replay-b2"
    = heads world_after_first_run !! "replay-b2"
  ∧ origin_heads (replay_cycle fork_args commit_yesterday
                    world_after_first_run).2 !! "replay-b2"
    = heads world_after_first_run !! "replay-b2"
  ∧ phases (drop (length (trace world_after_first_run))
              (trace (replay_cycle fork_args commit_yesterday
                        world_after_first_run).2))
    = [PCapture; PReset].
Proof.
  split_and!; [by vm_compute; eexists | by vm_compute..].
Qed.

(** ** The branch a new cycle works on *)

Lemma works_on_refl name w : works_on name w w.
Proof. by intros H. Qed.

Lemma works_on_trans name w1 w2 w3 :
  works_on name w1 w2 → works_on name w2 w3 → works_on name w1 w3.
Proof.
  intros H12 H23 H1. destruct (H12 H1) as [H2 E2].
  destruct (H23 H2) as [H3 E3]. split; [done | congruence].
Qed.

Ltac call_works_on Hne :=
  intros ? ?; unfold log, modify, read_clock, os_remove, os_makedirs,
    write_file, shutil_rmtree, shutil_copytree, move_head;
  world_simpl; split_matches; simplify_eq; world_simpl;
  (split; [done | by rewrite ?(lookup_insert_ne _ _ _ _ Hne)]).

Lemma branch_name_ok a c w name w1 :
  branch_name a c w = (Ok name, w1) →
  heads w1 = heads w ∧ HEAD w1 = HEAD w ∧ cwd w1 = cwd w ∧ fs w1 = fs w
  ∧ trace w1 = trace w ∧ env w1 = env w ∧ origin_heads w1 = origin_heads w.
Proof.
  unfold branch_name, bind, read_clock, get, ret.
  destruct (truthy (branch a)); by intros [= <- <-].
Qed.

Lemma git_checkout_B_ok name start w w' :
  git_checkout_B name start w = (Ok tt, w') →
  ∃ tip, heads w !! start = Some tip
         ∧ heads w' = <[name := tip]> (heads w)
         ∧ HEAD w' = OnBranch name
         ∧ cwd w' = cwd w
         ∧ logged w w' [EvCheckout name start].
Proof.
  unfold git_checkout_B, switch_worktree, log, modify, raise, get, bind.
  destruct (heads w !! start) as [tip|]; [|discriminate].
  intros [= <-]. by exists tip.
Qed.

Lemma git_checkout_B_raises name start w e w' :
  git_checkout_B name start w = (Raise e, w') → w' = w.
Proof.
  unfold git_checkout_B, switch_worktree, log, modify, raise, get, bind.
  destruct (heads w !! start) as [tip|]; [discriminate|]. by intros [= _ <-].
Qed.

(** What the commit step does on a branch. *)
Lemma index_commit_on_branch msg name w w' :
  HEAD w = OnBranch name →
  index_commit msg w = (Ok tt, w') →
  HEAD w' = OnBranch name
  ∧ ∃ new, heads w' = <[name := new]> (heads w)
           ∧ message new = msg
           ∧ parents new = match heads w !! name with
                           | Some p => [hexsha p]
                           | None => []
                           end.
Proof.
  intros HH. unfold index_commit, log, read_clock, modify, move_head, bind.
  world_simpl. rewrite HH. world_simpl. intros [= <-]. world_simpl.
  split; [done|]. eexists. split_and!; [done | done |].
  cbn. unfold head_commit. world_simpl. by rewrite HH.
Qed.

Lemma same_refs_refl w : same_refs w w.
Proof. by split. Qed.

Lemma same_refs_trans w1 w2 w3 :
  same_refs w1 w2 → same_refs w2 w3 → same_refs w1 w3.
Proof. intros [] []. split; by eapply keeps_trans. Qed.

Lemma steps_same_refs {A} (m : io A) :
  steps (keeps HEAD) m → steps (keeps heads) m → steps same_refs m.
Proof. intros H1 H2 w. split; [apply H1 | apply H2]. Qed.

Ltac call_same_refs := apply steps_same_refs; call_keeps.

Lemma git_reset_hard_on_branch c name w w' r :
  HEAD w = OnBranch name →
  git_reset_hard c w = (r, w') →
  HEAD w' = OnBranch name ∧ heads w' = <[name := c]> (heads w).
Proof.
  intros HH. unfold git_reset_hard, switch_worktree, log, modify, move_head, bind.
  world_simpl. rewrite HH. by intros [= <- <-].
Qed.

(** C10. In a cycle whose branch name is not a local head yet, [main]
    points at the same commit afterwards, however the cycle ends.  When the
    cycle returns, [HEAD] is on the new branch, the branch holds the new
    commit, made on top of the replayed commit the reset put it at, and
    that commit is what [origin] got for the branch. *)
Theorem new_branch_leaves_main (a : args) (c : commit) (w w1 : world)
    (name : string) :
  branch_name a c w = (Ok name, w1) →
  heads w !! name = None →
  heads (replay_cycle a c w).2 !! "main" = heads w !! "main"
  ∧ ∀ n w', replay_cycle a c w = (Ok n, w') →
      n = name
      ∧ HEAD w' = OnBranch name
      ∧ ∃ new, heads w' !! name = Some new
               ∧ message new = "Committing " ++ hexsha c
               ∧ parents new = [hexsha c]
               ∧ origin_heads w' !! name = Some new.
Proof.
  intros Hname Hnew.
  destruct (branch_name_ok _ _ _ _ _ Hname) as (Hh & HH & _).
  unfold replay_cycle. rewrite (bind_run _ _ _ _ _ Hname).
  erewrite bind_run by reflexivity.
  rewrite Hh, bool_decide_false by (rewrite Hnew; by intros []).
  simpl negb. cbv iota.
  destruct (git_checkout_B name "main" w1) as [[[]|e] w2] eqn:Eco; cycle 1.
  { apply git_checkout_B_raises in Eco as Ew. subst w2.
    rewrite (bind_raise _ _ _ _ _ Eco). simpl. split; [by rewrite Hh|].
    intros ? ? [=]. }
  rewrite (bind_run _ _ _ _ _ Eco).
  apply git_checkout_B_ok in Eco as (tip & Htip & Hh2 & HH2 & _).
  assert (Hne : name ≠ "main") by (intros ->; congruence).
  assert (Hmain : heads w2 !! "main" = heads w !! "main").
  { rewrite Hh2, lookup_insert_ne by done. by rewrite Hh. }
  split.
  - rewrite <- Hmain. refine (proj2 ((_ : works_on name w2 _) HH2)).
    apply steps_apply.
    steps_walk (works_on_refl name) (works_on_trans name)
               ltac:(call_works_on Hne).
  - pose (Q := λ (n : string) (w' : world),
        n = name ∧ HEAD w' = OnBranch name
        ∧ ∃ new, heads w' !! name = Some new
                 ∧ message new = "Committing " ++ hexsha c
                 ∧ parents new = [hexsha c]
                 ∧ origin_heads w' !! name = Some new).
    intros n w' Hrun.
    refine (hoare_run (same_refs w2) _ Q w2 n w' _ (same_refs_refl _) Hrun).
    clear n w' Hrun.
    do 3 (apply hoare_frame;
          [ exact same_refs_trans
          | solve [steps_walk same_refs_refl same_refs_trans call_same_refs]
          | intros ? ]).
    apply hoare_bind with
      (M := λ _ w3, HEAD w3 = OnBranch name ∧ heads w3 !! name = Some c).
    { intros w3 [] w4 [E1 E2] Hr. unfold keeps in *.
      apply (git_reset_hard_on_branch _ name) in Hr as [-> ->]; [|congruence].
      by rewrite lookup_insert_eq. }
    intros [].
    intros w4 n' w8 Hw4 Hrun.
    refine (hoare_run (same_refs w4) _ Q w4 n' w8 _ (same_refs_refl _) Hrun).
    clear n' w8 Hrun.
    do 3 (apply hoare_frame;
          [ exact same_refs_trans
          | solve [steps_walk same_refs_refl same_refs_trans call_same_refs]
          | intros ? ]).
    intros w5 n'' w9 [E1 E2] Hrun. unfold keeps in *.
    destruct Hw4 as [HH4 Hc4].
    apply bind_ok in Hrun as ([] & w6 & Hcommit & Hrun).
    apply (index_commit_on_branch _ name) in Hcommit
      as (HH6 & new & Hh6 & Hmsg & Hpar); [|congruence].
    apply bind_ok in Hrun as ([] & w7 & Hpush & Hrun).
    apply push_branch_ok in Hpush
      as (token & pushed & _ & Hpushed & _ & _ & Hor & Hh7 & HH7 & _).
    apply bind_ok in Hrun as ([] & w8 & Hs & Hrun).
    apply time_sleep_ok in Hs as ->.
    unfold ret in Hrun. injection Hrun as <- <-. world_simpl.
    rewrite Hh6, lookup_insert_eq in Hpushed. injection Hpushed as <-.
    unfold Q. world_simpl. split_and!; [done | congruence |].
    exists new. split_and!.
    + by rewrite Hh7, Hh6, lookup_insert_eq.
    + done.
    + by rewrite Hpar, E2, Hc4.
    + by rewrite Hor, lookup_insert_eq.
Qed.

Lemma new_branch_leaves_main_witness :
  heads (replay_cycle fork_args commit_today fork_world).2 !! "main"
  = heads fork_world !! "main"
  ∧ ∀ n w', replay_cycle fork_args commit_today fork_world = (Ok n, w') →
      n = "replay-c3"
      ∧ HEAD w' = OnBranch "replay-c3"
      ∧ ∃ new, heads w' !! "replay-c3" = Some new
               ∧ message new = "Committing " ++ hexsha commit_today
               ∧ parents new = [hexsha commit_today]
               ∧ origin_heads w' !! "replay-c3" = Some new.
Proof.
  apply (new_branch_leaves_main fork_args commit_today fork_world fork_world
           "replay-c3").
  - vm_compute. reflexivity.
  - vm_compute. reflexivity.
Defined.

Example new_branch_cycle_returns :
  (replay_cycle fork_args commit_today fork_world).1 = Ok "replay-c3".
Proof. vm_compute. reflexivity. Qed.

(** ** When the overlay is captured *)

Lemma overlay_steps_app t1 t2 :
  overlay_steps (t1 ++ t2) = (overlay_steps t1 ++ overlay_steps t2)%list.
Proof. apply omap_app. Qed.

Lemma overlay_steps_silent t : Forall silent t → overlay_steps t = [].
Proof.
  induction 1 as [|e t He _ IH]; [done|].
  unfold overlay_steps in *. unfold silent in He.
  destruct e; try discriminate He; exact IH.
Qed.

Lemma tracked_start w : tracked w [] w.
Proof. exists []. split; [unfold logged; by rewrite app_nil_r | done]. Qed.

Lemma tracked_then w0 xs w xs' w' :
  tracked w0 xs w → tracked w xs' w' → tracked w0 (xs ++ xs') w'.
Proof.
  intros (t & Ht & Hp) (t' & Ht' & Hp'). exists (t ++ t')%list. split.
  - unfold logged in *. by rewrite Ht', Ht, app_assoc.
  - by rewrite overlay_steps_app, Hp, Hp'.
Qed.

Lemma tracked_silent w0 xs w w' :
  tracked w0 xs w → appends silent w w' → tracked w0 xs w'.
Proof.
  intros HT (t' & Ht' & Hs).
  rewrite <- (app_nil_r xs). eapply tracked_then; [exact HT|].
  exists t'. split; [done | by apply overlay_steps_silent].
Qed.

Lemma tracked_one w w' e x :
  logged w w' [e] → overlay_step_of e = Some x → tracked w [x] w'.
Proof.
  intros Hlog He. exists [e]. split; [done|].
  unfold overlay_steps. simpl. by rewrite He.
Qed.

Ltac call_silent :=
  first
    [ apply appends_log; reflexivity
    | intros ?; unfold modify, read_clock, os_remove, os_makedirs,
        write_file, shutil_rmtree, shutil_copytree, move_head;
      repeat case_match; apply appends_same; reflexivity ].

Ltac walk_silent :=
  solve [steps_walk (appends_refl silent) (appends_trans silent) call_silent].

Lemma capture_overlay_ok folder w m w' :
  capture_overlay folder w = (Ok m, w') →
  ∃ main, heads w !! "main" = Some main
          ∧ capture_folder folder (tree main) [] = Ok m
          ∧ logged w w' [EvCapture m]
          ∧ cwd w' = cwd w ∧ fs w' = fs w.
Proof.
  unfold capture_overlay, main_tree_of_repo, get, raise, ret, log, modify, bind.
  destruct (heads w !! "main") as [main|] eqn:Em;
    cbv beta iota; [|discriminate].
  destruct (capture_folder folder (tree main) []) as [m'|e] eqn:Ec;
    cbv beta iota; [|discriminate].
  intros [= <- <-]. exists main. split_and!; done.
Qed.

Lemma git_reset_hard_ok c w w' :
  git_reset_hard c w = (Ok tt, w') →
  logged w w' [EvReset (hexsha c)] ∧ cwd w' = cwd w.
Proof.
  unfold git_reset_hard, switch_worktree, log, modify, bind.
  intros [= <-]. unfold logged, move_head.
  split; case_match; reflexivity.
Qed.

(** The overlay steps of a cycle that returns: the overlay is captured from
    the tree of the commit [main] is at when the cycle starts. *)
Lemma replay_cycle_overlay_steps a c w name w' :
  replay_cycle a c w = (Ok name, w') →
  ∃ main m,
    heads w !! "main" = Some main
    ∧ capture_folder (config_path a) (tree main) [] = Ok m
    ∧ tracked w (cycle_steps w c name m) w'.
Proof.
  intros Hrun.
  destruct (replay_cycle_name _ _ _ _ _ Hrun) as [w1 Hname].
  destruct (branch_name_ok _ _ _ _ _ Hname) as (Hh1 & _ & _ & _ & Ht1 & _).
  unfold replay_cycle in Hrun. rewrite (bind_run _ _ _ _ _ Hname) in Hrun.
  erewrite bind_run in Hrun by reflexivity.
  apply bind_ok in Hrun as ([] & w3 & Hco & Hrun).
  apply bind_ok in Hrun as ([] & w4 & Hcfg1 & Hrun).
  apply bind_ok in Hrun as ([] & w5 & Hcfg2 & Hrun).
  apply bind_ok in Hrun as (m & w6 & Hcap & Hrun).
  apply bind_ok in Hrun as ([] & w7 & Hreset & Hrun).
  (* the checkout *)
  assert (tracked w (if bool_decide (heads w !! name = None)
                     then [DidCheckout name "main"] else []) w3
          ∧ heads w3 !! "main" = heads w !! "main") as [HT3 Hm3].
  { rewrite Hh1 in Hco.
    assert (tracked w [] w1) as HT1.
    { exists []. split; [unfold logged; by rewrite Ht1, app_nil_r | done]. }
    destruct (heads w !! name) as [tip|] eqn:E.
    - rewrite bool_decide_eq_true_2 in Hco by eauto. simpl in Hco.
      unfold ret in Hco. injection Hco as <-.
      rewrite bool_decide_eq_false_2 by done. by rewrite Hh1.
    - rewrite bool_decide_eq_false_2 in Hco by (by intros [? ?]).
      simpl in Hco.
      apply git_checkout_B_ok in Hco as (tip & Htip & Hh & _ & _ & Hlog).
      rewrite bool_decide_eq_true_2 by done. split.
      + apply (tracked_then w [] w1); [done|].
        by apply (tracked_one _ _ (EvCheckout name "main")).
      + rewrite Hh, Hh1. apply lookup_insert_ne. intros ->.
        rewrite Hh1 in Htip. congruence. }
  (* the configuration *)
  assert (appends silent w3 w5 ∧ heads w5 = heads w3) as [Hs5 Hh5].
  { split.
    - eapply appends_trans; (eapply steps_run; [|eassumption]); walk_silent.
    - transitivity (heads w4);
        (eapply (steps_run (keeps heads)); [|eassumption]);
        steps_walk (keeps_refl heads) (keeps_trans heads) call_keeps. }
  (* the capture, the reset and the rest *)
  apply capture_overlay_ok in Hcap as (main & Hmain & Hm & Hlog6 & _).
  apply git_reset_hard_ok in Hreset as [Hlog7 _].
  assert (appends silent w7 w') as Hs'.
  { eapply steps_run; [|exact Hrun]. walk_silent. }
  exists main, m. split_and!.
  - by rewrite <- Hm3, <- Hh5.
  - done.
  - unfold cycle_steps. eapply tracked_silent; [|exact Hs'].
    eapply tracked_then; [eapply tracked_silent; [exact HT3 | exact Hs5]|].
    apply (tracked_then w5 [DidCapture m] w6 [DidReset (hexsha c)]).
    + by apply (tracked_one _ _ (EvCapture m)).
    + by apply (tracked_one _ _ (EvReset (hexsha c))).
Qed.

Lemma push_loop_cycles a commits : ∀ branches w done w',
  push_loop a commits branches w = (Ok done, w') →
  ∃ names steps,
    done = (branches ++ names)%list
    ∧ cycles a w commits names steps w'
    ∧ tracked w steps w'.
Proof.
  induction commits as [|c commits IH]; intros branches w done w'; simpl.
  - unfold ret. intros [= <- <-]. exists [], []. split_and!.
    + by rewrite app_nil_r.
    + constructor.
    + apply tracked_start.
  - intros H. apply bind_ok in H as (name & w1 & Hc & H).
    destruct (replay_cycle_overlay_steps _ _ _ _ _ Hc)
      as (main & m & Hmain & Hm & HT).
    apply IH in H as (names & steps & -> & Hcycles & HT').
    exists (name :: names), (cycle_steps w c name m ++ steps)%list.
    split_and!.
    + by rewrite <- app_assoc.
    + by econstructor.
    + by eapply tracked_then.
Qed.

(** C2, as the code has it.  In a run that returns, the overlay is
    captured once in every replay cycle, not once in the run.  The run goes
    through one cycle for every branch it returns, each starting where the
    one before it ended.  Each cycle takes the overlay afresh: it is what
    the capture yields for the tree of the commit [main] is at when that
    cycle starts.  And the checkouts, captures and resets the run logs are,
    cycle after cycle: a checkout of the cycle's branch from [main] exactly
    when that branch is not a local head yet, then the capture of that
    overlay, then the reset to the cycle's commit.  So every capture comes
    before the reset of its own cycle, and after the checkouts and resets of
    the cycles before it. *)
Theorem overlay_captured_in_every_cycle (a : args) (w w' : world)
    (branches : list string) :
  replay_commits a w = (Ok branches, w') →
  ∃ t w0 commits steps,
    logged w w' t
    ∧ overlay_steps t = steps
    ∧ heads w0 = heads w
    ∧ cycles a w0 commits branches steps w'.
Proof.
  intros Hrun.
  pose (R := λ w1 w2 : world, appends silent w1 w2 ∧ keeps heads w1 w2).
  assert (∀ w1 w2 w3, R w1 w2 → R w2 w3 → R w1 w3) as Rtrans.
  { intros w1 w2 w3 [H1 H2] [H3 H4]. split;
      [by eapply appends_trans | by eapply keeps_trans]. }
  assert (∀ A (m : io A), steps (appends silent) m → steps (keeps heads) m →
                          steps R m) as Rsteps.
  { intros A m H1 H2 w1. by split. }
  pose (Q := λ (bs : list string) (w' : world),
    ∃ w0 commits steps,
      tracked w steps w' ∧ heads w0 = heads w
      ∧ cycles a w0 commits bs steps w').
  cut (Q branches w').
  { intros (w0 & commits & steps & (t & Ht & Hp) & Hh & Hc).
    by exists t, w0, commits, steps. }
  refine (hoare_run (R w) _ Q w branches w' _ _ Hrun);
    [|split; [apply appends_refl | apply keeps_refl]].
  clear branches w' Hrun. unfold replay_commits.
  do 4 (apply hoare_frame;
        [ exact Rtrans
        | apply Rsteps;
          [ walk_silent
          | steps_walk (keeps_refl heads) (keeps_trans heads) call_keeps ]
        | intros ? ]).
  apply hoare_frame; [exact Rtrans | | intros commits].
  { unfold select_commits. apply Rsteps.
    - apply steps_bind; [exact (appends_trans silent)| |].
      + apply steps_collect_commits;
          [apply appends_refl | apply appends_trans | call_silent].
      + intros ?. apply steps_ret, appends_refl.
    - apply steps_bind; [exact (keeps_trans heads)| |].
      + apply steps_collect_commits;
          [apply keeps_refl | apply keeps_trans | call_keeps].
      + intros ?. apply steps_ret, keeps_refl. }
  do 2 (apply hoare_frame;
        [ exact Rtrans
        | apply Rsteps;
          [ walk_silent
          | steps_walk (keeps_refl heads) (keeps_trans heads) call_keeps ]
        | intros ? ]).
  intros w1 bs w2 [Hs Hh] H. unfold push_commits_one_by_one in H.
  apply push_loop_cycles in H as (names & steps & -> & Hc & HT').
  exists w1, commits, steps. split_and!; [|done..].
  apply (tracked_then w [] w1); [|done].
  eapply tracked_silent; [apply tracked_start | exact Hs].
Qed.

Lemma overlay_captured_in_every_cycle_witness :
  ∃ t w0 commits steps,
    logged fork_world (replay_commits fork_args fork_world).2 t
    ∧ overlay_steps t = steps
    ∧ heads w0 = heads fork_world
    ∧ cycles fork_args w0 commits ["replay-b2"; "replay-c3"] steps
             (replay_commits fork_args fork_world).2.
Proof.
  apply (overlay_captured_in_every_cycle fork_args fork_world
           (replay_commits fork_args fork_world).2 ["replay-b2"; "replay-c3"]).
  vm_compute. reflexivity.
Defined.

(** The overlay steps of the run over the two commits of the window: both
    cycles check out, capture the same overlay from [main] and reset. *)
Example overlay_steps_of_the_run :
  overlay_steps (trace (replay_commits fork_args fork_world).2)
  = [ DidCheckout "replay-b2" "main"; DidCapture fork_overlay;
      DidReset "b2";
      DidCheckout "replay-c3" "main"; DidCapture fork_overlay;
      DidReset "c3" ].
Proof. vm_compute. reflexivity. Qed.

(** C2 as stated fails: the run over the two commits of the window checks
    out the first branch before it captures anything, and captures a second
    time in the second cycle. *)
Lemma overlay_not_captured_once_up_front :
  phases (trace (replay_commits fork_args fork_world).2)
  = [PCheckout; PCapture; PReset; PCheckout; PCapture; PReset]
  ∧ ¬ captured_once_up_front
        (phases (trace (replay_commits fork_args fork_world).2)).
Proof.
  assert (E : phases (trace (replay_commits fork_args fork_world).2)
              = [PCheckout; PCapture; PReset; PCheckout; PCapture; PReset])
    by (vm_compute; reflexivity).
  split; [exact E|]. rewrite E. intros (rest & [=] & _).
Qed.

(** ** Plain paths *)

Lemma is_slash_true c : is_slash c = true → c = slash.
Proof. unfold is_slash. by intros ?%bool_decide_eq_true. Qed.

Lemma append_cons x (s t : string) : String x s ++ t = String x (s ++ t).
Proof. reflexivity. Qed.

Lemma append_empty (t : string) : "" ++ t = t.
Proof. reflexivity. Qed.

Ltac string_simpl := rewrite ?append_cons, ?append_empty; simpl.

Lemma is_empty_app_cons s c t : is_empty (s ++ String c t) = false.
Proof. by destruct s. Qed.

Lemma upto_last_slash_none c : has_slash c = false → upto_last_slash c = "".
Proof.
  induction c as [|x c IH]; simpl; [done|].
  intros [Hx Hc]%orb_false_elim. by rewrite Hx, IH.
Qed.

Lemma upto_last_slash_app q c :
  has_slash c = false →
  upto_last_slash (q ++ String slash c) = q ++ String slash "".
Proof.
  intros Hc. induction q as [|x q IH]; string_simpl.
  - by rewrite upto_last_slash_none.
  - rewrite IH, is_empty_app_cons. simpl. by rewrite orb_true_r.
Qed.

Lemma rstrip_slash_app q : rstrip_slash (q ++ String slash "") = rstrip_slash q.
Proof. induction q as [|x q IH]; string_simpl; [done|]. by rewrite IH. Qed.

Lemma rstrip_slash_id q : ends_with_slash q = false → rstrip_slash q = q.
Proof.
  induction q as [|x q IH]; [done|].
  destruct q as [|y q].
  - simpl. by intros ->.
  - intros H. change (rstrip_slash (String x (String y q)))
      with (let t := rstrip_slash (String y q) in
            if is_slash x && is_empty t then "" else String x t).
    rewrite IH by exact H. simpl. by rewrite andb_false_r.
Qed.

Lemma ends_with_slash_app s c t :
  ends_with_slash (s ++ String c t) = ends_with_slash (String c t).
Proof.
  induction s as [|x s IH]; [done|].
  change (String x s ++ String c t) with (String x (s ++ String c t)).
  destruct (s ++ String c t) eqn:E.
  - by destruct s.
  - rewrite <- IH. done.
Qed.

Lemma has_slash_ends c : has_slash c = false → ends_with_slash c = false.
Proof.
  induction c as [|x c IH]; [done|]. simpl.
  intros [Hx Hc]%orb_false_elim. destruct c; [done | by apply IH].
Qed.

Lemma valid_name_spec c :
  valid_name c = true →
  is_empty c = false ∧ has_slash c = false ∧ c ≠ "" ∧ c ≠ "." ∧ c ≠ "..".
Proof.
  unfold valid_name. intros H.
  repeat (apply andb_prop in H as [H ?]).
  repeat match goal with
         | H : negb _ = true |- _ => apply negb_true_iff in H
         | H : bool_decide _ = false |- _ => apply bool_decide_eq_false in H
         end.
  split_and!; try done. by destruct c.
Qed.

Lemma join_components_cons c cs :
  cs ≠ [] → join_components (c :: cs) = c ++ String slash (join_components cs).
Proof. by destruct cs. Qed.

Lemma append_assoc (s t u : string) : (s ++ t) ++ u = s ++ (t ++ u).
Proof. induction s as [|x s IH]; string_simpl; [done | by rewrite IH]. Qed.

Lemma join_components_snoc cs c :
  cs ≠ [] →
  join_components (cs ++ [c]) = join_components cs ++ String slash c.
Proof.
  induction cs as [|x cs IH]; [done|]. intros _.
  destruct cs as [|y cs]; [done|].
  change ((x :: y :: cs) ++ [c])%list with (x :: ((y :: cs) ++ [c]))%list.
  rewrite join_components_cons by done.
  rewrite IH by done. rewrite (join_components_cons x (y :: cs)) by done.
  rewrite append_assoc. by string_simpl.
Qed.

Lemma join_components_nonempty cs :
  cs ≠ [] → Forall (λ c, valid_name c = true) cs →
  is_empty (join_components cs) = false
  ∧ ends_with_slash (join_components cs) = false.
Proof.
  induction cs as [|x cs IH]; [done|]. intros _ Hv.
  apply Forall_cons in Hv as [Hx Hv].
  apply valid_name_spec in Hx as (He & Hs & _).
  destruct cs as [|y cs].
  - simpl. split; [done | by apply has_slash_ends].
  - rewrite join_components_cons by done.
    destruct (IH ltac:(done) Hv) as [IH1 IH2]. split.
    + apply is_empty_app_cons.
    + rewrite ends_with_slash_app.
      destruct (join_components (y :: cs)); [done | exact IH2].
Qed.

Lemma split_slash_nonempty s : split_slash s ≠ [].
Proof.
  destruct s as [|x s]; simpl; [done|].
  destruct (is_slash x); [done|]. by destruct (split_slash s).
Qed.

Lemma join_split_slash p : join_components (split_slash p) = p.
Proof.
  induction p as [|x p IH]; [done|]. simpl.
  destruct (is_slash x) eqn:Ex.
  - rewrite join_components_cons by apply split_slash_nonempty.
    rewrite IH. apply is_slash_true in Ex. by subst.
  - destruct (split_slash p) as [|h t] eqn:E;
      [by apply split_slash_nonempty in E|].
    destruct t as [|h' t].
    + simpl in *. by subst.
    + rewrite (join_components_cons (String x h) (h' :: t)) by done.
      rewrite (join_components_cons h (h' :: t)) in IH by done.
      rewrite append_cons. by rewrite IH.
Qed.

Lemma split_slash_name c : has_slash c = false → split_slash c = [c].
Proof.
  induction c as [|x c IH]; [done|]. simpl.
  intros [Hx Hc]%orb_false_elim. by rewrite Hx, IH.
Qed.

Lemma split_slash_app c s :
  has_slash c = false →
  split_slash (c ++ String slash s) = c :: split_slash s.
Proof.
  induction c as [|x c IH]; [done|]. string_simpl.
  intros [Hx Hc]%orb_false_elim. by rewrite Hx, IH.
Qed.

Lemma split_join_components cs :
  cs ≠ [] → Forall (λ c, valid_name c = true) cs →
  split_slash (join_components cs) = cs.
Proof.
  induction cs as [|x cs IH]; [done|]. intros _ Hv.
  apply Forall_cons in Hv as [Hx Hv].
  apply valid_name_spec in Hx as (_ & Hs & _).
  destruct cs as [|y cs].
  - by apply split_slash_name.
  - rewrite join_components_cons by done.
    rewrite split_slash_app by done. by rewrite IH.
Qed.

Lemma plain_path_components p :
  plain_path p = true → Forall (λ c, valid_name c = true) (split_slash p).
Proof.
  unfold plain_path. intros H. apply Forall_forall. intros c Hc.
  eapply forallb_forall in H; [exact H|]. by apply list_elem_of_In.
Qed.

Lemma fold_walk_components cs : ∀ acc,
  Forall (λ c, valid_name c = true) cs →
  fold_left walk_component cs acc = (acc ++ cs)%list.
Proof.
  induction cs as [|c cs IH]; intros acc Hv; simpl.
  - by rewrite app_nil_r.
  - apply Forall_cons in Hv as [Hc Hv].
    apply valid_name_spec in Hc as (_ & _ & H1 & H2 & H3).
    unfold walk_component. rewrite !bool_decide_false by done. simpl.
    rewrite IH by done. by rewrite <- app_assoc.
Qed.

(** A plain path names the location its components spell below the
    current directory. *)
Lemma resolve_plain cw p :
  plain_path p = true → resolve cw p = (cw ++ split_slash p)%list.
Proof.
  intros Hp. pose proof (plain_path_components _ Hp) as Hv.
  unfold resolve. rewrite fold_walk_components by done.
  destruct p as [|x p]; [done|]. simpl starts_with_slash.
  destruct (is_slash x) eqn:Ex; [|done].
  simpl in Hv. rewrite Ex in Hv. apply Forall_cons in Hv as [Hv _].
  discriminate.
Qed.

Lemma plain_path_join cs :
  cs ≠ [] → Forall (λ c, valid_name c = true) cs →
  plain_path (join_components cs) = true.
Proof.
  intros Hne Hv. unfold plain_path. rewrite split_join_components by done.
  apply forallb_forall. intros c Hc%list_elem_of_In.
  by eapply Forall_forall in Hv.
Qed.

(** The directory of a plain path with several components is the plain
    path of all but the last. *)
Lemma dirname_plain p cs c :
  plain_path p = true → split_slash p = (cs ++ [c])%list → cs ≠ [] →
  dirname p = join_components cs ∧ plain_path (dirname p) = true
  ∧ split_slash (dirname p) = cs.
Proof.
  intros Hp Hs Hne. pose proof (plain_path_components _ Hp) as Hv.
  rewrite Hs in Hv. apply Forall_app in Hv as [Hcs Hc].
  apply Forall_cons in Hc as [Hc _].
  apply valid_name_spec in Hc as (_ & Hslash & _).
  destruct (join_components_nonempty cs Hne Hcs) as [Hne' Hend].
  assert (E : dirname p = join_components cs).
  { rewrite <- (join_split_slash p), Hs, join_components_snoc by done.
    unfold dirname. rewrite upto_last_slash_app by done.
    rewrite rstrip_slash_app, rstrip_slash_id by done. by rewrite Hne'. }
  rewrite E. split_and!; [done | by apply plain_path_join |].
  by apply split_join_components.
Qed.

(** The directory of a single name is the empty path. *)
Lemma dirname_name p c :
  plain_path p = true → split_slash p = [c] → dirname p = "".
Proof.
  intros Hp Hs. pose proof (plain_path_components _ Hp) as Hv.
  rewrite Hs in Hv. apply Forall_cons in Hv as [Hc _].
  apply valid_name_spec in Hc as (_ & Hslash & _).
  rewrite <- (join_split_slash p), Hs. simpl.
  unfold dirname. by rewrite upto_last_slash_none.
Qed.

(** The location of a plain path is not at or above that of its
    directory. *)
Lemma plain_path_not_above_dirname cw p :
  plain_path p = true → is_empty (dirname p) = false →
  ¬ resolve cw p `prefix_of` resolve cw (dirname p).
Proof.
  intros Hp Hd.
  destruct (exists_last (split_slash_nonempty p)) as (cs & c & Hs).
  destruct cs as [|x cs].
  - rewrite (dirname_name p c) in Hd by done. discriminate.
  - destruct (dirname_plain p (x :: cs) c Hp Hs ltac:(done)) as (_ & Hpd & Hsd).
    rewrite !resolve_plain by done. rewrite Hs, Hsd.
    intros Hpre%prefix_length. rewrite !length_app in Hpre. simpl in Hpre. lia.
Qed.

Lemma resolve_plain_nonempty cw p :
  plain_path p = true → resolve cw p ≠ [] ∧ is_empty p = false
  ∧ wants_dir p = false.
Proof.
  intros Hp. rewrite resolve_plain by done.
  pose proof (plain_path_components _ Hp) as Hv.
  destruct (exists_last (split_slash_nonempty p)) as (cs & c & Hs).
  rewrite Hs in *. apply Forall_app in Hv as [_ Hc].
  apply Forall_cons in Hc as [Hc _].
  apply valid_name_spec in Hc as (_ & _ & H1 & H2 & H3).
  split_and!.
  - intros E. apply (f_equal length) in E. rewrite !length_app in E.
    simpl in E. lia.
  - destruct p; [|done]. simpl in Hs. destruct cs as [|? [|? ?]]; simplify_eq.
  - unfold wants_dir. rewrite Hs, last_last.
    by rewrite !bool_decide_false.
Qed.

(** ** What the file-system calls leave alone *)

Lemma mkdir_at_spec l f :
  (mkdir_at l f).2 = f
  ∨ ((mkdir_at l f).2 = <[l := Dir]> f ∧ f !! l = None).
Proof.
  unfold mkdir_at. destruct (stat f l) as [n|] eqn:E; [by left|].
  destruct (stat f (removelast l)) as [[c|]|]; simpl; [by left | | by left].
  right. split; [done|]. by destruct l.
Qed.

(** [makedirs] only adds directories, at or above its target, where there
    was nothing. *)
Lemma makedirs_rev_spec rl e : ∀ f k,
  (makedirs_rev rl e f).2 !! k = f !! k
  ∨ ((makedirs_rev rl e f).2 !! k = Some Dir ∧ f !! k = None
     ∧ k `prefix_of` rev rl).
Proof.
  induction rl as [|x rp IH]; intros f k.
  - simpl. destruct e; by left.
  - cbn [makedirs_rev].
    set (l := rev (x :: rp)).
    assert (Hl : rev rp `prefix_of` l) by (by exists [x]).
    destruct (match stat f (rev rp) with
              | Some _ => (Ok (), f)
              | None => makedirs_rev rp e f
              end) as [r f1] eqn:E1.
    assert (H1 : f1 !! k = f !! k
                 ∨ (f1 !! k = Some Dir ∧ f !! k = None ∧ k `prefix_of` l)).
    { destruct (stat f (rev rp)).
      - injection E1 as <- <-. by left.
      - specialize (IH f k). rewrite E1 in IH. simpl in IH.
        destruct IH as [IH|(? & ? & ?)]; [by left | right].
        split_and!; [done | done | by etrans]. }
    assert (H2 : ∀ r', (match mkdir_at l f1 with
                        | (Ok a, f2) => (Ok a, f2)
                        | (Raise e0, f2) =>
                            match stat f2 l with
                            | Some Dir =>
                                if e then (Ok (), f2) else (Raise e0, f2)
                            | _ => (Raise e0, f2)
                            end
                        end) = r' → r'.2 = (mkdir_at l f1).2).
    { intros r' <-. destruct (mkdir_at l f1) as [[a|e0] f2]; [done|].
      simpl. destruct (stat f2 l) as [[c|]|]; [done | by destruct e | done]. }
    assert (H3 : (mkdir_at l f1).2 !! k = f !! k
                 ∨ ((mkdir_at l f1).2 !! k = Some Dir ∧ f !! k = None
                    ∧ k `prefix_of` l)).
    { destruct (mkdir_at_spec l f1) as [->|[-> Hnone]]; [done|].
      destruct (decide (k = l)) as [->|Hne].
      - right. rewrite lookup_insert_eq. split_and!; [done | | done].
        destruct H1 as [<-|(? & _)]; [done | congruence].
      - by rewrite lookup_insert_ne. }
    destruct r as [[]|e0].
    + by rewrite (H2 _ eq_refl).
    + destruct (bool_decide (e0 = FileExistsError)).
      * by rewrite (H2 _ eq_refl).
      * done.
Qed.

Lemma keeps_file_refl cw l d w : keeps_file cw l d w w.
Proof. by intros ?. Qed.

Lemma keeps_file_trans cw l d w1 w2 w3 :
  keeps_file cw l d w1 w2 → keeps_file cw l d w2 w3 → keeps_file cw l d w1 w3.
Proof.
  intros H12 H23 H1. destruct (H12 H1) as [H2 F2].
  destruct (H23 H2) as [H3 F3]. auto.
Qed.

Lemma keeps_absent_refl cw l w : keeps_absent cw l w w.
Proof. by intros ?. Qed.

Lemma keeps_absent_trans cw l w1 w2 w3 :
  keeps_absent cw l w1 w2 → keeps_absent cw l w2 w3 → keeps_absent cw l w1 w3.
Proof.
  intros H12 H23 H1. destruct (H12 H1) as [H2 F2].
  destruct (H23 H2) as [H3 F3]. auto.
Qed.

Lemma os_remove_keeps_file cw l d s :
  resolve cw s ≠ l → steps (keeps_file cw l d) (os_remove s).
Proof.
  intros Hne w Hcw. unfold os_remove.
  destruct (lookup_path (fs w) (cwd w) s) as [[c|]|]; simpl;
    [|done|by case_match; [case_match|]].
  split; [done|]. rewrite Hcw. by rewrite lookup_delete_ne.
Qed.

Lemma os_remove_keeps_absent cw l s : steps (keeps_absent cw l) (os_remove s).
Proof.
  intros w Hcw. unfold os_remove.
  destruct (lookup_path (fs w) (cwd w) s) as [[c|]|]; simpl;
    [|done|by case_match; [case_match|]].
  split; [done|]. intros Hn. rewrite lookup_delete. by case_decide.
Qed.

Lemma os_makedirs_keeps_file cw l d s e :
  steps (keeps_file cw l d) (os_makedirs s e).
Proof.
  intros w Hcw. unfold os_makedirs. destruct (is_empty s); [done|].
  pose proof (makedirs_rev_spec (rev (resolve (cwd w) s)) e (fs w) l) as H.
  destruct (makedirs_rev _ e (fs w)) as [r f]. simpl in *.
  split; [done|]. intros Hf. destruct H as [->|(_ & ? & _)]; congruence.
Qed.

Lemma os_makedirs_keeps_absent cw l s e :
  (is_empty s = false → ¬ l `prefix_of` resolve cw s) →
  steps (keeps_absent cw l) (os_makedirs s e).
Proof.
  intros Hpre w Hcw. unfold os_makedirs.
  destruct (is_empty s) eqn:Es; [done|].
  pose proof (makedirs_rev_spec (rev (resolve (cwd w) s)) e (fs w) l) as H.
  destruct (makedirs_rev _ e (fs w)) as [r f]. simpl in *.
  split; [done|]. intros Hf. destruct H as [->|(_ & _ & Hp)]; [done|].
  rewrite rev_involutive, Hcw in Hp. by apply Hpre in Hp.
Qed.

Lemma write_file_keeps_file cw l d s x :
  resolve cw s ≠ l → steps (keeps_file cw l d) (write_file s x).
Proof.
  intros Hne w Hcw. unfold write_file.
  repeat case_match; simpl; try done;
    (split; [done|]; rewrite Hcw; by rewrite lookup_insert_ne).
Qed.

Lemma without_subtree_other l k f :
  ¬ l `prefix_of` k → without_subtree l f !! k = f !! k.
Proof.
  intros Hk. unfold without_subtree.
  destruct (f !! k) as [n|] eqn:E.
  - by apply map_lookup_filter_Some.
  - apply map_lookup_filter_None. left. done.
Qed.

Lemma transplant_other src dst f k :
  ¬ dst `prefix_of` k → transplant src dst f !! k = None.
Proof.
  intros Hk. unfold transplant. apply not_elem_of_list_to_map.
  rewrite <- list_fmap_compose. intros (kv & -> & _)%list_elem_of_fmap.
  apply Hk. simpl. by eexists.
Qed.

Lemma shutil_rmtree_keeps_file cw l d s :
  ¬ resolve cw s `prefix_of` l → steps (keeps_file cw l d) (shutil_rmtree s).
Proof.
  intros Hpre w Hcw. unfold shutil_rmtree.
  destruct (lookup_path (fs w) (cwd w) s) as [[c|]|]; simpl; [done| |done].
  split; [done|]. rewrite Hcw. by rewrite without_subtree_other.
Qed.

Lemma shutil_copytree_keeps_file cw l d src dst :
  ¬ resolve cw dst `prefix_of` l →
  steps (keeps_file cw l d) (shutil_copytree src dst).
Proof.
  intros Hpre w Hcw. unfold shutil_copytree.
  destruct (lookup_path (fs w) (cwd w) src) as [[c|]|]; simpl; [done| |done].
  destruct (is_empty dst); [done|].
  pose proof (makedirs_rev_spec (rev (resolve (cwd w) dst)) false (fs w) l) as H.
  destruct (makedirs_rev _ false (fs w)) as [[[]|e] f]; simpl in *.
  - split; [done|]. intros Hf.
    rewrite lookup_union_r by (rewrite Hcw; by apply transplant_other).
    destruct H as [->|(_ & ? & _)]; congruence.
  - split; [done|]. intros Hf. destruct H as [->|(_ & ? & _)]; congruence.
Qed.

(** ** Restoring the overlay *)

(** The calls that do not touch the file system. *)
Ltac call_keeps_file :=
  intros ? ?; unfold log, modify, read_clock, move_head;
  world_simpl; split_matches; simplify_eq; done.

Ltac call_fs_keeps_file :=
  first
    [ apply os_remove_keeps_file; assumption
    | apply os_makedirs_keeps_file
    | apply write_file_keeps_file; assumption
    | apply shutil_rmtree_keeps_file; assumption
    | apply shutil_copytree_keeps_file; assumption
    | call_keeps_file ].

(** Restoring another entry leaves the file at [l] alone, unless the entry
    names the same location or has it as its directory. *)
Lemma restore_entry_other cw l d q dq :
  resolve cw q ≠ l → resolve cw (dirname q) ≠ l →
  steps (keeps_file cw l d) (restore_entry (q, dq)).
Proof.
  intros Hq Hd. unfold restore_entry. cbn [fst snd]. cbv zeta.
  steps_walk (keeps_file_refl cw l d) (keeps_file_trans cw l d)
             call_fs_keeps_file.
Qed.

Ltac call_fs_keeps_absent :=
  first
    [ apply os_remove_keeps_absent
    | apply os_makedirs_keeps_absent; assumption ].

(** Restoring the entry of a plain path returns only after it has written
    the file. *)
Lemma restore_entry_writes p d w w' :
  plain_path p = true →
  restore_entry (p, d) w = (Ok tt, w') →
  cwd w' = cwd w ∧ fs w' !! resolve (cwd w) p = Some (File d).
Proof.
  intros Hp. set (l := resolve (cwd w) p).
  destruct (resolve_plain_nonempty (cwd w) p Hp) as (Hnil & Hne & Hwd).
  unfold restore_entry. cbn [fst snd]. cbv zeta. intros H.
  apply bind_ok in H as (present & w0 & H0 & H).
  unfold os_path_exists, get in H0. injection H0 as <- <-.
  apply bind_ok in H as ([] & w1 & H1 & H).
  (* the path is free once a file there has been removed *)
  assert (cwd w1 = cwd w ∧ fs w1 !! l = None) as [Hc1 Hf1].
  { case_bool_decide as Hex.
    - unfold os_remove in H1.
      destruct (lookup_path (fs w) (cwd w) p) as [[c|]|] eqn:E;
        [|discriminate|by destruct Hex].
      injection H1 as <-. simpl. split; [done|]. apply lookup_delete_eq.
    - unfold ret in H1. injection H1 as <-. split; [done|].
      rewrite lookup_path_at in Hex by done. fold l in Hex.
      destruct (fs w !! l) as [[c|]|]; [|by destruct Hex; eauto|done].
      rewrite Hwd in Hex. by destruct Hex; eauto. }
  unfold export_blob in H. cbv zeta in H.
  apply bind_ok in H as (present & w0 & H0 & H).
  unfold os_path_exists, get in H0. injection H0 as <- <-.
  assert (Hlook : lookup_path (fs w1) (cwd w1) p = None).
  { rewrite lookup_path_at by (by rewrite ?Hc1). rewrite Hc1. fold l.
    by rewrite Hf1. }
  rewrite Hlook in H.
  rewrite (bool_decide_false (is_Some None)) in H by (by intros []).
  apply bind_ok in H as ([] & w2 & H2 & H).
  (* the directories are made above the path, not at it *)
  assert (Habs : keeps_absent (cwd w) l w1 w2).
  { eapply steps_run; [|exact H2].
    assert (is_empty (dirname p) = false →
            ¬ l `prefix_of` resolve (cwd w) (dirname p))
      by (by apply plain_path_not_above_dirname).
    steps_walk (keeps_absent_refl (cwd w) l) (keeps_absent_trans (cwd w) l)
               call_fs_keeps_absent. }
  destruct (Habs Hc1) as [Hc2 Hf2]. specialize (Hf2 Hf1).
  apply bind_ok in H as (isdir & w3 & H3 & H).
  unfold os_path_isdir, get in H3. injection H3 as <- <-.
  assert (Hlook2 : lookup_path (fs w2) (cwd w2) p = None).
  { rewrite lookup_path_at by (by rewrite ?Hc2). rewrite Hc2. fold l.
    by rewrite Hf2. }
  rewrite Hlook2 in H. cbn [negb] in H. cbv beta iota in H.
  unfold write_file in H. rewrite Hne, Hc2 in H. fold l in H.
  destruct l as [|x r] eqn:El; [done|]. unfold stat at 1 in H.
  rewrite Hf2, Hwd in H.
  destruct (stat (fs w2) (removelast (x :: r))) as [[c|]|]; try discriminate.
  injection H as <-. simpl. split; [done|]. apply lookup_insert_eq.
Qed.

Lemma dict_set_keys (m : overlay) k v :
  fst <$> dict_set m k v = fst <$> m
  ∨ (¬ k ∈ m.*1) ∧ fst <$> dict_set m k v = ((fst <$> m) ++ [k])%list.
Proof.
  induction m as [|[k' v'] m IH]; csimpl.
  - right. split; [apply not_elem_of_nil | done].
  - case_bool_decide as Hk; csimpl.
    + left. by subst.
    + destruct IH as [->|[Hin ->]]; [by left | right]. split; [|done].
      intros [?|?]%elem_of_cons; [congruence | done].
Qed.

Lemma dict_set_NoDup m k v : NoDup m.*1 → NoDup (dict_set m k v).*1.
Proof.
  intros Hm. destruct (dict_set_keys m k v) as [->|[Hin ->]]; [done|].
  apply NoDup_app. split_and!; [done | | apply NoDup_singleton].
  intros x Hx ->%list_elem_of_singleton. done.
Qed.

Lemma capture_folder_NoDup folder items : ∀ m ov,
  NoDup m.*1 → capture_folder folder items m = Ok ov → NoDup ov.*1.
Proof.
  induction items as [|i items IH]; intros m ov Hm; simpl.
  - by intros [= <-].
  - destruct folder as [cfg|]; [|discriminate].
    destruct (String.prefix cfg (path i)); [|by apply IH].
    apply IH. by apply dict_set_NoDup.
Qed.

(** After the loop over the overlay has returned, an entry with a plain
    path that no later entry interferes with is on disk as captured. *)
Lemma restore_overlay_file p d : ∀ ov w w',
  NoDup ov.*1 →
  (p, d) ∈ ov →
  plain_path p = true →
  (∀ q, q ∈ ov.*1 → q ≠ p →
        resolve (cwd w) q ≠ resolve (cwd w) p
        ∧ resolve (cwd w) (dirname q) ≠ resolve (cwd w) p) →
  restore_overlay ov w = (Ok tt, w') →
  cwd w' = cwd w ∧ fs w' !! resolve (cwd w) p = Some (File d).
Proof.
  unfold restore_overlay.
  induction ov as [|[q dq] ov IH]; intros w w' Hnd Hin Hp Hothers Hrun.
  - by apply elem_of_nil in Hin.
  - simpl in Hrun. apply bind_ok in Hrun as ([] & w1 & H1 & Hrest).
    simpl in Hnd. apply NoDup_cons in Hnd as [Hq Hnd].
    apply elem_of_cons in Hin as [[= <- <-]|Hin].
    + apply restore_entry_writes in H1 as [Hc1 Hf1]; [|done].
      assert (Hk : keeps_file (cwd w) (resolve (cwd w) p) d w1 w').
      { eapply steps_run; [|exact Hrest].
        apply steps_for_each;
          [apply keeps_file_refl | apply keeps_file_trans |].
        intros [q dq] Hqin.
        assert (q ∈ ov.*1) by (apply list_elem_of_fmap; by exists (q, dq)).
        destruct (Hothers q) as [? ?]; [by right | by intros -> |].
        by apply restore_entry_other. }
      destruct (Hk Hc1) as [Hc Hf]. auto.
    + assert (Hc1 : cwd w1 = cwd w).
      { refine (_ : keeps cwd w w1). eapply steps_run; [|exact H1].
        steps_walk (@keeps_refl _ cwd) (@keeps_trans _ cwd) call_keeps. }
      rewrite <- Hc1.
      apply (IH w1 w'); try done.
      intros q' Hq' Hne. rewrite Hc1. apply Hothers; [by right | done].
Qed.

Lemma hoare_keep {A B C} (f : world → C) (v : C) (m : io A) (k : A → io B) Q :
  steps (keeps f) m →
  (∀ x, hoare (λ w, f w = v) (k x) Q) →
  hoare (λ w, f w = v) (bind m k) Q.
Proof.
  intros Hm Hk. apply hoare_bind with (M := λ _ w, f w = v); [|done].
  intros w x w' Hv H. rewrite <- Hv. by eapply (steps_run (keeps f)).
Qed.

Lemma replay_cycle_split a c w name w' :
  replay_cycle a c w = (Ok name, w') →
  ∃ wm, cycle_to_overlay a c w = (Ok name, wm)
        ∧ (do for_each [".circleci"] (restore_ci_folder a) in
           do git_add_all in
           do index_commit ("Committing " ++ hexsha c) in
           do push_branch a c name in
           do time_sleep (commit_delay a) in
           ret name) wm = (Ok name, w').
Proof.
  intros Hrun.
  destruct (replay_cycle_name _ _ _ _ _ Hrun) as [w1 Hname].
  unfold replay_cycle in Hrun. rewrite (bind_run _ _ _ _ _ Hname) in Hrun.
  apply bind_ok in Hrun as (known & w2 & H2 & Hrun).
  apply bind_ok in Hrun as ([] & w3 & H3 & Hrun).
  apply bind_ok in Hrun as ([] & w4 & H4 & Hrun).
  apply bind_ok in Hrun as ([] & w5 & H5 & Hrun).
  apply bind_ok in Hrun as (m & w6 & H6 & Hrun).
  apply bind_ok in Hrun as ([] & w7 & H7 & Hrun).
  apply bind_ok in Hrun as ([] & w8 & H8 & Hrun).
  exists w8. split; [|exact Hrun].
  unfold cycle_to_overlay.
  rewrite (bind_run _ _ _ _ _ Hname), (bind_run _ _ _ _ _ H2),
    (bind_run _ _ _ _ _ H3), (bind_run _ _ _ _ _ H4),
    (bind_run _ _ _ _ _ H5), (bind_run _ _ _ _ _ H6),
    (bind_run _ _ _ _ _ H7), (bind_run _ _ _ _ _ H8).
  reflexivity.
Qed.

(** C7, as the code has it.  Take a path captured in the overlay that is
    a file of [main]: a plain relative path that no other captured path
    names or has as its directory.  When the script runs from the root of
    the working tree and the cycle returns, the file at that path in the
    working tree has the captured bytes, provided the CI step does not copy
    over it: the path is outside the top-level [.circleci], or the CI step
    finds no directory [<config-path>/.circleci] to copy from when it
    starts. *)
Theorem overlay_files_restored (a : args) (c : commit) (w w' : world)
    (name : string) (main : commit) (ov : overlay) (p : string) (d : bytes) :
  replay_cycle a c w = (Ok name, w') →
  cwd w = root w →
  heads w !! "main" = Some main →
  capture_folder (config_path a) (tree main) [] = Ok ov →
  (p, d) ∈ ov →
  plain_path p = true →
  (∀ q, q ∈ ov.*1 → q ≠ p →
        resolve (cwd w) q ≠ resolve (cwd w) p
        ∧ resolve (cwd w) (dirname q) ≠ resolve (cwd w) p) →
  ¬ resolve (cwd w) (path_join (working_repo_dir a) ".circleci")
      `prefix_of` resolve (cwd w) p
  ∨ ci_source_found a (cycle_to_overlay a c w).2 = false →
  fs w' !! (root w ++ split_slash p)%list = Some (File d)
  ∧ lookup_path (fs w') (cwd w') p = Some (File d).
Proof.
  intros Hrun Hroot Hmain Hov Hin Hp Hothers Hci.
  rewrite <- Hroot, <- (resolve_plain (cwd w) p Hp).
  set (l := resolve (cwd w) p) in *.
  pose (f := λ w0 : world, (cwd w0, heads w0 !! "main")).
  pose (Q := λ (_ : string) (w' : world),
              cwd w' = cwd w ∧ fs w' !! l = Some (File d)).
  cut (Q name w').
  { intros [Hc Hf]. split; [done|].
    destruct (resolve_plain_nonempty (cwd w) p Hp) as (Hnil & Hne & Hwd).
    rewrite lookup_path_at by (by rewrite ?Hc). rewrite Hc. fold l.
    by rewrite Hf, Hwd. }
  destruct (replay_cycle_split _ _ _ _ _ Hrun) as (wm & Hmid & Hrest).
  rewrite Hmid in Hci. cbn [snd] in Hci.
  assert (Q name wm) as [Hcm Hfm].
  { refine (hoare_run (λ w0, f w0 = (cwd w, Some main)) _ Q w name wm _ _ Hmid);
      [|by unfold f; rewrite Hmain].
    unfold cycle_to_overlay.
    apply hoare_keep;
      [steps_walk (@keeps_refl _ f) (@keeps_trans _ f) call_keeps | intros n].
    apply hoare_keep;
      [steps_walk (@keeps_refl _ f) (@keeps_trans _ f) call_keeps
      | intros known].
    apply hoare_bind with (M := λ _ w0, f w0 = (cwd w, Some main)).
    { intros w0 [] w1 Hf. destruct known; simpl.
      - unfold ret. by intros [= <-].
      - intros (tip & Htip & Hh & _ & Hc & _)%git_checkout_B_ok.
        unfold f in *. injection Hf as Hc0 Hm0. rewrite Hc, Hc0, Hh.
        f_equal. destruct (decide (n = "main")) as [->|Hne].
        + rewrite lookup_insert_eq. congruence.
        + by rewrite lookup_insert_ne. }
    intros [].
    do 2 (apply hoare_keep;
          [steps_walk (@keeps_refl _ f) (@keeps_trans _ f) call_keeps
          | intros ?]).
    apply hoare_bind with (M := λ m w0, m = ov ∧ cwd w0 = cwd w).
    { intros w0 m w1 Hf (main' & Hm' & Hcap & _ & Hc & _)%capture_overlay_ok.
      unfold f in Hf. injection Hf as Hc0 Hm0. split; congruence. }
    intros m.
    apply hoare_bind with (M := λ _ w0, m = ov ∧ cwd w0 = cwd w).
    { intros w0 [] w1 [-> Hc0] [_ Hc]%git_reset_hard_ok. split; congruence. }
    intros [].
    apply hoare_bind with
      (M := λ _ w0, cwd w0 = cwd w ∧ fs w0 !! l = Some (File d)).
    { intros w0 [] w1 [-> Hc0] Hrestore.
      eapply restore_overlay_file in Hrestore as [Hc1 Hf1]; try done.
      - rewrite Hc0 in *. by split.
      - exact (capture_folder_NoDup _ _ [] ov
                 (NoDup_nil_2 : NoDup ([] : overlay).*1) Hov).
      - by rewrite Hc0. }
    intros []. intros w0 n' w1 HQ. unfold ret. by intros [= <- <-]. }
  unfold Q.
  cut (keeps_file (cwd w) l d wm w');
    [intros H; destruct (H Hcm) as [? ?]; auto|].
  destruct Hci as [Hci|Hci].
  - eapply steps_run; [|exact Hrest]. cbn [for_each].
    steps_walk (keeps_file_refl (cwd w) l d) (keeps_file_trans (cwd w) l d)
               call_fs_keeps_file.
  - apply bind_ok in Hrest as ([] & w9 & Hstep & Hrest).
    assert (w9 = wm) as ->.
    { cbn [for_each] in Hstep. unfold restore_ci_folder in Hstep.
      unfold ci_source_found in Hci.
      destruct (config_path a) as [cfg|]; [|discriminate Hstep].
      unfold os_path_isdir, get, ret, bind in Hstep.
      destruct (lookup_path (fs wm) (cwd wm) _) as [[x|]|];
        try discriminate Hci; by injection Hstep as <-. }
    eapply steps_run; [|exact Hrest].
    steps_walk (keeps_file_refl (cwd w) l d) (keeps_file_trans (cwd w) l d)
               call_fs_keeps_file.
Qed.

Lemma overlay_files_restored_witness :
  (fs (replay_cycle fork_args commit_today fork_world).2
     !! (root fork_world ++ split_slash "cfg/.circleci/config.yml")%list
   = Some (File (b "A"))
   ∧ lookup_path (fs (replay_cycle fork_args commit_today fork_world).2)
                 (cwd (replay_cycle fork_args commit_today fork_world).2)
                 "cfg/.circleci/config.yml"
     = Some (File (b "A")))
  ∧ (fs (replay_cycle ci_fork_args commit_today ci_fork_world).2
       !! (root ci_fork_world ++ split_slash ".circleci/config.yml")%list
     = Some (File (b "A"))
     ∧ lookup_path (fs (replay_cycle ci_fork_args commit_today ci_fork_world).2)
                   (cwd (replay_cycle ci_fork_args commit_today
                           ci_fork_world).2)
                   ".circleci/config.yml"
       = Some (File (b "A"))).
Proof.
  split.
  - apply (overlay_files_restored fork_args commit_today fork_world
             (replay_cycle fork_args commit_today fork_world).2
             "replay-c3" main_commit fork_overlay
             "cfg/.circleci/config.yml" (b "A")).
    + vm_compute. reflexivity.
    + reflexivity.
    + vm_compute. reflexivity.
    + vm_compute. reflexivity.
    + right. left.
    + vm_compute. reflexivity.
    + intros q Hq Hne. unfold fork_overlay in Hq. simpl in Hq.
      apply elem_of_cons in Hq as [->|Hq].
      * vm_compute. split; discriminate.
      * apply list_elem_of_singleton in Hq. contradiction.
    + left. apply (bool_decide_unpack _). vm_compute. exact I.
  - apply (overlay_files_restored ci_fork_args commit_today ci_fork_world
             (replay_cycle ci_fork_args commit_today ci_fork_world).2
             "replay-c3" ci_main_commit [(".circleci/config.yml", b "A")]
             ".circleci/config.yml" (b "A")).
    + vm_compute. reflexivity.
    + reflexivity.
    + vm_compute. reflexivity.
    + vm_compute. reflexivity.
    + left.
    + vm_compute. reflexivity.
    + intros q Hq Hne. simpl in Hq.
      apply list_elem_of_singleton in Hq. contradiction.
    + right. vm_compute. reflexivity.
Defined.

(** C7 as stated fails: the overlay of the fork also holds the directory
    [cfg/.circleci], captured with the bytes of its tree object; after the
    cycle that path is a directory again, not a file with those bytes. *)
Lemma captured_directory_is_not_restored_as_file :
  capture_folder (config_path fork_args) (tree main_commit) [] = Ok fork_overlay
  ∧ ("cfg/.circleci", b "100644 config.yml") ∈ fork_overlay
  ∧ (replay_cycle fork_args commit_today fork_world).1 = Ok "replay-c3"
  ∧ lookup_path (fs (replay_cycle fork_args commit_today fork_world).2)
                (cwd (replay_cycle fork_args commit_today fork_world).2)
                "cfg/.circleci"
    = Some Dir
  ∧ lookup_path (fs (replay_cycle fork_args commit_today fork_world).2)
                (cwd (replay_cycle fork_args commit_today fork_world).2)
                "cfg/.circleci"
    ≠ Some (File (b "100644 config.yml")).
Proof.
  split_and!.
  - vm_compute. reflexivity.
  - left.
  - vm_compute. reflexivity.
  - vm_compute. reflexivity.
  - vm_compute. discriminate.
Qed.

(** The end-to-end scenario of the overlay: [main] has [A] in the CI
    definition, upstream has [B]; after the replay it reads [A]. *)
Example ci_definition_comes_from_main :
  lookup_path (fs (replay_cycle fork_args commit_today fork_world).2)
              (cwd (replay_cycle fork_args commit_today fork_world).2)
              ".circleci/config.yml"
  = Some (File (b "A")).
Proof. vm_compute. reflexivity. Qed.

(** ** The run as a whole: the window, the remotes, the branches *)

Lemma window_prefix_mono c1 c2 walk :
  c2 ≤ c1 →
  ∃ more, window_prefix c2 walk = (window_prefix c1 walk ++ more)%list.
Proof.
  intros Hle. induction walk as [|c walk [more IH]]; simpl.
  - by exists [].
  - destruct (Z.ltb_spec (committed_day c) c1),
             (Z.ltb_spec (committed_day c) c2); try lia.
    + by exists [].
    + by exists (c :: window_prefix c2 walk).
    + exists more. by rewrite IH.
Qed.

Lemma select_commits_run today days walk w :
  clock_on_day today w → cutoff_representable today days →
  (select_commits days walk w).1
  = Ok (rev (window_prefix (today - days) walk)).
Proof.
  intros Hclock Hrep.
  pose proof (collect_commits_run today days walk [] w Hclock Hrep) as H.
  unfold select_commits, bind.
  destruct (collect_commits days walk [] w) as [r w1]. simpl in H. by subst r.
Qed.

(** X1.  A wider window keeps the selection and puts older commits in front
    of it: with the same clock and the same walk, the commits chosen for
    [days2 >= days1] are those chosen for [days1], in the same order, after
    some more commits. *)
Theorem wider_window_extends_selection (days1 days2 today : Z)
    (walk : list commit) (w : world) :
  clock_on_day today w →
  cutoff_representable today days1 →
  cutoff_representable today days2 →
  days1 ≤ days2 →
  ∃ sel older,
    (select_commits days1 walk w).1 = Ok sel
    ∧ (select_commits days2 walk w).1 = Ok (older ++ sel)%list.
Proof.
  intros Hclock H1 H2 Hle.
  destruct (window_prefix_mono (today - days1) (today - days2) walk)
    as [more E]; [lia|].
  exists (rev (window_prefix (today - days1) walk)), (rev more).
  rewrite !(select_commits_run today) by done.
  split; [done|]. by rewrite E, rev_app_distr.
Qed.

Lemma wider_window_extends_selection_witness :
  ∃ sel older,
    (select_commits 1 (upstream_main fork_world) fork_world).1 = Ok sel
    ∧ (select_commits 3 (upstream_main fork_world) fork_world).1
      = Ok (older ++ sel)%list.
Proof.
  apply (wider_window_extends_selection 1 3 day_2026_11_03).
  - intros k _. reflexivity.
  - split; [unfold max_delta_days; simpl; lia | reflexivity].
  - split; [unfold max_delta_days; simpl; lia | reflexivity].
  - lia.
Defined.

(** The step that adds the remote [upstream] returns whatever it finds, and
    touches the remote and the log only. *)
Lemma upstream_remote_step u w :
  ∃ t v, try_except (create_remote_upstream u) (λ _, true)
                    (print "Upstream remote already exists") w
         = (Ok tt, set_trace t (set_upstream_url v w)).
Proof.
  unfold try_except, create_remote_upstream, print, log, modify, get, raise,
    bind.
  destruct w as [? ? ? ? ? ? ? ? ? ? ? up ? ? ? ? ? ? ? ? ? tr].
  destruct up as [v|]; cbn; eauto.
Qed.




(** X3.  When the fetch from [upstream] fails, the run stops there with git's
    error: no branch, file or remote branch has been touched. *)
Theorem run_stops_when_fetch_fails (a : args) (w : world) :
  resolve (cwd w) (working_repo_dir a) = root w →
  upstream_reachable w = false →
  ∃ w', replay_commits a w = (Raise GitCommandError, w')
        ∧ heads w' = heads w ∧ HEAD w' = HEAD w
        ∧ fs w' = fs w ∧ index w' = index w
        ∧ origin_heads w' = origin_heads w ∧ origin_url w' = origin_url w.
Proof.
  intros Hroot Hup. unfold replay_commits.
  rewrite (bind_run _ _ w tt w)
    by (unfold open_repo, get, bind; by rewrite bool_decide_eq_true_2).
  destruct (upstream_remote_step (upstream_repo_url a) w) as (t & v & E).
  rewrite (bind_run _ _ _ _ _ E).
  erewrite bind_raise; cycle 1.
  { unfold fetch_upstream_main, log, modify, get, bind. world_simpl.
    rewrite Hup. reflexivity. }
  eexists. split; [reflexivity|]. by split_and!.
Qed.

Lemma run_stops_when_fetch_fails_witness :
  ∃ w', replay_commits fork_args unreachable_world
        = (Raise GitCommandError, w')
        ∧ heads w' = heads unreachable_world
        ∧ HEAD w' = HEAD unreachable_world
        ∧ fs w' = fs unreachable_world ∧ index w' = index unreachable_world
        ∧ origin_heads w' = origin_heads unreachable_world
        ∧ origin_url w' = origin_url unreachable_world.
Proof.
  apply (run_stops_when_fetch_fails fork_args unreachable_world);
    reflexivity.
Defined.

Lemma upstream_kept_refl w : upstream_kept w w.
Proof. by intros u. Qed.

Lemma upstream_kept_trans w1 w2 w3 :
  upstream_kept w1 w2 → upstream_kept w2 w3 → upstream_kept w1 w3.
Proof. intros H1 H2 u Hu. eauto. Qed.

Lemma steps_upstream_kept {A} (m : io A) :
  steps (keeps upstream_url) m → steps upstream_kept m.
Proof. intros H w u Hu. by rewrite (H w). Qed.

Lemma create_remote_upstream_kept u :
  steps upstream_kept (create_remote_upstream u).
Proof.
  intros w v Hv.
  unfold create_remote_upstream, get, raise, bind. by rewrite Hv.
Qed.

(** X4.  A remote named [upstream] that the repository already has is kept
    as it is, through the whole run and whatever its outcome: its URL stays,
    whatever [--upstream-repo-url] says. *)
Theorem existing_upstream_remote_is_kept (a : args) (w : world) (u : string) :
  upstream_url w = Some u →
  upstream_url (replay_commits a w).2 = Some u.
Proof.
  revert u. change (upstream_kept w (replay_commits a w).2).
  apply steps_apply.
  unfold replay_commits, open_repo, fetch_upstream_main, select_commits,
    push_commits_one_by_one.
  steps_walk_pre
    ltac:(first [ apply create_remote_upstream_kept
                | run_loops upstream_kept_refl upstream_kept_trans ])
    upstream_kept_refl upstream_kept_trans
    ltac:(apply steps_upstream_kept; call_keeps).
Qed.

Lemma existing_upstream_remote_is_kept_witness :
  upstream_url (replay_commits fork_args world_after_first_run).2
  = Some "https://github.com/up/stream.git".
Proof.
  apply (existing_upstream_remote_is_kept fork_args world_after_first_run).
  vm_compute. reflexivity.
Defined.

(** ** The branches a run makes and pushes *)

Lemma push_loop_names a commits : ∀ branches w done w',
  truthy (branch a) = true →
  push_loop a commits branches w = (Ok done, w') →
  done = (branches
          ++ ((λ c, (fmt (branch a) ++ "-" ++ hexsha c)%string) <$> commits))%list.
Proof.
  induction commits as [|c commits IH]; intros branches w done w' Hb; simpl.
  - unfold ret. intros [= <- _]. by rewrite app_nil_r.
  - intros H. apply bind_ok in H as (name & w1 & Hc & H).
    apply replay_cycle_name in Hc as [w2 Hn].
    unfold branch_name in Hn. rewrite Hb in Hn. injection Hn as <- _.
    apply IH in H; [|done]. by rewrite H, <- app_assoc.
Qed.

(** X5.  With [--branch BASE], a run of the loop that returns yields one
    branch name for every commit, in the order of the commits: [BASE],
    a dash and the commit's id.  Commits with different ids get different
    branches. *)
Theorem branches_named_after_commits (a : args) (commits : list commit)
    (w w' : world) (branches : list string) :
  truthy (branch a) = true →
  push_commits_one_by_one a commits w = (Ok branches, w') →
  branches = (λ c, fmt (branch a) ++ "-" ++ hexsha c) <$> commits
  ∧ (NoDup (hexsha <$> commits) → NoDup branches).
Proof.
  intros Hb H. apply push_loop_names in H; [|done]. simpl in H. subst.
  split; [done|]. intros Hnd.
  rewrite (list_fmap_compose hexsha (λ h, fmt (branch a) ++ "-" ++ h)).
  apply NoDup_fmap_2; [|done].
  intros h1 h2 E. by apply (inj _), (inj _) in E.
Qed.

Lemma branches_named_after_commits_witness :
  ["replay-b2"; "replay-c3"]
  = (λ c, fmt (branch fork_args) ++ "-" ++ hexsha c)
      <$> [commit_yesterday; commit_today]
  ∧ (NoDup (hexsha <$> [commit_yesterday; commit_today]) →
     NoDup ["replay-b2"; "replay-c3"]).
Proof.
  apply (branches_named_after_commits fork_args
           [commit_yesterday; commit_today] fork_world
           (push_commits_one_by_one fork_args
              [commit_yesterday; commit_today] fork_world).2).
  - reflexivity.
  - vm_compute. reflexivity.
Defined.

(** X6.  In one state of the world, two commits get the same branch name
    exactly when they have the same id, with or without [--branch]. *)
Theorem branch_name_tells_commits_apart (a : args) (c1 c2 : commit)
    (w w1 w2 : world) (n1 n2 : string) :
  branch_name a c1 w = (Ok n1, w1) →
  branch_name a c2 w = (Ok n2, w2) →
  n1 = n2 ↔ hexsha c1 = hexsha c2.
Proof.
  unfold branch_name, read_clock, get, ret, bind.
  destruct (truthy (branch a)); intros [= <- _] [= <- _].
  - split; [|by intros ->]. intros E. by apply (inj _), (inj _) in E.
  - split; [|by intros ->]. intros E. by do 3 apply (inj _) in E.
Qed.

Lemma branch_name_tells_commits_apart_witness :
  "replay-b2" = "replay-c3" ↔ hexsha commit_yesterday = hexsha commit_today.
Proof.
  apply (branch_name_tells_commits_apart fork_args commit_yesterday
           commit_today fork_world fork_world fork_world); reflexivity.
Defined.

Lemma origin_keeps_branches_refl w : origin_keeps_branches w w.
Proof. by intros n. Qed.

Lemma origin_keeps_branches_trans w1 w2 w3 :
  origin_keeps_branches w1 w2 → origin_keeps_branches w2 w3 →
  origin_keeps_branches w1 w3.
Proof. intros H1 H2 n Hn. eauto. Qed.

Lemma steps_origin_keeps_branches {A} (m : io A) :
  steps (keeps origin_heads) m → steps origin_keeps_branches m.
Proof. intros H w n Hn. by rewrite (H w). Qed.

Lemma git_push_force_origin name w :
  origin_heads (git_push_force name w).2 = origin_heads w
  ∨ ∃ tip, origin_heads (git_push_force name w).2
           = <[name := tip]> (origin_heads w).
Proof.
  unfold git_push_force, log, modify, get, raise, bind, id.
  cbv beta iota. world_simpl.
  destruct (origin_accepts w (origin_url w)); [|by left].
  destruct (heads w !! name) as [tip|]; [|by left].
  right. by exists tip.
Qed.

Lemma git_push_force_keeps_branches name :
  steps origin_keeps_branches (git_push_force name).
Proof.
  intros w n Hn.
  destruct (git_push_force_origin name w) as [-> | [tip ->]]; [done|].
  apply lookup_insert_is_Some. destruct (decide (name = n)); eauto.
Qed.

(** X7.  A run never takes a branch away from [origin]: every branch that
    [origin] has when the run starts it still has when the run ends, however
    the run ends. *)
Theorem origin_never_loses_a_branch (a : args) (w : world) (n : string) :
  is_Some (origin_heads w !! n) →
  is_Some (origin_heads (replay_commits a w).2 !! n).
Proof.
  revert n. change (origin_keeps_branches w (replay_commits a w).2).
  apply steps_apply.
  unfold replay_commits, open_repo, create_remote_upstream,
    fetch_upstream_main, select_commits, push_commits_one_by_one.
  steps_walk_pre
    ltac:(first [ apply git_push_force_keeps_branches
                | run_loops origin_keeps_branches_refl
                            origin_keeps_branches_trans ])
    origin_keeps_branches_refl origin_keeps_branches_trans
    ltac:(apply steps_origin_keeps_branches; call_keeps).
Qed.

Lemma origin_never_loses_a_branch_witness :
  is_Some (origin_heads (replay_commits fork_args world_after_first_run).2
             !! "replay-b2").
Proof.
  apply (origin_never_loses_a_branch fork_args world_after_first_run).
  vm_compute. eauto.
Defined.

Lemma origin_changes_only_refl name w : origin_changes_only name w w.
Proof. by intros n. Qed.

Lemma origin_changes_only_trans name w1 w2 w3 :
  origin_changes_only name w1 w2 → origin_changes_only name w2 w3 →
  origin_changes_only name w1 w3.
Proof. intros H1 H2 n Hn. by rewrite H2, H1. Qed.

Lemma steps_origin_changes_only {A} name (m : io A) :
  steps (keeps origin_heads) m → steps (origin_changes_only name) m.
Proof. intros H w n Hn. by rewrite (H w). Qed.

Lemma git_push_force_changes_only name :
  steps (origin_changes_only name) (git_push_force name).
Proof.
  intros w n Hn.
  destruct (git_push_force_origin name w) as [-> | [tip ->]]; [done|].
  by rewrite lookup_insert_ne.
Qed.

Lemma replay_cycle_origin_only (a : args) (c : commit) (w w1 : world)
    (name n : string) :
  branch_name a c w = (Ok name, w1) →
  n ≠ name →
  origin_heads (replay_cycle a c w).2 !! n = origin_heads w !! n.
Proof.
  intros Hname. revert n.
  change (origin_changes_only name w (replay_cycle a c w).2).
  unfold replay_cycle. rewrite (bind_run _ _ _ _ _ Hname).
  apply (origin_changes_only_trans name w w1).
  { intros n _. apply branch_name_ok in Hname. by rewrite (proj2 (proj2 (proj2 (proj2 (proj2 (proj2 Hname)))))). }
  apply steps_apply.
  steps_walk_pre
    ltac:(apply git_push_force_changes_only)
    (origin_changes_only_refl name) (origin_changes_only_trans name)
    ltac:(apply steps_origin_changes_only; call_keeps).
Qed.

(** X8.  A cycle changes [origin] at its own branch at most: every other
    branch of [origin] is where it was, however the cycle ends. *)
Theorem cycle_pushes_only_its_branch (a : args) (c : commit) (w w1 : world)
    (name n : string) :
  branch_name a c w = (Ok name, w1) →
  n ≠ name →
  origin_heads (replay_cycle a c w).2 !! n = origin_heads w !! n.
Proof. apply replay_cycle_origin_only. Qed.

Lemma cycle_pushes_only_its_branch_witness :
  origin_heads (replay_cycle fork_args commit_today world_after_first_run).2
    !! "replay-b2"
  = origin_heads world_after_first_run !! "replay-b2".
Proof.
  apply (cycle_pushes_only_its_branch fork_args commit_today
           world_after_first_run world_after_first_run "replay-c3").
  - reflexivity.
  - discriminate.
Defined.

(** ** What a cycle commits and pushes *)

Lemma git_reset_hard_head c w r w' :
  git_reset_hard c w = (r, w') →
  head_commit w' = Some c ∧ index w' = list_to_map (blobs (tree c)).
Proof.
  unfold git_reset_hard, switch_worktree, log, modify, bind.
  intros [= _ <-]. unfold head_commit, move_head. world_simpl.
  destruct (HEAD w) eqn:E; world_simpl; rewrite ?E;
    (split; [by rewrite ?lookup_insert_eq | done]).
Qed.

Lemma index_commit_head msg w w' :
  index_commit msg w = (Ok tt, w') →
  ∃ new, head_commit w' = Some new
         ∧ message new = msg
         ∧ parents new = match head_commit w with
                         | Some p => [hexsha p]
                         | None => []
                         end
         ∧ tree new = listing_of_index (index w)
         ∧ index w' = index w ∧ fs w' = fs w ∧ root w' = root w
         ∧ ignored w' = ignored w.
Proof.
  unfold index_commit, log, read_clock, modify, bind.
  intros [= <-]. unfold head_commit, move_head. world_simpl.
  destruct (HEAD w) eqn:E; world_simpl; rewrite ?E; eexists;
    (split; [by rewrite ?lookup_insert_eq|]); by split_and!.
Qed.

Lemma replay_cycle_commit (a : args) (c : commit) (w w' : world)
    (name : string) :
  replay_cycle a c w = (Ok name, w') →
  (∃ new, head_commit w' = Some new
          ∧ message new = "Committing " ++ hexsha c
          ∧ parents new = [hexsha c]
          ∧ tree new = listing_of_index (committable c w'))
  ∧ index w' = committable c w'
  ∧ is_Some (heads w' !! name)
  ∧ origin_heads w' !! name = heads w' !! name.
Proof.
  intros Hrun.
  pose (shape := λ w' : world,
    (∃ new, head_commit w' = Some new
            ∧ message new = "Committing " ++ hexsha c
            ∧ parents new = [hexsha c]
            ∧ tree new = listing_of_index (committable c w'))
    ∧ index w' = committable c w').
  pose (Q := λ (n : string) (w' : world),
    shape w' ∧ is_Some (heads w' !! n)
    ∧ origin_heads w' !! n = heads w' !! n).
  cut (Q name w').
  { intros ([? ?] & ? & ?). by split_and!. }
  refine (hoare_run (λ _, True) _ Q w name w' _ I Hrun).
  clear name w' Hrun. unfold replay_cycle.
  apply hoare_any; intros name.
  do 5 (apply hoare_any; intros ?).
  apply hoare_bind with
    (M := λ _ w1, reset_state w1 = (Some c, list_to_map (blobs (tree c)))).
  { intros w0 [] w1 _ H. apply git_reset_hard_head in H as [H1 H2].
    unfold reset_state. by rewrite H1, H2. }
  intros [].
  do 2 (apply hoare_keep;
        [ steps_walk (keeps_refl reset_state) (keeps_trans reset_state)
                     call_keeps | intros [] ]).
  apply hoare_bind with
    (M := λ _ w1, head_commit w1 = Some c ∧ index w1 = committable c w1).
  { intros w0 [] w1 Hc. unfold git_add_all, log, modify, bind.
    intros [= <-]. unfold reset_state in Hc. injection Hc as Hc Hi.
    split; [exact Hc|]. unfold committable, staged. world_simpl.
    by rewrite Hi. }
  intros [].
  apply hoare_bind with (M := λ _ w1, shape w1).
  { intros w0 [] w1 [Hc Hi] H.
    apply index_commit_head in H
      as (new & Hnew & Hm & Hp & Ht & Hi' & Hf & Hr & Hg).
    rewrite Hc in Hp.
    assert (committable c w1 = committable c w0) as E
      by (unfold committable; by rewrite Hf, Hr, Hg).
    unfold shape. rewrite E, Hi', <- Hi.
    split; [|done]. by exists new. }
  intros [].
  apply hoare_bind with (M := λ _ w1, Q name w1).
  { intros w0 [] w1 Hshape H.
    assert (committed_state w1 = committed_state w0) as Hk.
    { eapply (steps_run (keeps committed_state)); [|exact H].
      steps_walk (keeps_refl committed_state) (keeps_trans committed_state)
                 call_keeps. }
    apply push_branch_ok in H as (token & tip & _ & Htip & _ & _ & Ho & _).
    unfold committed_state in Hk.
    injection Hk as Hhc Hix Hrt Hfs Hhd Hig.
    assert (committable c w1 = committable c w0) as E
      by (unfold committable; by rewrite Hfs, Hrt, Hig).
    unfold Q, shape in *. split; [|split].
    - destruct Hshape as [(new & ? & ? & ? & ?) ?].
      rewrite Hhc, Hix, E. split; [|done]. by exists new.
    - rewrite Hhd. eauto.
    - by rewrite Ho, lookup_insert_eq, Hhd. }
  intros [].
  apply hoare_bind with (M := λ _ w1, Q name w1).
  { intros w0 [] w1 HQ H. apply time_sleep_ok in H. subst w1. exact HQ. }
  intros []. intros w0 n w1 HQ. unfold ret. by intros [= <- <-].
Qed.

(** X9.  Whatever [HEAD] is on, a cycle that returns leaves at [HEAD] a new
    commit with the message "Committing <id>" and the replayed commit as its
    only parent.  Its tree lists the index, which holds exactly the files
    then below the working tree that the replayed commit has as well or that
    git does not ignore.  And [origin] has the cycle's branch at the commit
    the local branch of this name is at. *)
Theorem cycle_commits_the_working_tree (a : args) (c : commit) (w w' : world)
    (name : string) :
  replay_cycle a c w = (Ok name, w') →
  (∃ new, head_commit w' = Some new
          ∧ message new = "Committing " ++ hexsha c
          ∧ parents new = [hexsha c]
          ∧ tree new = listing_of_index (committable c w'))
  ∧ index w' = committable c w'
  ∧ is_Some (heads w' !! name)
  ∧ origin_heads w' !! name = heads w' !! name.
Proof. apply replay_cycle_commit. Qed.

Lemma cycle_commits_the_working_tree_witness :
  (∃ new, head_commit (replay_cycle fork_args commit_today logging_world).2
          = Some new
          ∧ message new = "Committing " ++ hexsha commit_today
          ∧ parents new = [hexsha commit_today]
          ∧ tree new
            = listing_of_index
                (committable commit_today
                   (replay_cycle fork_args commit_today logging_world).2))
  ∧ index (replay_cycle fork_args commit_today logging_world).2
    = committable commit_today
        (replay_cycle fork_args commit_today logging_world).2
  ∧ is_Some (heads (replay_cycle fork_args commit_today logging_world).2
               !! "replay-c3")
  ∧ origin_heads (replay_cycle fork_args commit_today logging_world).2
      !! "replay-c3"
    = heads (replay_cycle fork_args commit_today logging_world).2
        !! "replay-c3".
Proof.
  apply (cycle_commits_the_working_tree fork_args commit_today logging_world).
  vm_compute. reflexivity.
Defined.

(** The log file that git ignores stays in the working tree and out of the
    commit. *)
Example ignored_file_is_not_committed :
  fs (replay_cycle fork_args commit_today logging_world).2
    !! ["fork"; "replay.log"] = Some (File (b "log"))
  ∧ index (replay_cycle fork_args commit_today logging_world).2
      !! ["replay.log"] = None
  ∧ index (replay_cycle fork_args commit_today logging_world).2
      !! ["README.md"] = Some (b "three").
Proof. vm_compute. split_and!; reflexivity. Qed.


Lemma git_config_sets dir key value w w' :
  git_config dir key value w = (Ok tt, w') →
  (key = "user.email" → user_email w' = value ∧ user_name w' = user_name w)
  ∧ (key = "user.name" → user_name w' = value ∧ user_email w' = user_email w).
Proof.
  unfold git_config, log, modify, get, raise, ret, bind.
  destruct (bool_decide _); [|discriminate].
  repeat case_bool_decide; intros [= <-]; split; intros ->; done.
Qed.

(** X10.  After a cycle that returns, the repository is configured with the
    author name "replay-bot" and an empty e-mail address, whatever it was
    configured with before. *)
Theorem cycle_sets_the_bot_identity (a : args) (c : commit) (w w' : world)
    (name : string) :
  replay_cycle a c w = (Ok name, w') →
  user_name w' = "replay-bot" ∧ user_email w' = "".
Proof.
  intros Hrun.
  pose (Q := λ (_ : string) (w' : world), identity w' = ("replay-bot", "")).
  cut (Q name w'). { unfold Q, identity. by intros [= -> ->]. }
  refine (hoare_run (λ _, True) _ Q w name w' _ I Hrun).
  clear name w' Hrun. unfold replay_cycle.
  do 3 (apply hoare_any; intros ?).
  apply hoare_bind with (M := λ _ w1, user_email w1 = "").
  { intros w0 [] w1 _ H. apply git_config_sets in H as [H _].
    by destruct (H eq_refl). }
  intros [].
  apply hoare_bind with (M := λ _ w1, identity w1 = ("replay-bot", "")).
  { intros w0 [] w1 He H. apply git_config_sets in H as [_ H].
    destruct (H eq_refl) as [Hn He']. unfold identity. congruence. }
  intros [].
  do 8 (apply hoare_keep;
        [ steps_walk (keeps_refl identity) (keeps_trans identity) call_keeps
        | intros ? ]).
  intros w0 n w1 HQ. unfold ret. by intros [= <- <-].
Qed.

Lemma cycle_sets_the_bot_identity_witness :
  user_name (replay_cycle fork_args commit_today fork_world).2 = "replay-bot"
  ∧ user_email (replay_cycle fork_args commit_today fork_world).2 = "".
Proof.
  apply (cycle_sets_the_bot_identity fork_args commit_today fork_world
           _ "replay-c3").
  vm_compute. reflexivity.
Defined.

(** ** The order of the commits and pushes *)

Lemma milestones_app t1 t2 :
  milestones (t1 ++ t2) = (milestones t1 ++ milestones t2)%list.
Proof. apply omap_app. Qed.

Lemma milestones_none t : Forall no_milestone t → milestones t = [].
Proof.
  induction 1 as [|e t He _ IH]; [done|].
  unfold milestones in *. simpl. unfold no_milestone in He. by rewrite He.
Qed.

Lemma reached_start w : reached w [] w.
Proof. exists []. split; [unfold logged; by rewrite app_nil_r | done]. Qed.

Lemma reached_then w0 ms w ms' w' :
  reached w0 ms w → reached w ms' w' → reached w0 (ms ++ ms') w'.
Proof.
  intros (t & Ht & Hp) (t' & Ht' & Hp'). exists (t ++ t')%list. split.
  - unfold logged in *. by rewrite Ht', Ht, app_assoc.
  - by rewrite milestones_app, Hp, Hp'.
Qed.

Lemma reached_quiet w0 ms w w' :
  reached w0 ms w → appends no_milestone w w' → reached w0 ms w'.
Proof.
  intros HT (t' & Ht' & Hs).
  rewrite <- (app_nil_r ms). eapply reached_then; [exact HT|].
  exists t'. split; [done | by apply milestones_none].
Qed.

Lemma hoare_quiet {A B} w0 ms (m : io A) (k : A → io B) Q :
  steps (appends no_milestone) m →
  (∀ x, hoare (reached w0 ms) (k x) Q) →
  hoare (reached w0 ms) (bind m k) Q.
Proof.
  intros Hm Hk. apply hoare_bind with (M := λ _, reached w0 ms); [|done].
  intros w x w' HT H. eapply reached_quiet; [exact HT|].
  by eapply steps_run.
Qed.

Lemma hoare_milestone {A B} w0 ms ms' (m : io A) (k : A → io B) Q :
  (∀ w x w', m w = (Ok x, w') → reached w ms' w') →
  (∀ x, hoare (reached w0 (ms ++ ms')) (k x) Q) →
  hoare (reached w0 ms) (bind m k) Q.
Proof.
  intros Hm Hk.
  apply hoare_bind with (M := λ _, reached w0 (ms ++ ms')); [|done].
  intros w x w' HT H. eapply reached_then; [exact HT|]. by eapply Hm.
Qed.

Ltac call_quiet :=
  first
    [ apply appends_log; reflexivity
    | intros ?; unfold modify, read_clock, os_remove, os_makedirs,
        write_file, shutil_rmtree, shutil_copytree, move_head;
      repeat case_match; apply appends_same; reflexivity ].

Ltac walk_quiet :=
  solve [steps_walk (appends_refl no_milestone) (appends_trans no_milestone)
                    call_quiet].

Lemma index_commit_logged msg w w' :
  index_commit msg w = (Ok tt, w') → logged w w' [EvCommit msg].
Proof.
  unfold index_commit, log, read_clock, modify, bind.
  intros [= <-]. unfold logged, move_head. world_simpl.
  by destruct (HEAD w).
Qed.

Lemma replay_cycle_milestones a c w name w' :
  replay_cycle a c w = (Ok name, w') →
  reached w (cycle_milestones c name) w'.
Proof.
  intros Hrun.
  refine (hoare_run (reached w []) _
            (λ n w', reached w (cycle_milestones c n) w')
            w name w' _ (reached_start w) Hrun).
  clear name w' Hrun. unfold replay_cycle.
  apply hoare_quiet; [walk_quiet | intros name].
  do 9 (apply hoare_quiet; [walk_quiet | intros ?]).
  apply hoare_milestone with (ms' := [Committed ("Committing " ++ hexsha c)]).
  { intros w0 [] w1 H. apply index_commit_logged in H. by eexists. }
  intros [].
  apply hoare_milestone with (ms' := [Pushed name]).
  { intros w0 [] w1 H.
    apply push_branch_ok in H as (token & tip & _ & _ & Hlog & _).
    by eexists. }
  intros [].
  apply hoare_quiet; [walk_quiet | intros ?].
  intros w0 n w1 HT. unfold ret. by intros [= <- <-].
Qed.

Lemma push_loop_milestones a commits : ∀ branches w done w',
  push_loop a commits branches w = (Ok done, w') →
  ∃ names, done = (branches ++ names)%list
           ∧ length names = length commits
           ∧ reached w (concat (zip_with cycle_milestones commits names)) w'.
Proof.
  induction commits as [|c commits IH]; intros branches w done w'; simpl.
  - unfold ret. intros [= <- <-]. exists []. split_and!.
    + by rewrite app_nil_r.
    + done.
    + apply reached_start.
  - intros H. apply bind_ok in H as (name & w1 & Hc & H).
    apply replay_cycle_milestones in Hc.
    apply IH in H as (names & -> & Hlen & HT).
    exists (name :: names). split_and!.
    + by rewrite <- app_assoc.
    + simpl. by rewrite Hlen.
    + change (reached w (cycle_milestones c name
                         ++ concat (zip_with cycle_milestones commits names))
                      w').
      by eapply reached_then.
Qed.

(** X11.  A run of the loop that returns has made, for every commit in turn,
    one commit with the message "Committing <id>" and then one push of that
    cycle's branch, and no other commit or push: the pushes come in the
    order of the commits, each after the commit of its own cycle and before
    the commit of the next. *)
Theorem one_commit_then_one_push_per_cycle (a : args) (commits : list commit)
    (w w' : world) (branches : list string) :
  push_commits_one_by_one a commits w = (Ok branches, w') →
  length branches = length commits
  ∧ ∃ t, logged w w' t
         ∧ milestones t
           = concat (zip_with cycle_milestones commits branches).
Proof.
  intros H. apply push_loop_milestones in H as (names & -> & Hlen & HT).
  simpl. split; [done|]. destruct HT as (t & Ht & Hm). by exists t.
Qed.

Lemma one_commit_then_one_push_per_cycle_witness :
  length ["replay-b2"; "replay-c3"]
  = length [commit_yesterday; commit_today]
  ∧ ∃ t, logged fork_world
           (push_commits_one_by_one fork_args
              [commit_yesterday; commit_today] fork_world).2 t
         ∧ milestones t
           = concat (zip_with cycle_milestones
                       [commit_yesterday; commit_today]
                       ["replay-b2"; "replay-c3"]).
Proof.
  apply (one_commit_then_one_push_per_cycle fork_args
           [commit_yesterday; commit_today] fork_world).
  vm_compute. reflexivity.
Defined.

(** ** [export_blob] and the overlay loop at the edges *)

Lemma dirname_no_slash p : has_slash p = false → dirname p = "".
Proof. intros H. unfold dirname. by rewrite (upto_last_slash_none p H). Qed.

Lemma os_makedirs_empty e w :
  os_makedirs "" e w = (Raise FileNotFoundError, w).
Proof. reflexivity. Qed.

Lemma export_blob_absent_top_level data p w :
  has_slash p = false →
  lookup_path (fs w) (cwd w) p = None →
  export_blob data p w = (Raise FileNotFoundError, w).
Proof.
  intros Hp Habs. unfold export_blob. cbv zeta.
  rewrite (dirname_no_slash p Hp).
  rewrite (bind_run _ _ w false w)
    by (unfold os_path_exists, get; rewrite Habs;
        by rewrite bool_decide_eq_false_2 by (by intros [? ?])).
  apply bind_raise. unfold try_except. by rewrite os_makedirs_empty.
Qed.

(** X12.  [export_blob] cannot write a new file whose path has no directory
    part: for a path without a slash at which nothing exists it raises
    [FileNotFoundError] and leaves everything as it is. *)
Theorem export_blob_needs_a_directory_part (data : bytes) (p : string)
    (w : world) :
  has_slash p = false →
  lookup_path (fs w) (cwd w) p = None →
  export_blob data p w = (Raise FileNotFoundError, w).
Proof. apply export_blob_absent_top_level. Qed.

Lemma export_blob_needs_a_directory_part_witness :
  export_blob (b "B") "LICENSE" fork_world
  = (Raise FileNotFoundError, fork_world).
Proof.
  apply (export_blob_needs_a_directory_part (b "B") "LICENSE" fork_world);
    reflexivity.
Defined.

Lemma restore_entry_top_level p d w :
  has_slash p = false →
  ∃ e w', restore_entry (p, d) w = (Raise e, w')
          ∧ match lookup_path (fs w) (cwd w) p with
            | Some (File _) =>
                e = FileNotFoundError
                ∧ fs w' = delete (resolve (cwd w) p) (fs w)
            | Some Dir => e = IsADirectoryError ∧ w' = w
            | None => e = FileNotFoundError ∧ w' = w
            end.
Proof.
  intros Hp. unfold restore_entry. cbn [fst snd]. cbv zeta.
  unfold os_path_exists at 1, get at 1, bind at 1 2.
  destruct (lookup_path (fs w) (cwd w) p) as [[old|]|] eqn:E.
  - rewrite bool_decide_eq_true_2 by eauto.
    rewrite (os_remove_file p w old E).
    destruct (lookup_path_file _ _ _ _ E) as (Hne & Hwd & Hnil & Hf).
    eexists _, _. split.
    + apply export_blob_absent_top_level; [done|]. world_simpl.
      rewrite lookup_path_at by done. by rewrite lookup_delete_eq.
    + done.
  - rewrite bool_decide_eq_true_2 by eauto.
    unfold os_remove. rewrite E. by eexists _, _.
  - rewrite bool_decide_eq_false_2 by (by intros [? ?]).
    unfold ret. rewrite (export_blob_absent_top_level d p w Hp E).
    by eexists _, _.
Qed.

(** X13.  The overlay loop cannot restore an entry whose path has no slash.
    Its pass for such an entry always raises; and when a regular file is at
    that path, the file has been removed by then and is not written
    again. *)
Theorem top_level_entry_is_not_restored (p : string) (d : bytes) (w : world) :
  has_slash p = false →
  ∃ e w', restore_entry (p, d) w = (Raise e, w')
          ∧ match lookup_path (fs w) (cwd w) p with
            | Some (File _) =>
                e = FileNotFoundError
                ∧ fs w' = delete (resolve (cwd w) p) (fs w)
            | Some Dir => e = IsADirectoryError ∧ w' = w
            | None => e = FileNotFoundError ∧ w' = w
            end.
Proof. apply restore_entry_top_level. Qed.

Lemma top_level_entry_is_not_restored_witness :
  ∃ e w', restore_entry ("README.md", b "mine") fork_world = (Raise e, w')
          ∧ match lookup_path (fs fork_world) (cwd fork_world) "README.md"
            with
            | Some (File _) =>
                e = FileNotFoundError
                ∧ fs w' = delete (resolve (cwd fork_world) "README.md")
                                 (fs fork_world)
            | Some Dir => e = IsADirectoryError ∧ w' = fork_world
            | None => e = FileNotFoundError ∧ w' = fork_world
            end.
Proof.
  apply (top_level_entry_is_not_restored "README.md" (b "mine") fork_world).
  reflexivity.
Defined.

Lemma for_each_ok_elem {A} (body : A → io unit) x : ∀ xs w w',
  for_each xs body w = (Ok tt, w') → x ∈ xs →
  ∃ w1 w2, body x w1 = (Ok tt, w2).
Proof.
  induction xs as [|y xs IH]; intros w w' H Hin; [by inversion Hin|].
  simpl in H. apply bind_ok in H as ([] & w1 & Hy & H).
  apply elem_of_cons in Hin as [->|Hin]; eauto.
Qed.

Lemma hoare_false {A} (m : io A) Q : hoare (λ _, False) m Q.
Proof. by intros ? ? ? []. Qed.

(** X14.  When the overlay captured from [main] holds an entry whose path
    has no slash, as it does for [--config-path cfg] where [cfg] is a
    directory of [main], no cycle returns: each one raises, in the overlay
    loop at the latest. *)
Theorem top_level_overlay_entry_stops_the_cycle (a : args) (c : commit)
    (w : world) (main : commit) (ov : overlay) (p : string) :
  heads w !! "main" = Some main →
  capture_folder (config_path a) (tree main) [] = Ok ov →
  p ∈ ov.*1 →
  has_slash p = false →
  ∃ e, (replay_cycle a c w).1 = Raise e.
Proof.
  intros Hmain Hov Hin Hp.
  destruct (replay_cycle a c w) as [[name|e] w'] eqn:Hrun; [|by exists e].
  exfalso.
  pose (f := λ w0 : world, heads w0 !! "main").
  refine (hoare_run (λ w0, f w0 = Some main) _ (λ _ _, False)
            w name w' _ Hmain Hrun).
  clear name w' Hrun. unfold replay_cycle.
  apply hoare_keep;
    [steps_walk (@keeps_refl _ f) (@keeps_trans _ f) call_keeps | intros name].
  apply hoare_keep;
    [steps_walk (@keeps_refl _ f) (@keeps_trans _ f) call_keeps | intros known].
  apply hoare_bind with (M := λ _ w0, f w0 = Some main).
  { intros w0 [] w1 Hf. destruct known; simpl.
    - unfold ret. by intros [= <-].
    - intros (tip & Htip & Hh & _)%git_checkout_B_ok.
      unfold f in *. rewrite Hh.
      destruct (decide (name = "main")) as [->|Hne].
      + rewrite lookup_insert_eq. congruence.
      + by rewrite lookup_insert_ne. }
  intros [].
  do 2 (apply hoare_keep;
        [steps_walk (@keeps_refl _ f) (@keeps_trans _ f) call_keeps
        | intros ?]).
  apply hoare_bind with (M := λ m _, m = ov).
  { intros w0 m w1 Hf (main' & Hm' & Hcap & _)%capture_overlay_ok.
    unfold f in Hf. congruence. }
  intros m.
  apply hoare_bind with (M := λ _ _, m = ov).
  { by intros w0 [] w1 -> _. }
  intros [].
  apply hoare_bind with (M := λ _ _, False); [|intros; apply hoare_false].
  intros w0 [] w1 -> Hrestore.
  apply list_elem_of_fmap in Hin as ([q d] & -> & Hin).
  destruct (for_each_ok_elem restore_entry (q, d) _ _ _ Hrestore Hin)
    as (w2 & w3 & Hok).
  destruct (restore_entry_top_level q d w2 Hp) as (e & w4 & Hraise & _).
  congruence.
Qed.

Lemma top_level_overlay_entry_stops_the_cycle_witness :
  ∃ e, (replay_cycle fork_args_bare commit_today fork_world).1 = Raise e.
Proof.
  apply (top_level_overlay_entry_stops_the_cycle fork_args_bare commit_today
           fork_world main_commit fork_overlay_bare "cfg").
  - reflexivity.
  - vm_compute. reflexivity.
  - left.
  - reflexivity.
Defined.

(** ** [export_blob] where the directory is missing or a file is in the way *)

Lemma no_file_above_spec f l pre x :
  no_file_above f l = true → pre `prefix_of` l → f !! pre ≠ Some (File x).
Proof.
  unfold no_file_above. rewrite forallb_forall. intros H [r ->] E.
  specialize (H (length pre)).
  rewrite take_app_length in H. unfold is_file in H. rewrite E in H.
  discriminate H. apply in_seq. rewrite length_app. lia.
Qed.

Lemma stat_not_file f l :
  (∀ x, f !! l ≠ Some (File x)) → stat f l = None ∨ stat f l = Some Dir.
Proof.
  intros H. destruct l as [|c l]; [by right|]. simpl.
  destruct (f !! (c :: l)) as [[x|]|] eqn:E; [by destruct (H x) | by right | by left].
Qed.

(** [os.makedirs(.., exist_ok=True)] succeeds when no regular file is in
    its way, and the location is a directory afterwards. *)
Lemma makedirs_rev_ok rl : ∀ f,
  (∀ pre x, pre `prefix_of` rev rl → f !! pre ≠ Some (File x)) →
  ∃ f', makedirs_rev rl true f = (Ok tt, f') ∧ stat f' (rev rl) = Some Dir.
Proof.
  induction rl as [|c rp IH]; intros f Hway; [by exists f|].
  cbn [makedirs_rev].
  assert (∃ f1, match stat f (rev rp) with
                | None => makedirs_rev rp true f
                | Some _ => (Ok tt, f)
                end = (Ok tt, f1)
                ∧ stat f1 (rev rp) = Some Dir
                ∧ (∀ x, f1 !! rev (c :: rp) ≠ Some (File x)))
    as (f1 & -> & Hdir & Hleaf).
  { destruct (stat_not_file f (rev rp)) as [E|E].
    - intros x. apply Hway. simpl. by apply prefix_app_r.
    - rewrite E. destruct (IH f) as (f1 & E1 & Hd).
      { intros pre x Hpre. apply Hway. simpl. by apply prefix_app_r. }
      exists f1. split_and!; [done..|]. intros x.
      pose proof (makedirs_rev_spec rp true f (rev (c :: rp))) as Hs.
      rewrite E1 in Hs. simpl in Hs. simpl.
      destruct Hs as [Hs | (_ & _ & Hpre)].
      + rewrite Hs. by apply Hway.
      + apply prefix_length in Hpre. rewrite length_app in Hpre.
        simpl in Hpre. lia.
    - rewrite E. exists f. split_and!; [done..|]. intros x. by apply Hway. }
  assert (rev (c :: rp) ≠ []) as Hne by (simpl; by destruct (rev rp)).
  assert (removelast (rev (c :: rp)) = rev rp) as Hparent
    by (simpl; apply removelast_last).
  unfold mkdir_at. rewrite Hparent, Hdir.
  destruct (stat_not_file f1 (rev (c :: rp)) Hleaf) as [E|E]; rewrite E.
  - eexists. split; [reflexivity|].
    destruct (rev (c :: rp)); [done|]. simpl. by rewrite lookup_insert_eq.
  - rewrite E. by exists f1.
Qed.

Lemma resolve_dirname p cs c cw :
  plain_path p = true → split_slash p = (cs ++ [c])%list → cs ≠ [] →
  resolve cw p = (cw ++ cs ++ [c])%list
  ∧ resolve cw (dirname p) = (cw ++ cs)%list
  ∧ is_empty (dirname p) = false
  ∧ wants_dir (dirname p) = false.
Proof.
  intros Hp Hs Hcs.
  destruct (dirname_plain p cs c Hp Hs Hcs) as (_ & Hd & Hsd).
  destruct (resolve_plain_nonempty cw (dirname p) Hd) as (_ & ? & ?).
  by rewrite (resolve_plain cw p Hp), (resolve_plain cw _ Hd), Hs, Hsd.
Qed.

Lemma not_prefix_longer {A} (l r : list A) :
  r ≠ [] → ¬ (l ++ r)%list `prefix_of` l.
Proof.
  intros Hr Hpre. apply prefix_length in Hpre. rewrite length_app in Hpre.
  destruct r; [done|]. simpl in Hpre. lia.
Qed.

(** X15.  Where nothing is at the destination and no regular file is at a
    directory above it, [export_blob] makes the missing directories and
    writes the file; nothing that was there is lost, and nothing changes off
    the way to the destination. *)
Theorem export_blob_makes_the_directories (data : bytes) (p : string)
    (cs : list string) (c : string) (w : world) :
  plain_path p = true →
  split_slash p = (cs ++ [c])%list →
  cs ≠ [] →
  fs w !! (cwd w ++ cs ++ [c])%list = None →
  no_file_above (fs w) (cwd w ++ cs)%list = true →
  ∃ w', export_blob data p w = (Ok tt, w')
        ∧ fs w' !! (cwd w ++ cs ++ [c])%list = Some (File data)
        ∧ stat (fs w') (cwd w ++ cs)%list = Some Dir
        ∧ (∀ k x, fs w !! k = Some x → fs w' !! k = Some x)
        ∧ (∀ k, ¬ k `prefix_of` (cwd w ++ cs ++ [c])%list →
                fs w' !! k = fs w !! k).
Proof.
  intros Hp Hs Hcs Habs Hway.
  destruct (resolve_dirname p cs c (cwd w) Hp Hs Hcs)
    as (Hl & Hd & Hde & Hdw).
  destruct (resolve_plain_nonempty (cwd w) p Hp) as (Hnil & Hne & Hwd).
  set (l := (cwd w ++ cs ++ [c])%list) in *.
  pose proof Hnil as Hnil'. rewrite Hl in Hnil'.
  destruct (makedirs_rev_ok (rev (cwd w ++ cs)) (fs w))
    as (f' & Hmk & Hdir).
  { intros pre x. rewrite rev_involutive. by apply no_file_above_spec. }
  rewrite rev_involutive in Hdir.
  assert (∀ k, f' !! k = fs w !! k
               ∨ (f' !! k = Some Dir ∧ fs w !! k = None
                  ∧ k `prefix_of` (cwd w ++ cs)%list)) as Hspec.
  { intros k.
    pose proof (makedirs_rev_spec (rev (cwd w ++ cs)) true (fs w) k) as H.
    by rewrite Hmk, rev_involutive in H. }
  assert (f' !! l = None) as Habs'.
  { destruct (Hspec l) as [-> | (_ & _ & Hpre)]; [done|].
    unfold l in Hpre. rewrite app_assoc in Hpre.
    by apply not_prefix_longer in Hpre. }
  unfold export_blob. cbv zeta.
  rewrite (bind_run _ _ w false w); cycle 1.
  { unfold os_path_exists, get. rewrite lookup_path_at by done.
    rewrite Hl, Habs. by rewrite bool_decide_eq_false_2 by (by intros [? ?]). }
  rewrite (bind_run _ _ w tt (set_fs f' w)); cycle 1.
  { unfold try_except, os_makedirs. by rewrite Hde, Hd, Hmk. }
  rewrite (bind_run _ _ _ false (set_fs f' w)); cycle 1.
  { unfold os_path_isdir, get. world_simpl.
    rewrite lookup_path_at by done. by rewrite Hl, Habs'. }
  cbn [negb]. cbv beta iota.
  rewrite write_file_fresh; world_simpl; rewrite ?Hl; try done; cycle 1.
  { unfold l. rewrite app_assoc, removelast_last. exact Hdir. }
  eexists. split; [reflexivity|]. world_simpl. split_and!.
  - by rewrite lookup_insert_eq.
  - assert ((cwd w ++ cs)%list ≠ l) as Hne'.
    { unfold l. rewrite app_assoc. intros E.
      apply (f_equal length) in E. rewrite !length_app in E. simpl in E.
      lia. }
    destruct (cwd w ++ cs)%list eqn:E; [done|]. simpl.
    rewrite lookup_insert_ne by done. exact Hdir.
  - intros k x Hk.
    assert (k ≠ l) by congruence. rewrite lookup_insert_ne by done.
    destruct (Hspec k) as [-> | (_ & ? & _)]; congruence.
  - intros k Hk.
    assert (k ≠ l) by (by intros ->). rewrite lookup_insert_ne by done.
    destruct (Hspec k) as [-> | (_ & _ & Hpre)]; [done|].
    destruct Hk. unfold l. rewrite app_assoc. by apply prefix_app_r.
Qed.

Lemma export_blob_makes_the_directories_witness :
  ∃ w', export_blob (b "B") "docs/guide/intro.md" fork_world = (Ok tt, w')
        ∧ fs w' !! (cwd fork_world ++ ["docs"; "guide"] ++ ["intro.md"])%list
          = Some (File (b "B"))
        ∧ stat (fs w') (cwd fork_world ++ ["docs"; "guide"])%list = Some Dir
        ∧ (∀ k x, fs fork_world !! k = Some x → fs w' !! k = Some x)
        ∧ (∀ k, ¬ k `prefix_of`
                    (cwd fork_world ++ ["docs"; "guide"] ++ ["intro.md"])%list →
                fs w' !! k = fs fork_world !! k).
Proof.
  apply (export_blob_makes_the_directories (b "B") "docs/guide/intro.md"
           ["docs"; "guide"] "intro.md" fork_world).
  - reflexivity.
  - reflexivity.
  - discriminate.
  - vm_compute. reflexivity.
  - vm_compute. reflexivity.
Defined.

(** ** A file where a directory is needed *)

Lemma makedirs_rev_file_in_way l x f :
  f !! l = Some (File x) → l ≠ [] →
  stat f (removelast l) = Some Dir →
  makedirs_rev (rev l) true f = (Raise FileExistsError, f).
Proof.
  intros Hf Hne Hparent.
  destruct l as [|c lp _] using rev_ind; [done|].
  rewrite removelast_last in Hparent.
  rewrite rev_unit. cbn [makedirs_rev]. cbv zeta.
  rewrite rev_involutive, Hparent. unfold mkdir_at.
  assert (stat f (rev (c :: rev lp)) = Some (File x)) as E.
  { simpl. rewrite rev_involutive. by destruct lp. }
  by rewrite !E.
Qed.

Lemma makedirs_rev_new l e f :
  f !! l = None → l ≠ [] →
  stat f (removelast l) = Some Dir →
  makedirs_rev (rev l) e f = (Ok tt, <[l := Dir]> f).
Proof.
  intros Hf Hne Hparent.
  destruct l as [|c lp _] using rev_ind; [done|].
  rewrite removelast_last in Hparent.
  rewrite rev_unit. cbn [makedirs_rev]. cbv zeta.
  rewrite rev_involutive, Hparent. unfold mkdir_at.
  assert (rev (c :: rev lp) = (lp ++ [c])%list) as ->
    by (simpl; by rewrite rev_involutive).
  assert (stat f (lp ++ [c]) = None) as -> by (by destruct lp).
  by rewrite removelast_last, Hparent.
Qed.

(** X16.  Where a regular file is at the place of the directory that is to
    hold the destination, [export_blob] removes that file, makes the
    directory in its place and writes the destination into it; nothing else
    changes. *)
Theorem export_blob_replaces_a_file_in_the_way (data old : bytes) (p : string)
    (cs : list string) (c : string) (w : world) :
  plain_path p = true →
  split_slash p = (cs ++ [c])%list →
  cs ≠ [] →
  fs w !! (cwd w ++ cs)%list = Some (File old) →
  stat (fs w) (removelast (cwd w ++ cs)) = Some Dir →
  fs w !! (cwd w ++ cs ++ [c])%list = None →
  ∃ w', export_blob data p w = (Ok tt, w')
        ∧ fs w' = <[(cwd w ++ cs ++ [c])%list := File data]>
                    (<[(cwd w ++ cs)%list := Dir]> (fs w)).
Proof.
  intros Hp Hs Hcs Hfile Hup Habs.
  destruct (resolve_dirname p cs c (cwd w) Hp Hs Hcs)
    as (Hl & Hd & Hde & Hdw).
  destruct (resolve_plain_nonempty (cwd w) p Hp) as (Hnil & Hne & Hwd).
  set (l := (cwd w ++ cs ++ [c])%list) in *.
  set (d := (cwd w ++ cs)%list) in *.
  assert (d ≠ []) as Hdne by (unfold d; destruct (cwd w), cs; done).
  assert (removelast l = d) as Hparent
    by (unfold l, d; by rewrite app_assoc, removelast_last).
  assert (l ≠ d) as Hld.
  { rewrite <- Hparent. intros E. by apply (removelast_ne l); [congruence|]. }
  unfold export_blob. cbv zeta.
  rewrite (bind_run _ _ w false w); cycle 1.
  { unfold os_path_exists, get. rewrite lookup_path_at by done.
    rewrite Hl, Habs. by rewrite bool_decide_eq_false_2 by (by intros [? ?]). }
  set (w1 := set_fs (delete d (fs w)) w).
  set (w2 := set_fs (<[d := Dir]> (delete d (fs w))) w).
  rewrite (bind_run _ _ w tt w2); cycle 1.
  { unfold try_except, os_makedirs at 1. rewrite Hde, Hd.
    rewrite (makedirs_rev_file_in_way d old) by done.
    rewrite bool_decide_eq_true_2 by done.
    rewrite (bind_run _ _ _ tt w1); cycle 1.
    { erewrite os_remove_file; world_simpl; [by rewrite Hd|].
      rewrite lookup_path_at by (by rewrite ?Hd). by rewrite Hd, Hfile, Hdw. }
    unfold os_makedirs, w1. world_simpl. rewrite Hde, Hd.
    rewrite makedirs_rev_new; [done | by rewrite lookup_delete_eq | done |].
    assert (removelast d ≠ d) by (by apply removelast_ne).
    destruct (removelast d) eqn:E; [done|]. simpl in *.
    by rewrite lookup_delete_ne. }
  assert (fs w2 !! l = None) as Habs2.
  { unfold w2. world_simpl.
    by rewrite lookup_insert_ne, lookup_delete_ne. }
  assert (cwd w2 = cwd w) as Hc2 by reflexivity.
  assert (l ≠ []) as Hlne by (by rewrite <- Hl).
  rewrite (bind_run _ _ _ false w2); cycle 1.
  { unfold os_path_isdir, get. rewrite Hc2.
    rewrite lookup_path_at by done. by rewrite Hl, Habs2. }
  cbn [negb]. cbv beta iota.
  rewrite write_file_fresh; rewrite ?Hc2, ?Hl; try done; cycle 1.
  { rewrite Hparent. unfold w2. world_simpl.
    destruct d; [done|]. simpl. by rewrite lookup_insert_eq. }
  eexists. split; [reflexivity|]. unfold w2. world_simpl.
  by rewrite insert_delete_eq.
Qed.

Lemma export_blob_replaces_a_file_in_the_way_witness :
  ∃ w', export_blob (b "A") "cfg/.circleci/config.yml" blocked_world
        = (Ok tt, w')
        ∧ fs w' = <[(cwd blocked_world ++ ["cfg"; ".circleci"]
                     ++ ["config.yml"])%list := File (b "A")]>
                    (<[(cwd blocked_world ++ ["cfg"; ".circleci"])%list
                       := Dir]> (fs blocked_world)).
Proof.
  apply (export_blob_replaces_a_file_in_the_way (b "A")
           (b "100644 config.yml") "cfg/.circleci/config.yml"
           ["cfg"; ".circleci"] "config.yml" blocked_world).
  - reflexivity.
  - reflexivity.
  - discriminate.
  - vm_compute. reflexivity.
  - vm_compute. reflexivity.
  - vm_compute. reflexivity.
Defined.

(** ** The overlay folder: what is captured, and what happens without it *)

Lemma dict_set_fresh (m : overlay) k v :
  ¬ k ∈ m.*1 → dict_set m k v = (m ++ [(k, v)])%list.
Proof.
  induction m as [|[k' v'] m IH]; intros Hk; [done|].
  simpl. csimpl in Hk. apply not_elem_of_cons in Hk as [Hne Hk].
  rewrite bool_decide_eq_false_2 by congruence. by rewrite IH.
Qed.

Lemma capture_folder_filter cfg items : ∀ m,
  NoDup (m.*1 ++ (path <$> items))%list →
  capture_folder (Some cfg) items m = Ok (m ++ items_under cfg items)%list.
Proof.
  unfold items_under.
  induction items as [|item items IH]; intros m Hnd; simpl.
  - by rewrite app_nil_r.
  - csimpl in Hnd. rewrite filter_cons.
    destruct (String.prefix cfg (path item)) eqn:E.
    + rewrite decide_True by done.
      rewrite dict_set_fresh; cycle 1.
      { apply NoDup_app in Hnd as (_ & Hnd & _). intros Hin.
        apply (Hnd _ Hin). left. }
      rewrite IH; [by rewrite <- app_assoc|].
      rewrite fmap_app. csimpl. by rewrite <- app_assoc.
    + rewrite decide_False by done.
      apply IH. apply NoDup_app in Hnd as (H1 & H2 & H3).
      apply NoDup_app. split_and!; [done| |by inversion H3].
      intros x Hx Hin. apply (H2 x Hx). by right.
Qed.

(** X17.  From a tree listing without repeated paths, the capture for
    [--config-path CFG] takes exactly the entries whose path starts with the
    string [CFG], directories as well as files, in the order of the listing,
    each with its bytes. *)
Theorem capture_takes_the_entries_under_the_folder (cfg : string)
    (items : list tree_item) :
  NoDup (path <$> items) →
  capture_folder (Some cfg) items [] = Ok (items_under cfg items).
Proof. intros Hnd. by apply (capture_folder_filter cfg items []). Qed.

Lemma capture_takes_the_entries_under_the_folder_witness :
  capture_folder (Some "cfg/") (tree main_commit) []
  = Ok (items_under "cfg/" (tree main_commit)).
Proof.
  apply (capture_takes_the_entries_under_the_folder "cfg/" (tree main_commit)).
  apply (bool_decide_unpack _). vm_compute. exact I.
Defined.

(** Without [--config-path] no cycle returns. *)
Lemma replay_cycle_needs_config_path a c w name w' :
  config_path a = None → replay_cycle a c w ≠ (Ok name, w').
Proof.
  intros Hcfg Hrun.
  refine (hoare_run (λ _, True) _ (λ _ _, False) w name w' _ I Hrun).
  unfold replay_cycle.
  do 8 (apply hoare_any; intros ?).
  apply hoare_bind with (M := λ _ _, False); [|intros; apply hoare_false].
  intros w0 [] w1 _. cbn [for_each]. unfold restore_ci_folder.
  rewrite Hcfg. unfold raise, bind. discriminate.
Qed.

Lemma hoare_kept {A B C} (f : world → C) w0 (m : io A) (k : A → io B) Q :
  steps (keeps f) m →
  (∀ x, hoare (keeps f w0) (k x) Q) →
  hoare (keeps f w0) (bind m k) Q.
Proof. apply hoare_frame. apply keeps_trans. Qed.

(** Without [--config-path], a run that returns has had no commit to
    replay. *)
Lemma main_without_config_path_returns (cl : command_line)
    (w w' : world) (branches : list string) :
  opt_config_path cl = None →
  main cl w = (Ok branches, w') →
  branches = [] ∧ origin_heads w' = origin_heads w.
Proof.
  intros Hcfg Hrun.
  refine (hoare_run (keeps origin_heads w) _
            (λ bs w', bs = [] ∧ origin_heads w' = origin_heads w)
            w branches w' _ eq_refl Hrun).
  clear branches w' Hrun.
  unfold main, run.
  apply hoare_bind with
    (M := λ a w1, config_path a = None ∧ keeps origin_heads w w1).
  { intros w0 a w1 Hk. unfold get_args, os_getenv, get, ret, bind.
    intros [= <- <-]. by split. }
  intros a.
  intros w0 bs w1 [Ha Hk].
  revert w0 bs w1 Hk. change (hoare (keeps origin_heads w) (replay_commits a)
    (λ bs w', bs = [] ∧ origin_heads w' = origin_heads w)).
  unfold replay_commits, open_repo, create_remote_upstream,
    fetch_upstream_main, select_commits.
  do 4 (apply hoare_kept;
        [steps_walk (keeps_refl origin_heads) (keeps_trans origin_heads)
                    call_keeps | intros ?]).
  apply hoare_kept; [|intros commits].
  { apply steps_bind; [apply keeps_trans| |intros; by apply steps_ret].
    apply steps_collect_commits;
      [apply keeps_refl | apply keeps_trans | call_keeps]. }
  do 2 (apply hoare_kept;
        [steps_walk (keeps_refl origin_heads) (keeps_trans origin_heads)
                    call_keeps | intros ?]).
  unfold push_commits_one_by_one.
  destruct commits as [|c commits]; simpl.
  - intros w0 bs w1 Hk. unfold ret. by intros [= <- <-].
  - intros w0 bs w1 _ H. apply bind_ok in H as (name & w2 & Hc & _).
    by apply replay_cycle_needs_config_path in Hc.
Qed.

(** Without [--config-path], a cycle stops at the CI step at the latest:
    what it does is what its steps up to there do. *)
Ltac stop_at_ci_step Hcfg Hrefl Htrans leaf :=
  unfold replay_cycle;
  do 8 (apply (steps_bind _ Htrans);
        [solve [steps_walk Hrefl Htrans leaf] | intros ?]);
  intros ?;
  rewrite (bind_raise _ _ _ TypeError _)
    by (cbn [for_each]; unfold restore_ci_folder; by rewrite Hcfg);
  apply Hrefl.

Lemma cycle_without_config_path_origin a c :
  config_path a = None → steps (keeps origin_heads) (replay_cycle a c).
Proof.
  intros Hcfg.
  stop_at_ci_step Hcfg (keeps_refl origin_heads) (keeps_trans origin_heads)
                  call_keeps.
Qed.

Lemma cycle_without_config_path_quiet a c :
  config_path a = None → steps (appends no_milestone) (replay_cycle a c).
Proof.
  intros Hcfg.
  stop_at_ci_step Hcfg (appends_refl no_milestone)
                  (appends_trans no_milestone) call_quiet.
Qed.

Lemma get_args_config_path cl w :
  ∃ a, get_args cl w = (Ok a, w) ∧ config_path a = opt_config_path cl.
Proof. by eexists. Qed.

(** X18.  Run without [--config-path], the script never commits and never
    pushes, however the run ends: [origin] has its branches where they
    were, and the log holds no commit and no push.  The run either raises
    or, when there was no commit to replay, returns the empty list. *)
Theorem run_without_config_path_pushes_nothing (cl : command_line)
    (w : world) :
  opt_config_path cl = None →
  origin_heads (main cl w).2 = origin_heads w
  ∧ (∃ t, logged w (main cl w).2 t ∧ milestones t = [])
  ∧ ((main cl w).1 = Ok [] ∨ ∃ e, (main cl w).1 = Raise e).
Proof.
  intros Hcfg.
  destruct (get_args_config_path cl w) as (a & Ha & Hnone).
  rewrite Hcfg in Hnone.
  split_and!.
  - unfold main. rewrite (bind_run _ _ _ _ _ Ha).
    change (keeps origin_heads w (run a w).2). apply steps_apply.
    unfold run, replay_commits, open_repo, create_remote_upstream,
      fetch_upstream_main, select_commits, push_commits_one_by_one.
    steps_walk_pre
      ltac:(first [ apply (cycle_without_config_path_origin a _ Hnone)
                  | run_loops (keeps_refl origin_heads)
                              (keeps_trans origin_heads) ])
      (keeps_refl origin_heads) (keeps_trans origin_heads) call_keeps.
  - unfold main. rewrite (bind_run _ _ _ _ _ Ha).
    assert (appends no_milestone w (run a w).2) as (t & Ht & Hq).
    { apply steps_apply.
      unfold run, replay_commits, open_repo, create_remote_upstream,
        fetch_upstream_main, select_commits, push_commits_one_by_one.
      steps_walk_pre
        ltac:(first [ apply (cycle_without_config_path_quiet a _ Hnone)
                    | run_loops (appends_refl no_milestone)
                                (appends_trans no_milestone) ])
        (appends_refl no_milestone) (appends_trans no_milestone) call_quiet. }
    exists t. split; [done | by apply milestones_none].
  - destruct (main cl w) as [[bs|e] w'] eqn:Hrun; [left|right; by exists e].
    destruct (main_without_config_path_returns cl w w' bs Hcfg Hrun)
      as [-> _].
    reflexivity.
Qed.

Lemma run_without_config_path_pushes_nothing_witness :
  origin_heads (main no_config_path fork_world).2 = origin_heads fork_world
  ∧ (∃ t, logged fork_world (main no_config_path fork_world).2 t
          ∧ milestones t = [])
  ∧ ((main no_config_path fork_world).1 = Ok []
     ∨ ∃ e, (main no_config_path fork_world).1 = Raise e).
Proof.
  apply (run_without_config_path_pushes_nothing no_config_path fork_world).
  reflexivity.
Defined.

(** With two commits to replay and no [--config-path], the run raises in
    its first cycle, where [startswith(None)] is called. *)
Example run_without_config_path_raises :
  (main no_config_path fork_world).1 = Raise TypeError.
Proof. vm_compute. reflexivity. Qed.

(** ** The URL with the token *)

Lemma list_ascii_of_string_app s t :
  list_ascii_of_string (s ++ t)
  = (list_ascii_of_string s ++ list_ascii_of_string t)%list.
Proof.
  induction s as [|c s IH]; [done|]. rewrite append_cons. simpl. by rewrite IH.
Qed.

Lemma percent_encode_safe c :
  forallb (λ x, always_safe x || bool_decide (x = "%"%char))
          (list_ascii_of_string (percent_encode c)) = true.
Proof. destruct c as [[] [] [] [] [] [] [] []]; vm_compute; reflexivity. Qed.

Lemma quote_url_safe s : url_safe (quote s).
Proof.
  induction s as [|c s IH]; intros x Hx; [by destruct Hx|].
  simpl in Hx. destruct (always_safe c) eqn:E.
  - destruct Hx as [<-|Hx]; [by left | by apply IH].
  - rewrite list_ascii_of_string_app in Hx. apply in_app_or in Hx as [Hx|Hx];
      [|by apply IH].
    pose proof (percent_encode_safe c) as H.
    rewrite forallb_forall in H. specialize (H x Hx).
    apply orb_true_iff in H as [H|H]; [by left|].
    right. by apply bool_decide_eq_true in H.
Qed.

Lemma unquote_percent_encode c q :
  unquote (percent_encode c ++ q) = String c (unquote q).
Proof. destruct c as [[] [] [] [] [] [] [] []]; reflexivity. Qed.

Lemma unquote_safe c q :
  always_safe c = true → unquote (String c q) = String c (unquote q).
Proof.
  intros Hc. assert (c ≠ "%"%char) as Hne by (by intros ->).
  cbn [unquote]. repeat case_match; try done;
    match goal with
    | H : bool_decide _ = true |- _ =>
        apply bool_decide_eq_true_1 in H; contradiction
    end.
Qed.

Lemma unquote_quote s : unquote (quote s) = s.
Proof.
  induction s as [|c s IH]; [done|]. cbn [quote].
  destruct (always_safe c) eqn:E.
  - by rewrite unquote_safe, IH.
  - by rewrite unquote_percent_encode, IH.
Qed.

(** X19.  The URL used for the push carries the token between [https://]
    and [:x-oauth-basic@github.com/], followed by the repository slug, in a
    form that decodes back to the token, byte for byte, and that has only
    unreserved characters, slashes and percent signs: no colon and no
    at-sign of the token reaches the URL. *)
Theorem token_is_encoded_in_the_url (token : string) (repo : option string) :
  ∃ cred,
    token_url token repo
    = "https://" ++ cred ++ ":x-oauth-basic@github.com/" ++ fmt repo
    ∧ unquote cred = token
    ∧ url_safe cred
    ∧ ¬ In ":"%char (list_ascii_of_string cred)
    ∧ ¬ In "@"%char (list_ascii_of_string cred).
Proof.
  exists (quote token). split; [reflexivity|].
  split; [apply unquote_quote|].
  pose proof (quote_url_safe token) as H.
  split_and!; [done|..]; intros Hin; by destruct (H _ Hin).
Qed.

(** ** The copy of the CI folder *)

Lemma transplant_lookup src dst f r :
  r ≠ [] → transplant src dst f !! (dst ++ r)%list = f !! (src ++ r)%list.
Proof.
  intros Hr. unfold transplant.
  set (g := λ kv : loc * node, ((dst ++ drop (length src) kv.1)%list, kv.2)).
  assert (∀ k v, (k, v) ∈ map_to_list (below src f) ↔
                 f !! k = Some v ∧ src `prefix_of` k ∧ k ≠ src) as Hin.
  { intros k v. rewrite elem_of_map_to_list. unfold below.
    by rewrite map_lookup_filter_Some. }
  assert (NoDup (g <$> map_to_list (below src f)).*1) as Hnd.
  { rewrite <- list_fmap_compose. apply NoDup_fmap_2_strong.
    - intros [k1 v1] [k2 v2] H1 H2 E. simpl in E.
      apply Hin in H1 as (Hv1 & [r1 ->] & _).
      apply Hin in H2 as (Hv2 & [r2 ->] & _).
      rewrite !drop_app_length in E. apply (inj _) in E. subst r2.
      congruence.
    - apply NoDup_map_to_list. }
  destruct (f !! (src ++ r)%list) as [v|] eqn:E.
  - apply elem_of_list_to_map_1; [done|].
    apply list_elem_of_fmap. exists ((src ++ r)%list, v). split.
    + unfold g. simpl. by rewrite drop_app_length.
    + apply Hin. split_and!; [done | by eexists |].
      intros E'. apply (f_equal length) in E'. rewrite length_app in E'.
      destruct r; [done|]. simpl in E'. lia.
  - apply not_elem_of_list_to_map_1. rewrite <- list_fmap_compose.
    intros ([k v] & Hk & Hkv)%list_elem_of_fmap. simpl in Hk.
    apply Hin in Hkv as (Hv & [rk ->] & _).
    rewrite drop_app_length in Hk. apply (inj _) in Hk. subst rk. congruence.
Qed.

Lemma transplant_at_destination src dst f : transplant src dst f !! dst = None.
Proof.
  unfold transplant. apply not_elem_of_list_to_map_1.
  rewrite <- list_fmap_compose.
  intros ([k v] & Hk & Hkv)%list_elem_of_fmap. simpl in Hk.
  apply elem_of_map_to_list in Hkv. unfold below in Hkv.
  apply map_lookup_filter_Some in Hkv as (_ & Hpre & Hne).
  cbn [fst] in Hpre, Hne. destruct Hpre as [rk ->].
  rewrite drop_app_length in Hk.
  rewrite <- (app_nil_r dst) in Hk at 1. apply (inj _) in Hk. subst rk.
  by rewrite app_nil_r in Hne.
Qed.

Lemma without_subtree_below l k f :
  l `prefix_of` k → without_subtree l f !! k = None.
Proof.
  intros Hpre. unfold without_subtree. apply map_lookup_filter_None.
  right. intros x _ Hn. by apply Hn.
Qed.

Lemma fs_ok_nothing_below f l r :
  fs_ok f → l ≠ [] → f !! l = None → f !! (l ++ r)%list = None.
Proof.
  intros Hok Hl Habs. induction r as [|x r IH] using rev_ind.
  - by rewrite app_nil_r.
  - destruct (f !! (l ++ r ++ [x])%list) as [n|] eqn:E; [|done].
    apply Hok in E. cbv beta in E.
    rewrite app_assoc, removelast_last in E.
    destruct (l ++ r)%list eqn:El; [by destruct l|].
    simpl in E. congruence.
Qed.

Lemma path_join_nonempty a c : is_empty c = false → is_empty (path_join a c) = false.
Proof.
  intros Hc. unfold path_join. destruct c as [|x c]; [done|].
  repeat case_match; try done; rewrite ?append_cons, ?append_empty;
    apply is_empty_app_cons.
Qed.

Lemma incomparable_not_below {A} (l1 l2 r : list A) :
  ¬ l1 `prefix_of` l2 → ¬ l2 `prefix_of` l1 → ¬ l1 `prefix_of` (l2 ++ r)%list.
Proof.
  intros H1 H2 Hpre.
  destruct (prefix_weak_total l1 l2 (l2 ++ r)%list); [done | by eexists |..];
    done.
Qed.

(** X20.  Where the overlay folder holds a directory of the given name and
    the destination in the working directory is a directory or absent, the
    CI step makes the destination a copy of that directory: the destination
    is a directory whose entries are those of the source, what it held
    before is gone, and nothing changes outside it. *)
Theorem ci_folder_is_copied_from_the_overlay (a : args) (cfg folder : string)
    (w : world) :
  config_path a = Some cfg →
  is_empty folder = false →
  fs_ok (fs w) →
  lookup_path (fs w) (cwd w)
              (path_join3 (working_repo_dir a) cfg folder) = Some Dir →
  is_file (fs w) (resolve (cwd w) (path_join (working_repo_dir a) folder))
  = false →
  stat (fs w)
       (removelast (resolve (cwd w) (path_join (working_repo_dir a) folder)))
  = Some Dir →
  ¬ resolve (cwd w) (path_join (working_repo_dir a) folder)
      `prefix_of` resolve (cwd w) (path_join3 (working_repo_dir a) cfg folder) →
  ¬ resolve (cwd w) (path_join3 (working_repo_dir a) cfg folder)
      `prefix_of` resolve (cwd w) (path_join (working_repo_dir a) folder) →
  ∃ w', restore_ci_folder a folder w = (Ok tt, w')
        ∧ fs w' !! resolve (cwd w) (path_join (working_repo_dir a) folder)
          = Some Dir
        ∧ (∀ r, r ≠ [] →
             fs w' !! (resolve (cwd w) (path_join (working_repo_dir a) folder)
                       ++ r)%list
             = fs w !! (resolve (cwd w)
                          (path_join3 (working_repo_dir a) cfg folder)
                        ++ r)%list)
        ∧ (∀ k, ¬ resolve (cwd w) (path_join (working_repo_dir a) folder)
                    `prefix_of` k →
                fs w' !! k = fs w !! k).
Proof.
  intros Hcfg Hfolder Hok Hsrc Hnofile Hparent Hds Hsd.
  set (src := path_join3 (working_repo_dir a) cfg folder) in *.
  set (dst := path_join (working_repo_dir a) folder) in *.
  set (ls := resolve (cwd w) src) in *.
  set (ld := resolve (cwd w) dst) in *.
  assert (is_empty dst = false) as Hdst by (by apply path_join_nonempty).
  assert (ld ≠ []) as Hld.
  { intros E. apply Hds. rewrite E. apply prefix_nil. }
  assert (removelast ld ≠ ld) as Hup by (by apply removelast_ne).
  assert (¬ ld `prefix_of` removelast ld) as Hup'.
  { intros Hpre. apply prefix_length in Hpre.
    destruct ld as [|x ld _] using rev_ind; [done|].
    rewrite removelast_last, length_app in Hpre. simpl in Hpre. lia. }
  (* the world when the copy starts *)
  assert (∃ f1, (let* have := os_path_isdir dst in
                 do (if have : bool then shutil_rmtree dst else ret tt) in
                 shutil_copytree src dst) w
                = shutil_copytree src dst (set_fs f1 w)
                ∧ (∀ k, ld `prefix_of` k → f1 !! k = None)
                ∧ (∀ k, ¬ ld `prefix_of` k → f1 !! k = fs w !! k))
    as (f1 & Hrun & Hgone & Hsame).
  { assert (lookup_path (fs w) (cwd w) dst = fs w !! ld) as Hlook.
    { rewrite lookup_path_at by done. fold ld. unfold is_file in Hnofile.
      by destruct (fs w !! ld) as [[x|]|]. }
    unfold is_file in Hnofile.
    destruct (fs w !! ld) as [[x|]|] eqn:E; [done| |].
    - exists (without_subtree ld (fs w)). split_and!.
      + rewrite (bind_run _ _ w true w)
          by (unfold os_path_isdir, get; by rewrite Hlook).
        rewrite (bind_run _ _ w tt (set_fs (without_subtree ld (fs w)) w));
          [done|].
        unfold shutil_rmtree. by rewrite Hlook.
      + intros k Hk. by apply without_subtree_below.
      + intros k Hk. by apply without_subtree_other.
    - exists (fs w). split_and!.
      + rewrite (bind_run _ _ w false w)
          by (unfold os_path_isdir, get; by rewrite Hlook).
        rewrite (bind_run _ _ w tt w); [by destruct w | done].
      + intros k [r ->]. by apply fs_ok_nothing_below.
      + done. }
  unfold restore_ci_folder. rewrite Hcfg. cbv zeta. fold src dst.
  rewrite (bind_run _ _ w true w)
    by (unfold os_path_isdir, get; by rewrite Hsrc).
  cbv beta iota.
  rewrite Hrun. clear Hrun.
  assert (stat f1 ls = stat (fs w) ls) as Hls.
  { destruct ls eqn:E; [done|]. simpl. rewrite <- E in *. by apply Hsame. }
  assert (stat f1 (removelast ld) = Some Dir) as Hparent1.
  { rewrite <- Hparent. destruct (removelast ld) eqn:E; [done|]. simpl.
    rewrite <- E in *. by apply Hsame. }
  unfold shutil_copytree. world_simpl. fold ls ld.
  assert (lookup_path f1 (cwd w) src = Some Dir) as ->.
  { unfold lookup_path in *. fold ls in Hsrc |- *. by rewrite Hls. }
  rewrite Hdst.
  rewrite makedirs_rev_new; [| apply Hgone; reflexivity | done | done].
  eexists. split; [reflexivity|]. world_simpl. split_and!.
  - rewrite lookup_union_r by apply transplant_at_destination.
    by rewrite lookup_insert_eq.
  - intros r Hr. rewrite lookup_union, transplant_lookup by done.
    rewrite lookup_insert_ne; cycle 1.
    { intros E. apply (f_equal length) in E. rewrite length_app in E.
      destruct r; [done|]. simpl in E. lia. }
    rewrite (Hgone (ld ++ r)%list) by (by eexists).
    rewrite Hsame by (by apply incomparable_not_below).
    by destruct (fs w !! (ls ++ r)%list).
  - intros k Hk. rewrite lookup_union_r by (by apply transplant_other).
    rewrite lookup_insert_ne by (by intros ->). by apply Hsame.
Qed.

Lemma ci_folder_is_copied_from_the_overlay_witness :
  ∃ w', restore_ci_folder fork_args ".circleci" fork_world = (Ok tt, w')
        ∧ fs w' !! resolve (cwd fork_world)
                     (path_join (working_repo_dir fork_args) ".circleci")
          = Some Dir
        ∧ (∀ r, r ≠ [] →
             fs w' !! (resolve (cwd fork_world)
                         (path_join (working_repo_dir fork_args) ".circleci")
                       ++ r)%list
             = fs fork_world
                 !! (resolve (cwd fork_world)
                       (path_join3 (working_repo_dir fork_args) "cfg/"
                                   ".circleci")
                     ++ r)%list)
        ∧ (∀ k, ¬ resolve (cwd fork_world)
                    (path_join (working_repo_dir fork_args) ".circleci")
                    `prefix_of` k →
                fs w' !! k = fs fork_world !! k).
Proof.
  apply (ci_folder_is_copied_from_the_overlay fork_args "cfg/" ".circleci"
           fork_world).
  - reflexivity.
  - reflexivity.
  - apply (bool_decide_unpack _). vm_compute. exact I.
  - vm_compute. reflexivity.
  - vm_compute. reflexivity.
  - vm_compute. reflexivity.
  - apply (bool_decide_unpack _). vm_compute. exact I.
  - apply (bool_decide_unpack _). vm_compute. exact I.
Defined.

(** ** Every commit of the run reaches [origin] *)

Lemma stays_on_refl name w : stays_on name w w.
Proof. by intros ?. Qed.

Lemma stays_on_trans name w1 w2 w3 :
  stays_on name w1 w2 → stays_on name w2 w3 → stays_on name w1 w3.
Proof.
  intros H1 H2 HH. destruct (H1 HH) as [HH2 E1].
  destruct (H2 HH2) as [HH3 E2]. split; [done|].
  intros n Hn. by rewrite E2, E1.
Qed.

Ltac call_stays_on :=
  intros ? ?; unfold log, modify, read_clock, os_remove, os_makedirs,
    write_file, shutil_rmtree, shutil_copytree, move_head;
  world_simpl; split_matches; simplify_eq; world_simpl;
  (split; [done | intros ? ?; by rewrite ?lookup_insert_ne by done]).

Lemma branch_name_given a c w n w1 :
  truthy (branch a) = true →
  branch_name a c w = (Ok n, w1) → n = branch_of a c.
Proof.
  intros Hb. unfold branch_name. rewrite Hb. unfold ret. by intros [= <- _].
Qed.

Lemma branch_of_inj a c1 c2 :
  branch_of a c1 = branch_of a c2 → hexsha c1 = hexsha c2.
Proof. unfold branch_of. intros E. by apply (inj _), (inj _) in E. Qed.

(** A cycle for a branch that is new ends on that branch and moves no other
    local branch. *)
Lemma replay_cycle_new_branch a c w name w' :
  replay_cycle a c w = (Ok name, w') →
  heads w !! name = None →
  HEAD w' = OnBranch name ∧ ∀ n, n ≠ name → heads w' !! n = heads w !! n.
Proof.
  intros Hrun Hnew.
  destruct (replay_cycle_name _ _ _ _ _ Hrun) as [w1 Hname].
  destruct (branch_name_ok _ _ _ _ _ Hname) as (Hh & HH & _).
  unfold replay_cycle in Hrun. rewrite (bind_run _ _ _ _ _ Hname) in Hrun.
  erewrite bind_run in Hrun by reflexivity.
  rewrite Hh, bool_decide_false in Hrun by (rewrite Hnew; by intros []).
  simpl negb in Hrun. cbv iota in Hrun.
  apply bind_ok in Hrun as ([] & w2 & Hco & Hrun).
  apply git_checkout_B_ok in Hco as (tip & Htip & Hh2 & HH2 & _).
  assert (stays_on name w2 w') as Hstay.
  { eapply steps_run; [|exact Hrun].
    steps_walk (stays_on_refl name) (stays_on_trans name) call_stays_on. }
  destruct (Hstay HH2) as [HH' Hrest]. split; [done|].
  intros n Hn. by rewrite Hrest, Hh2, lookup_insert_ne, Hh.
Qed.

Lemma push_loop_origin_only a commits : ∀ branches w done w' n,
  truthy (branch a) = true →
  push_loop a commits branches w = (Ok done, w') →
  Forall (λ c, n ≠ branch_of a c) commits →
  origin_heads w' !! n = origin_heads w !! n.
Proof.
  induction commits as [|c commits IH]; intros branches w done w' n Hb; simpl.
  - unfold ret. by intros [= _ <-].
  - intros H Hn. apply Forall_cons in Hn as [Hn Hrest].
    apply bind_ok in H as (name & w1 & Hc & H).
    destruct (replay_cycle_name _ _ _ _ _ Hc) as [w2 Hname].
    pose proof (branch_name_given _ _ _ _ _ Hb Hname) as ->.
    pose proof (replay_cycle_origin_only a c w w2 _ n Hname Hn) as E.
    rewrite Hc in E. simpl in E.
    rewrite <- E. by eapply IH.
Qed.

Lemma push_loop_delivers a commits : ∀ branches w done w',
  truthy (branch a) = true →
  NoDup (hexsha <$> commits) →
  Forall (λ c, heads w !! branch_of a c = None) commits →
  push_loop a commits branches w = (Ok done, w') →
  Forall (λ c, ∃ new, origin_heads w' !! branch_of a c = Some new
                      ∧ message new = "Committing " ++ hexsha c
                      ∧ parents new = [hexsha c]) commits.
Proof.
  induction commits as [|c commits IH]; intros branches w done w' Hb Hnd Hnew;
    simpl; [constructor|].
  intros H. apply bind_ok in H as (name & w1 & Hc & H).
  apply Forall_cons in Hnew as [Hnew Hnews].
  csimpl in Hnd. apply NoDup_cons in Hnd as [Hc_fresh Hnd].
  destruct (replay_cycle_name _ _ _ _ _ Hc) as [w2 Hname].
  pose proof (branch_name_given _ _ _ _ _ Hb Hname) as ->.
  destruct (replay_cycle_new_branch _ _ _ _ _ Hc Hnew) as [HH Hothers].
  destruct (replay_cycle_commit _ _ _ _ _ Hc)
    as ((new & Hhead & Hmsg & Hpar & _) & _ & _ & Horigin).
  unfold head_commit in Hhead. rewrite HH in Hhead.
  assert (Forall (λ c', branch_of a c ≠ branch_of a c') commits) as Hdiff.
  { apply Forall_forall. intros c' Hin E. apply Hc_fresh.
    apply branch_of_inj in E. rewrite E. apply list_elem_of_fmap. eauto. }
  constructor.
  - exists new. split_and!; [|done..].
    rewrite (push_loop_origin_only _ _ _ _ _ _ _ Hb H Hdiff). congruence.
  - eapply IH; [done | done | | exact H].
    rewrite Forall_forall in Hnews, Hdiff |- *. intros c' Hin.
    rewrite Hothers; [by apply Hnews|]. intros E. by apply (Hdiff c' Hin).
Qed.

(** X21.  With [--branch BASE], for commits with different ids whose
    branches do not exist yet, a run of the loop that returns has delivered
    every one of them: [origin] has the branch [BASE-<id>] of each commit,
    at a commit with the message "Committing <id>" whose only parent is the
    replayed commit. *)
Theorem every_commit_reaches_origin (a : args) (commits : list commit)
    (w w' : world) (branches : list string) :
  truthy (branch a) = true →
  NoDup (hexsha <$> commits) →
  Forall (λ c, heads w !! branch_of a c = None) commits →
  push_commits_one_by_one a commits w = (Ok branches, w') →
  Forall (λ c, ∃ new, origin_heads w' !! branch_of a c = Some new
                      ∧ message new = "Committing " ++ hexsha c
                      ∧ parents new = [hexsha c]) commits.
Proof. apply push_loop_delivers. Qed.

Lemma every_commit_reaches_origin_witness :
  Forall (λ c, ∃ new,
            origin_heads (push_commits_one_by_one fork_args
                            [commit_yesterday; commit_today] fork_world).2
              !! branch_of fork_args c = Some new
            ∧ message new = "Committing " ++ hexsha c
            ∧ parents new = [hexsha c])
         [commit_yesterday; commit_today].
Proof.
  apply (every_commit_reaches_origin fork_args
           [commit_yesterday; commit_today] fork_world _
           ["replay-b2"; "replay-c3"]).
  - reflexivity.
  - apply (bool_decide_unpack _). vm_compute. exact I.
  - repeat constructor.
  - vm_compute. reflexivity.
Defined.

